(** * vscode-hg: status reconciliation, resource groups and operation tracking

    A shallow embedding of [src/resourceGroups.ts] and of the parts of
    [src/model.ts] (the [Resource] class, [OperationsImpl],
    [Model.whenUnlocked] and the sync counters) that the specification of the
    change-tracking core talks about.

    Conventions of the embedding:
    - a [Uri] is represented by its [toString()] form; every comparison in the
      source goes through [toString()];
    - [Uri.file(path.join(root, p))] and [fs.existsSync] belong to the host
      platform and are Section variables;
    - a thrown exception is a value [Throw e] of the [result] monad;
    - of the group object a [Resource] references, the first definitions keep
      the identifier ([ResourceGroup.id]): the source always passes a group
      object of that kind (the previous group in [groupStatuses], the
      receiver in [intersect]), whose identifier its subclass fixes. The
      module [Objects] gives the same code with the referenced group itself,
      for the statements about which object owns a resource;
    - the numbers of [OperationsImpl] and of the sync counters are integers,
      the milliseconds of [whenUnlocked] IEEE 754 doubles. *)

From stdpp Require Import base option list gmap strings fin_maps.
From Stdlib Require Import ZArith QArith Qpower Qabs Lia.
From Stdlib Require Floats.SpecFloat.
From Equations Require Import Equations.

Local Open Scope string_scope.
Local Open Scope list_scope.

(** ** Exceptions *)

Inductive Exn : Type :=
| HgError (message : string)
| Error (message : string).

Inductive result (A : Type) : Type :=
| Ok (a : A)
| Throw (e : Exn).
Arguments Ok {A} a.
Arguments Throw {A} e.

#[global] Instance result_ret : MRet result := fun A a => Ok a.
#[global] Instance result_bind : MBind result := fun A B f m =>
  match m with
  | Ok a => f a
  | Throw e => Throw e
  end.

Definition is_Ok {A} (m : result A) : Prop := exists a, m = Ok a.

#[global] Instance Exn_eq_dec : EqDecision Exn.
Proof. solve_decision. Defined.
#[global] Instance result_eq_dec {A} `{EqDecision A} : EqDecision (result A).
Proof. solve_decision. Defined.

(** [Array.prototype.filter] with a callback that may throw. *)
Fixpoint filterM {A} (p : A -> result bool) (l : list A) : result (list A) :=
  match l with
  | [] => Ok []
  | x :: l' =>
      b ← p x;
      rest ← filterM p l';
      Ok (if b : bool then x :: rest else rest)
  end.

(** [Array.prototype.map] with a callback that may throw. *)
Fixpoint mapR {A B} (f : A -> result B) (l : list A) : result (list B) :=
  match l with
  | [] => Ok []
  | x :: l' =>
      y ← f x;
      rest ← mapR f l';
      Ok (y :: rest)
  end.

(** A [for..of] / [forEach] loop threading a state through a body that may
    throw. *)
Fixpoint foldR {A S} (body : S -> A -> result S) (s : S) (l : list A) : result S :=
  match l with
  | [] => Ok s
  | x :: l' =>
      s' ← body s x;
      foldR body s' l'
  end.

(** ** model.ts: enumerations and [Resource] *)

Inductive Status : Type :=
| MODIFIED | ADDED | DELETED | UNTRACKED | IGNORED | MISSING | RENAMED | CLEAN.

Inductive MergeStatus : Type :=
| NONE | UNRESOLVED | RESOLVED.

#[global] Instance Status_eq_dec : EqDecision Status.
Proof. solve_decision. Defined.
#[global] Instance MergeStatus_eq_dec : EqDecision MergeStatus.
Proof. solve_decision. Defined.

(** The numeric value of the enum member, as the template string of the error
    message prints it. *)
Definition Status_toString (s : Status) : string :=
  match s with
  | MODIFIED => "0" | ADDED => "1" | DELETED => "2" | UNTRACKED => "3"
  | IGNORED => "4" | MISSING => "5" | RENAMED => "6" | CLEAN => "7"
  end.

Abbreviation Uri := string (only parsing).

(** [keyof IStatusGroups] *)
Inductive ResourceGroupId : Type :=
| conflict | staging | merge | working | untracked.

#[global] Instance ResourceGroupId_eq_dec : EqDecision ResourceGroupId.
Proof. solve_decision. Defined.

(** [Resource]. [_resourceGroup] is the identifier of the group object the
    resource references; [Objects.Resource] holds the object itself, and
    [erase_resource] takes the one to the other. *)
Record Resource : Type := mkResource {
  _resourceGroup : ResourceGroupId;
  _resourceUri : Uri;
  _status : Status;
  _mergeStatus : MergeStatus;
  _renameResourceUri : option Uri
}.

#[global] Instance Resource_eq_dec : EqDecision Resource.
Proof. solve_decision. Defined.

Definition original (r : Resource) : Uri := _resourceUri r.
Definition renameResourceUri (r : Resource) : option Uri := _renameResourceUri r.

(** [get resourceUri()] *)
Definition resourceUri (r : Resource) : result Uri :=
  match renameResourceUri r with
  | Some renameUri =>
      if decide (_status r = MODIFIED \/ _status r = RENAMED \/ _status r = ADDED)
      then Ok renameUri
      else Throw (Error ("Renamed resource with unexpected status: "
                           +:+ Status_toString (_status r)))
  | None => Ok (_resourceUri r)
  end.

Definition isDirtyStatus (r : Resource) : bool :=
  match _status r with
  | UNTRACKED | IGNORED => false
  | _ => true
  end.

(** ** resourceGroups.ts: [ResourceGroup] *)

Record ResourceGroup : Type := mkResourceGroup {
  _id : ResourceGroupId;
  _label : string;
  _resources : list Resource;
  _resourceUriIndex : gmap string bool
}.

(** [ResourceGroup.indexResources] *)
Definition indexResources (resources : list Resource) : result (gmap string bool) :=
  foldR (fun index r => u ← resourceUri r; Ok (<[u := true]> index)) ∅ resources.

(** The default (English) label each subclass constructor passes to [super]. *)
Definition label_of (id : ResourceGroupId) : string :=
  match id with
  | merge => "Merged Changes"
  | conflict => "Unresolved Conflicts"
  | staging => "Staged Changes"
  | untracked => "Untracked Files"
  | working => "Changes"
  end.

(** [new MergeGroup(resources)], [new ConflictGroup(resources)], ...: the
    subclass fixes the identifier and the label, the base constructor builds
    the index. *)
Definition new_ResourceGroup (id : ResourceGroupId) (resources : list Resource)
  : result ResourceGroup :=
  index ← indexResources resources;
  Ok (mkResourceGroup id (label_of id) resources index).

Definition includesUri (this : ResourceGroup) (uri : Uri) : bool :=
  bool_decide (is_Some (_resourceUriIndex this !! uri)).

Definition includes (this : ResourceGroup) (resource : Resource) : result bool :=
  u ← resourceUri resource;
  Ok (includesUri this u).

Definition getResource (this : ResourceGroup) (uri : Uri) : result (option Resource) :=
  found ← filterM (fun r => u ← resourceUri r; Ok (bool_decide (u = uri)))
                  (_resources this);
  Ok (head found).

(** [newResourceGroup]: the constructor of the receiver's own subclass. *)
Definition newResourceGroup (this : ResourceGroup) (resources : list Resource)
  : result ResourceGroup :=
  new_ResourceGroup (_id this) resources.

Definition intersect (this : ResourceGroup) (resources : list Resource)
  : result ResourceGroup :=
  kept ← filterM (fun r => b ← includes this r; Ok (negb b)) resources;
  newUniqueResources ←
    mapR (fun r => u ← resourceUri r;
                   Ok (mkResource (_id this) u (_status r) (_mergeStatus r) None))
         kept;
  newResourceGroup this (_resources this ++ newUniqueResources).

Definition except (this : ResourceGroup) (resources : list Resource)
  : result ResourceGroup :=
  excludeIndex ← indexResources resources;
  remainingResources ←
    filterM (fun r => u ← resourceUri r;
                      Ok (negb (bool_decide (is_Some (excludeIndex !! u)))))
            (_resources this);
  newResourceGroup this remainingResources.

Record IStatusGroups : Type := mkStatusGroups {
  g_conflict : ResourceGroup;
  g_staging : ResourceGroup;
  g_merge : ResourceGroup;
  g_working : ResourceGroup;
  g_untracked : ResourceGroup
}.

(** [new ConflictGroup()], ...: a group without resources; its index is
    empty. *)
Definition empty_group (id : ResourceGroupId) : ResourceGroup :=
  mkResourceGroup id (label_of id) [] ∅.

Definition createEmptyStatusGroups : IStatusGroups :=
  mkStatusGroups (empty_group conflict) (empty_group staging) (empty_group merge)
                 (empty_group working) (empty_group untracked).

Definition group_of (gs : IStatusGroups) (id : ResourceGroupId) : ResourceGroup :=
  match id with
  | conflict => g_conflict gs
  | staging => g_staging gs
  | merge => g_merge gs
  | working => g_working gs
  | untracked => g_untracked gs
  end.

(** [toMergeStatus] *)
Definition toMergeStatus (status : string) : MergeStatus :=
  if decide (status = "R") then RESOLVED
  else if decide (status = "U") then UNRESOLVED
  else NONE.

(** ** resourceGroups.ts: [groupStatuses] *)

(** [IFileStatus] (declared in hg.ts): [{ status: string; path: string;
    rename?: string }]. *)
Record IFileStatus : Type := mkFileStatus {
  status : string;
  path : string;
  rename : option string
}.

(** [IRepoStatus] (declared in hg.ts); only [isMerge] is read here. *)
Record IRepoStatus : Type := mkRepoStatus {
  isMerge : bool
}.

(** JavaScript truthiness of a [string | undefined]: [undefined] and the empty
    string are falsy. *)
Definition truthy (s : option string) : bool :=
  match s with
  | Some s => negb (bool_decide (s = EmptyString))
  | None => false
  end.

(** [Array.prototype.some] over resources, comparing [resourceUri.toString()]. *)
Fixpoint some_resourceUri (uriString : string) (rs : list Resource) : result bool :=
  match rs with
  | [] => Ok false
  | resource :: rs' =>
      u ← resourceUri resource;
      if bool_decide (u = uriString) then Ok true else some_resourceUri uriString rs'
  end.

(** The [switch (rawStatus)] at the head of [chooseResourcesAndGroup]. *)
Definition toStatus (rawStatus : string) (renamed : bool) : result Status :=
  if decide (rawStatus = "M") then Ok MODIFIED
  else if decide (rawStatus = "R") then Ok DELETED
  else if decide (rawStatus = "I") then Ok IGNORED
  else if decide (rawStatus = "?") then Ok UNTRACKED
  else if decide (rawStatus = "!") then Ok MISSING
  else if decide (rawStatus = "A") then Ok (if renamed then RENAMED else ADDED)
  else if decide (rawStatus = "C") then Ok CLEAN
  else Throw (HgError ("Unknown rawStatus: " +:+ rawStatus)).

(** The closure [chooseResourcesAndGroup]. Every [return] of the source pairs
    an accumulator array with the same-named previous group
    ([untrackedResources] with [untracked], ...); the identifier returned here
    stands for both. *)
Definition chooseResourcesAndGroup (statusGroups : IStatusGroups) (repoStatus : IRepoStatus)
    (uriString rawStatus : string) (mergeStatus : MergeStatus) (renamed : bool)
  : result (ResourceGroupId * Status) :=
  status ← toStatus rawStatus renamed;
  if decide (status = IGNORED \/ status = UNTRACKED) then Ok (untracked, status)
  else if isMerge repoStatus then
    if decide (mergeStatus = UNRESOLVED) then Ok (conflict, status)
    else Ok (merge, status)
  else
    isStaged ← some_resourceUri uriString (_resources (g_staging statusGroups));
    Ok (if isStaged : bool then staging else working, status).

(** The five accumulator arrays of [groupStatuses]. *)
Record Buckets : Type := mkBuckets {
  workingDirectoryResources : list Resource;
  stagingResources : list Resource;
  conflictResources : list Resource;
  mergeResources : list Resource;
  untrackedResources : list Resource
}.

Definition emptyBuckets : Buckets := mkBuckets [] [] [] [] [].

Definition bucket (b : Buckets) (id : ResourceGroupId) : list Resource :=
  match id with
  | conflict => conflictResources b
  | staging => stagingResources b
  | merge => mergeResources b
  | working => workingDirectoryResources b
  | untracked => untrackedResources b
  end.

(** [resources.push(r)] on the chosen accumulator. *)
Definition push (b : Buckets) (target : ResourceGroupId) (r : Resource) : Buckets :=
  match target with
  | conflict =>
      mkBuckets (workingDirectoryResources b) (stagingResources b)
                (conflictResources b ++ [r]) (mergeResources b) (untrackedResources b)
  | staging =>
      mkBuckets (workingDirectoryResources b) (stagingResources b ++ [r])
                (conflictResources b) (mergeResources b) (untrackedResources b)
  | merge =>
      mkBuckets (workingDirectoryResources b) (stagingResources b)
                (conflictResources b) (mergeResources b ++ [r]) (untrackedResources b)
  | working =>
      mkBuckets (workingDirectoryResources b ++ [r]) (stagingResources b)
                (conflictResources b) (mergeResources b) (untrackedResources b)
  | untracked =>
      mkBuckets (workingDirectoryResources b) (stagingResources b)
                (conflictResources b) (mergeResources b) (untrackedResources b ++ [r])
  end.

Record IGroupStatusesParams : Type := mkParams {
  respositoryRoot : string;
  statusGroups : IStatusGroups;
  fileStatuses : list IFileStatus;
  repoStatus : IRepoStatus;
  resolveStatuses : option (list IFileStatus)
}.

Section Reconciler.

(** [file_uri root p] is [Uri.file(path.join(root, p)).toString()]. *)
Variable file_uri : string -> string -> Uri.
(** [existsSync u] is [fs.existsSync(uri.fsPath)] for the uri printed [u]. *)
Variable existsSync : Uri -> bool.

(** [const renameUri = raw.rename ? Uri.file(...) : undefined] *)
Definition renameUri_of (respositoryRoot : string) (raw : IFileStatus) : option Uri :=
  match rename raw with
  | Some rn => if truthy (rename raw) then Some (file_uri respositoryRoot rn) else None
  | None => None
  end.

(** [const resolveFile = resolveStatuses &&
    resolveStatuses.filter(res => res.path === raw.path)[0]] *)
Definition resolveFile_of (resolveStatuses : option (list IFileStatus)) (raw : IFileStatus)
  : option IFileStatus :=
  match resolveStatuses with
  | Some rs => head (filter (fun res => path res = path raw) rs)
  | None => None
  end.

(** [const mergeStatus = resolveFile ? toMergeStatus(resolveFile.status)
    : MergeStatus.NONE] *)
Definition mergeStatus_of (resolveStatuses : option (list IFileStatus)) (raw : IFileStatus)
  : MergeStatus :=
  match resolveFile_of resolveStatuses raw with
  | Some resolveFile => toMergeStatus (status resolveFile)
  | None => NONE
  end.

(** Body of [for (const raw of fileStatuses)]. *)
Definition firstPass (p : IGroupStatusesParams)
    (st : Buckets * gmap string bool) (raw : IFileStatus)
  : result (Buckets * gmap string bool) :=
  let uri := file_uri (respositoryRoot p) (path raw) in
  let uriString := uri in
  let seenUriStrings := <[uriString := true]> (snd st) in
  let renameUri := renameUri_of (respositoryRoot p) raw in
  let mergeStatus := mergeStatus_of (resolveStatuses p) raw in
  choice ← chooseResourcesAndGroup (statusGroups p) (repoStatus p)
             uriString (status raw) mergeStatus (truthy (rename raw));
  Ok (push (fst st) (fst choice)
           (mkResource (fst choice) uri (snd choice) mergeStatus renameUri),
      seenUriStrings).

(** Body of [for (const raw of resolveStatuses)]. *)
Definition secondPass (p : IGroupStatusesParams) (seenUriStrings : gmap string bool)
    (b : Buckets) (raw : IFileStatus) : result Buckets :=
  let uri := file_uri (respositoryRoot p) (path raw) in
  let uriString := uri in
  if bool_decide (is_Some (seenUriStrings !! uriString)) then Ok b
  else
    let mergeStatus := toMergeStatus (status raw) in
    let inferredStatus := if existsSync uri then "C" else "R" in
    choice ← chooseResourcesAndGroup (statusGroups p) (repoStatus p)
               uriString inferredStatus mergeStatus (truthy (rename raw));
    Ok (push b (fst choice)
             (mkResource (fst choice) uri (snd choice) mergeStatus None)).

Definition groupStatuses (p : IGroupStatusesParams) : result IStatusGroups :=
  st ← foldR (firstPass p) (emptyBuckets, ∅) (fileStatuses p);
  b ← match resolveStatuses p with
      | Some rs => foldR (secondPass p (snd st)) (fst st) rs
      | None => Ok (fst st)
      end;
  c ← new_ResourceGroup conflict (conflictResources b);
  m ← new_ResourceGroup merge (mergeResources b);
  s ← new_ResourceGroup staging (stagingResources b);
  w ← new_ResourceGroup working (workingDirectoryResources b);
  u ← new_ResourceGroup untracked (untrackedResources b);
  Ok (mkStatusGroups c s m w u).

End Reconciler.

(** ** model.ts: the operation tracker *)

Module Operation.

Inductive t : Type :=
| Status | Add | RevertFiles | Commit | Clean | Branch | Update | Rollback
| RollbackDryRun | Pull | Push | Sync | Init | Show | Stage
| GetCommitTemplate | Resolve | Unresolve | Parents | Forget | Merge
| AddRemove | SetBookmark | RemoveBookmark | Annotate.

(** The shift amount of each member ([1 << bit]); 16 is unused. *)
Definition bit (op : t) : Z :=
  match op with
  | Status => 0 | Add => 1 | RevertFiles => 2 | Commit => 3 | Clean => 4
  | Branch => 5 | Update => 6 | Rollback => 7 | RollbackDryRun => 8
  | Pull => 9 | Push => 10 | Sync => 11 | Init => 12 | Show => 13
  | Stage => 14 | GetCommitTemplate => 15 | Resolve => 17 | Unresolve => 18
  | Parents => 19 | Forget => 20 | Merge => 21 | AddRemove => 22
  | SetBookmark => 23 | RemoveBookmark => 24 | Annotate => 25
  end%Z.

Definition value (op : t) : Z := Z.shiftl 1 (bit op).

End Operation.

Definition isReadOnly (operation : Operation.t) : bool :=
  match operation with
  | Operation.Show | Operation.GetCommitTemplate => true
  | _ => false
  end.

(** ECMAScript [ToInt32]: the operands of [|], [&] and [~] are taken modulo
    2^32 and read as signed 32-bit integers. *)
Definition ToInt32 (x : Z) : Z :=
  let int32bit := (x mod 2 ^ 32)%Z in
  if (int32bit >=? 2 ^ 31)%Z then (int32bit - 2 ^ 32)%Z else int32bit.

Record OperationsImpl : Type := mkOperations {
  operations : Z
}.

(** [new OperationsImpl()] *)
Definition new_OperationsImpl : OperationsImpl := mkOperations 0.

Definition start (this : OperationsImpl) (operation : Operation.t) : OperationsImpl :=
  mkOperations (Z.lor (ToInt32 (operations this)) (ToInt32 (Operation.value operation))).

(** [end] is a keyword of Rocq; the method [end] is [end_]. *)
Definition end_ (this : OperationsImpl) (operation : Operation.t) : OperationsImpl :=
  mkOperations (Z.land (ToInt32 (operations this))
                       (ToInt32 (Z.lnot (ToInt32 (Operation.value operation))))).

Definition isRunning (this : OperationsImpl) (operation : Operation.t) : bool :=
  negb (Z.land (ToInt32 (operations this)) (ToInt32 (Operation.value operation)) =? 0)%Z.

Definition isIdle (this : OperationsImpl) : bool :=
  (operations this =? 0)%Z.

(** The tracker values the Model can hold: it starts from
    [new OperationsImpl()] and only ever replaces [_operations] by
    [start]/[end] of it (in [run]). *)
Inductive reachable : OperationsImpl -> Prop :=
| reachable_new : reachable new_OperationsImpl
| reachable_start t op : reachable t -> reachable (start t op)
| reachable_end t op : reachable t -> reachable (end_ t op).

(** ** model.ts: [Model.whenUnlocked] *)

(** A JavaScript number is an IEEE 754 double: a [spec_float] at precision
    53 with maximal exponent 1024, multiplied with rounding to nearest, ties
    to even. *)
Definition double : Type := SpecFloat.spec_float.

Definition double_mul (x y : double) : double := SpecFloat.SFmul 53 1024 x y.

(** The literal [100]: 100 = 7036874417766400 * 2^-46. *)
Definition double_100 : double := SpecFloat.S754_finite false 7036874417766400 (-46).

(** The literal [1.4], which denotes the double nearest to 7/5:
    6305039478318694 * 2^-52. *)
Definition double_1_4 : double := SpecFloat.S754_finite false 6305039478318694 (-52).

(** The number a finite double stands for. *)
Definition double_value (x : double) : Q :=
  match x with
  | SpecFloat.S754_finite s m e =>
      ((if s then -1 else 1) * inject_Z (Z.pos m) * 2 ^ e)%Q
  | _ => 0%Q
  end.

(** What the loop does to the outside world, in order: an [exists] query on
    the lock file with its answer, or a [timeout] of so many milliseconds. *)
Inductive LockEvent : Type :=
| ExistsQuery (answer : bool)
| Timeout (millis : double).

(** The [while] loop of [whenUnlocked], from the state [(millis, retries)].
    [lockExists k] is the answer to the query made after [k] retries; the
    [retries < 10] test short-circuits the query. *)
Equations? whenUnlocked_loop (lockExists : nat -> bool) (millis : double) (retries : nat)
  : list LockEvent by wf (10 - retries)%nat lt :=
  whenUnlocked_loop lockExists millis retries with decide (retries < 10)%nat => {
    | right _ => [];
    | left _ with lockExists retries => {
        | false => [ExistsQuery false];
        | true =>
            ExistsQuery true :: Timeout (double_mul millis double_1_4)
              :: whenUnlocked_loop lockExists (double_mul millis double_1_4) (retries + 1)%nat
      }
  }.
Proof. lia. Qed.

Definition whenUnlocked (lockExists : nat -> bool) : list LockEvent :=
  whenUnlocked_loop lockExists double_100 0%nat.

Definition timeouts (trace : list LockEvent) : list double :=
  omap (fun e => match e with Timeout ms => Some ms | ExistsQuery _ => None end) trace.

Definition queries (trace : list LockEvent) : list bool :=
  omap (fun e => match e with ExistsQuery b => Some b | Timeout _ => None end) trace.

(** ** model.ts: the sync counters *)

Record SyncCounts : Type := mkSyncCounts {
  incoming : Z;
  outgoing : Z
}.

(** JavaScript truthiness of a number (integers here): zero is falsy. *)
Definition truthy_number (n : Z) : bool := negb (n =? 0)%Z.

(** The part of [countIncomingAfterDelay] that runs before its first
    [await]: the immediate update. [expectedDelta] is [None] for an omitted
    (or [undefined]) argument, which the default parameter turns into 0.
    The second component counts the [_onDidChangeInOutState.fire()] calls. *)
Definition countIncoming_immediate (syncCounts : SyncCounts) (expectedDelta : option Z)
  : SyncCounts * nat :=
  let expectedDelta := default 0%Z expectedDelta in
  if truthy_number expectedDelta
  then (mkSyncCounts (Z.max 0 (incoming syncCounts + expectedDelta)) (outgoing syncCounts), 1%nat)
  else (syncCounts, 0%nat).

Definition countOutgoing_immediate (syncCounts : SyncCounts) (expectedDelta : option Z)
  : SyncCounts * nat :=
  let expectedDelta := default 0%Z expectedDelta in
  if truthy_number expectedDelta
  then (mkSyncCounts (incoming syncCounts) (Z.max 0 (outgoing syncCounts + expectedDelta)), 1%nat)
  else (syncCounts, 0%nat).

(** The whole method: after the delay the count the repository reports
    ([confirmed], or the exception of [createSyncOptions]/[countIncoming])
    overwrites the counter; an exception is rethrown and leaves the
    immediate update in place. *)
Definition countIncomingAfterDelay (syncCounts : SyncCounts) (expectedDelta : option Z)
    (confirmed : result Z) : SyncCounts * result unit :=
  let s := fst (countIncoming_immediate syncCounts expectedDelta) in
  match confirmed with
  | Ok n => (mkSyncCounts n (outgoing s), Ok tt)
  | Throw e => (s, Throw e)
  end.

Definition countOutgoingAfterDelay (syncCounts : SyncCounts) (expectedDelta : option Z)
    (confirmed : result Z) : SyncCounts * result unit :=
  let s := fst (countOutgoing_immediate syncCounts expectedDelta) in
  match confirmed with
  | Ok n => (mkSyncCounts (incoming s) n, Ok tt)
  | Throw e => (s, Throw e)
  end.

(** * Specification vocabulary *)

(** The location [resourceUri] returns when it returns at all. *)
Definition effective (r : Resource) : Uri :=
  match renameResourceUri r with
  | Some renameUri => renameUri
  | None => _resourceUri r
  end.

(** The states in which [resourceUri] does not throw. *)
Definition valid (r : Resource) : Prop :=
  match renameResourceUri r with
  | Some _ => _status r = MODIFIED \/ _status r = RENAMED \/ _status r = ADDED
  | None => True
  end.

#[global] Instance valid_dec r : Decision (valid r).
Proof. unfold valid. destruct (renameResourceUri r); apply _. Defined.

(** A group value is [constructed] when it is what its constructor returns
    for its own resources: the class invariant of every [ResourceGroup]
    object. *)
Definition constructed (G : ResourceGroup) : Prop :=
  new_ResourceGroup (_id G) (_resources G) = Ok G.


(** The statuses under which a rename source is a legal effective location. *)
Definition MRA (s : Status) : Prop := s = MODIFIED \/ s = RENAMED \/ s = ADDED.

(** The resource [intersect] synthesizes for an input it has to re-home. *)
Definition rehomed (G : ResourceGroup) (r : Resource) : Resource :=
  mkResource (_id G) (effective r) (_status r) (_mergeStatus r) None.

(** The raw status codes [chooseResourcesAndGroup] knows. *)
Definition known_codes : list string := ["M"; "R"; "I"; "?"; "!"; "A"; "C"].

(** The routing precedence in the words of the specification: untracked
    first, then the merge state, then the previous staging. *)
Definition route_by_precedence (status : Status) (midMerge : bool)
    (mergeStatus : MergeStatus) (previouslyStaged : bool) : ResourceGroupId :=
  match status with
  | IGNORED | UNTRACKED => untracked
  | _ =>
      if midMerge then
        match mergeStatus with
        | UNRESOLVED => conflict
        | _ => merge
        end
      else if previouslyStaged then staging else working
  end.

(** Pushing each resource on the accumulator of the group that owns it. *)
Definition pushAll (b : Buckets) (rs : list Resource) : Buckets :=
  foldl (fun b r => push b (_resourceGroup r) r) b rs.

(** The resources of [rs] owned by group [id], in order. *)
Definition owned_by (id : ResourceGroupId) (rs : list Resource) : list Resource :=
  filter (fun r => _resourceGroup r = id) rs.

(** All the resources of a partition, group after group. *)
Definition all_resources (gs : IStatusGroups) : list Resource :=
  _resources (g_conflict gs) ++ _resources (g_merge gs) ++ _resources (g_staging gs)
    ++ _resources (g_working gs) ++ _resources (g_untracked gs).

Section ReconcilerVocabulary.

Variable file_uri : string -> string -> Uri.
Variable existsSync : Uri -> bool.

(** The location of a record. *)
Definition location (p : IGroupStatusesParams) (raw : IFileStatus) : Uri :=
  file_uri (respositoryRoot p) (path raw).

(** The set [seenUriStrings] after the first loop has run over [l]. *)
Definition seen_after (p : IGroupStatusesParams) (l : list IFileStatus)
    (seen : gmap string bool) : gmap string bool :=
  foldl (fun m raw => <[location p raw := true]> m) seen l.

(** The resolution records the second pass does not skip: those whose
    location no raw status record has. *)
Definition missed (p : IGroupStatusesParams) : list IFileStatus :=
  match resolveStatuses p with
  | Some rs => filter (fun raw => location p raw ∉ map (location p) (fileStatuses p)) rs
  | None => []
  end.

(** The effective location of the resource a raw status record yields: its
    rename source when it names one, its own location otherwise. *)
Definition effective_location (p : IGroupStatusesParams) (raw : IFileStatus) : Uri :=
  match renameUri_of file_uri (respositoryRoot p) raw with
  | Some renameUri => renameUri
  | None => location p raw
  end.

(** The effective locations of everything one pass of [groupStatuses]
    processes. *)
Definition processed_locations (p : IGroupStatusesParams) : list Uri :=
  map (effective_location p) (fileStatuses p) ++ map (location p) (missed p).

(** The resource the first pass builds for [raw], by the routing
    precedence. *)
Definition first_emit (p : IGroupStatusesParams) (raw : IFileStatus) : result Resource :=
  st ← toStatus (status raw) (truthy (rename raw));
  let mergeStatus := mergeStatus_of (resolveStatuses p) raw in
  Ok (mkResource
        (route_by_precedence st (isMerge (repoStatus p)) mergeStatus
           (includesUri (g_staging (statusGroups p)) (location p raw)))
        (location p raw) st mergeStatus
        (renameUri_of file_uri (respositoryRoot p) raw)).

(** The resource the second pass builds for a resolution record it does
    not skip. *)
Definition second_emit (p : IGroupStatusesParams) (raw : IFileStatus) : Resource :=
  let st := if existsSync (location p raw) then CLEAN else DELETED in
  let mergeStatus := toMergeStatus (status raw) in
  mkResource
    (route_by_precedence st (isMerge (repoStatus p)) mergeStatus
       (includesUri (g_staging (statusGroups p)) (location p raw)))
    (location p raw) st mergeStatus None.

End ReconcilerVocabulary.

(** * Concrete inputs *)

(** A platform instance for repository-relative paths that are already
    normalized: [path.join] then only inserts the separator. *)
Definition posix_file_uri (root p : string) : Uri := "file://" +:+ root +:+ "/" +:+ p.

(** A disk on which, of the files named below, only [c.txt] exists. *)
Definition only_c_exists (u : Uri) : bool := bool_decide (u = "file:///repo/c.txt").

(** A staging group holding [a.txt], as [new StagingGroup([...])] builds it. *)
Definition staged_a : ResourceGroup :=
  mkResourceGroup staging (label_of staging)
    [mkResource staging "file:///repo/a.txt" MODIFIED NONE None]
    (<["file:///repo/a.txt" := true]> ∅).

Definition groups_staged_a : IStatusGroups :=
  mkStatusGroups (empty_group conflict) staged_a (empty_group merge)
                 (empty_group working) (empty_group untracked).

(** Mid-merge: [a.txt] modified and resolved, [n.txt] unknown to hg, and
    [c.txt] clean but unresolved. *)
Definition merge_params : IGroupStatusesParams :=
  mkParams "/repo" groups_staged_a
    [mkFileStatus "M" "a.txt" None; mkFileStatus "?" "n.txt" None]
    (mkRepoStatus true)
    (Some [mkFileStatus "R" "a.txt" None; mkFileStatus "U" "c.txt" None]).

(** After [hg mv a.txt b.txt] with [a.txt] previously staged: hg reports
    [b.txt] added with copy source [a.txt], and [a.txt] removed. *)
Definition rename_params : IGroupStatusesParams :=
  mkParams "/repo" groups_staged_a
    [mkFileStatus "A" "b.txt" (Some "a.txt"); mkFileStatus "R" "a.txt" None]
    (mkRepoStatus false) None.

(** A resolution list naming [c.txt] twice. *)
Definition duplicate_resolve_params : IGroupStatusesParams :=
  mkParams "/repo" createEmptyStatusGroups []
    (mkRepoStatus true)
    (Some [mkFileStatus "U" "c.txt" None; mkFileStatus "R" "c.txt" None]).


(** Resources handed to [stage]/[unstage]: one at the location already
    staged, one renamed elsewhere. *)
Definition working_resources : list Resource :=
  [mkResource working "file:///repo/a.txt" MODIFIED NONE None;
   mkResource working "file:///repo/b.txt" RENAMED NONE (Some "file:///repo/old.txt")].

(** A tracker on which [Status] is running. *)
Definition status_running : OperationsImpl := start new_OperationsImpl Operation.Status.

(** * More of model.ts *)

From Stdlib Require Import Ascii.

(** ** Reading the group snapshot *)

(** [get isClean()]: the untracked group is not looked at. *)
Definition isClean (groups : IStatusGroups) : bool :=
  forallb (fun g => (length (_resources g) =? 0)%nat)
          [g_working groups; g_merge groups; g_conflict groups; g_staging groups].

(** The inner loop of [findTrackedResourceByUri]: the first resource of the
    array whose [resourceUri.toString()] is [uriString]. *)
Fixpoint find_resource (uriString : string) (rs : list Resource) : result (option Resource) :=
  match rs with
  | [] => Ok None
  | resource :: rs' =>
      u ← resourceUri resource;
      if bool_decide (u = uriString) then Ok (Some resource) else find_resource uriString rs'
  end.

(** The outer loop of [findTrackedResourceByUri]. *)
Fixpoint find_in_groups (uriString : string) (groups : list ResourceGroup)
  : result (option Resource) :=
  match groups with
  | [] => Ok None
  | group :: groups' =>
      found ← find_resource uriString (_resources group);
      match found with
      | Some resource => Ok (Some resource)
      | None => find_in_groups uriString groups'
      end
  end.

Definition findTrackedResourceByUri (groups : IStatusGroups) (uri : Uri)
  : result (option Resource) :=
  find_in_groups uri [g_working groups; g_staging groups; g_merge groups; g_conflict groups].

(** ** Staging and unstaging *)

(** Assignments to [this._groups.staging] and [this._groups.working]. *)
Definition set_staging (groups : IStatusGroups) (g : ResourceGroup) : IStatusGroups :=
  mkStatusGroups (g_conflict groups) g (g_merge groups) (g_working groups) (g_untracked groups).

Definition set_working (groups : IStatusGroups) (g : ResourceGroup) : IStatusGroups :=
  mkStatusGroups (g_conflict groups) (g_staging groups) (g_merge groups) g (g_untracked groups).

(** [stage]: [if (resources.length === 0) resources = this._groups.working.resources]. *)
Definition stage_resources (groups : IStatusGroups) (resources : list Resource)
  : list Resource :=
  if (length resources =? 0)%nat then _resources (g_working groups) else resources.

(** [stage]: the two assignments that close its body,
    [staging = staging.intersect(resources)] then
    [working = working.except(resources)], on the groups current at that
    point. The groups are a mutable field: the first component is what the
    field holds afterwards, also when the second assignment throws. *)
Definition stage_recombine (groups : IStatusGroups) (resources : list Resource)
  : IStatusGroups * result unit :=
  match intersect (g_staging groups) resources with
  | Throw e => (groups, Throw e)
  | Ok s =>
      let groups := set_staging groups s in
      match except (g_working groups) resources with
      | Throw e => (groups, Throw e)
      | Ok w => (set_working groups w, Ok tt)
      end
  end.

(** [unstage], whole: it runs outside [run] and touches nothing but the two
    groups. *)
Definition unstage (groups : IStatusGroups) (resources : list Resource)
  : IStatusGroups * result unit :=
  let resources :=
    if (length resources =? 0)%nat then _resources (g_staging groups) else resources in
  match except (g_staging groups) resources with
  | Throw e => (groups, Throw e)
  | Ok s =>
      let groups := set_staging groups s in
      match intersect (g_working groups) resources with
      | Throw e => (groups, Throw e)
      | Ok w => (set_working groups w, Ok tt)
      end
  end.

(** [HgRollbackDetails] (declared in hg.ts), as far as [rollback] reads it:
    [kind] and [commitDetails.affectedFiles]. *)
Record HgRollbackDetails : Type := mkRollbackDetails {
  kind : string;
  commitDetails : option (list IFileStatus)
}.

(** [.filter(r => !!r)] on an array of [Resource | undefined]. *)
Definition defined (found : list (option Resource)) : list Resource :=
  omap (fun r => r) found.

Section Rollback.

Variable file_uri : string -> string -> Uri.

(** [rollback], after the repository call: the arguments of the call
    [this.stage(...)] it makes, or [None] when it makes none. [groups] are
    the groups after the refresh that ends the rollback operation. *)
Definition rollback_restage (root : string) (groups : IStatusGroups) (dryRun : bool)
    (rollback : HgRollbackDetails) (dryRunDetails : option HgRollbackDetails)
  : result (option (list Resource)) :=
  if dryRun then Ok None
  else if negb (bool_decide (kind rollback = "commit")) then Ok None
  else
    match dryRunDetails with
    | Some details =>
        match commitDetails details with
        | Some affectedFiles =>
            if negb (length (_resources (g_staging groups)) =? 0)%nat
               && negb (length affectedFiles =? 0)%nat
            then
              found ← mapR (fun f => findTrackedResourceByUri groups (file_uri root (path f)))
                           affectedFiles;
              Ok (Some (defined found))
            else Ok None
        | None => Ok None
        end
    | None => Ok None
    end.

End Rollback.

(** ** Discarding changes *)

(** The repository calls [clean] ends up making. *)
Inductive CleanCall : Type :=
| CallRevert (paths : list string)
| CallForget (paths : list string).

Section Clean.

(** [relativePath u] is [mapFileUriToRepoRelativePath] of the uri printed
    [u] ([path.relative] against the repository root). *)
Variable relativePath : Uri -> string.

Definition mapResourceToRepoRelativePath (resource : Resource) : result string :=
  u ← resourceUri resource;
  Ok (relativePath u).

(** The [for (let r of resources)] loop of [clean], on the pair
    [(toRevert, toForget)]. *)
Definition clean_step (lists : list string * list string) (r : Resource)
  : result (list string * list string) :=
  match _status r with
  | UNTRACKED | IGNORED => Ok lists
  | ADDED =>
      p ← mapResourceToRepoRelativePath r;
      Ok (fst lists, snd lists ++ [p])
  | _ =>
      p ← mapResourceToRepoRelativePath r;
      Ok (fst lists ++ [p], snd lists)
  end.

Definition clean (resources : list Resource) : result (list CleanCall) :=
  lists ← foldR clean_step ([], []) resources;
  Ok ((if (0 <? length (fst lists))%nat then [CallRevert (fst lists)] else [])
        ++ (if (0 <? length (snd lists))%nat then [CallForget (snd lists)] else [])).

End Clean.

(** ** Time spent in [whenUnlocked] *)

(** The milliseconds a trace spends in [timeout]. *)
Definition total_wait (trace : list LockEvent) : Q :=
  foldr Qplus 0%Q (map double_value (timeouts trace)).

(** ** Blame annotations *)

(** [\w]: ASCII letters, digits and the underscore. *)
Definition is_word_char (c : ascii) : bool :=
  let n := nat_of_ascii c in
  ((48 <=? n) && (n <=? 57) || (65 <=? n) && (n <=? 90)
   || (97 <=? n) && (n <=? 122) || (n =? 95))%nat.

(** The separators of [split(/\n|\r/)]: LF and CR. *)
Definition is_line_break (c : ascii) : bool :=
  ((nat_of_ascii c =? 10) || (nat_of_ascii c =? 13))%nat.

(** What [.] refuses: a line terminator, that is LF, CR, U+2028 or U+2029.
    Strings are byte strings in UTF-8 here, where U+2028 and U+2029 are the
    bytes 226 128 168 and 226 128 169; [dot_refuses s] tells whether [s]
    starts with a line terminator. *)
Definition dot_refuses (s : string) : bool :=
  match s with
  | EmptyString => false
  | String c s' =>
      is_line_break c
      || match s' with
         | String c2 (String c3 _) =>
             (nat_of_ascii c =? 226)%nat && (nat_of_ascii c2 =? 128)%nat
             && ((nat_of_ascii c3 =? 168)%nat || (nat_of_ascii c3 =? 169)%nat)
         | _ => false
         end
  end.

(** [rawBlame.split(/\n|\r/)] *)
Fixpoint split_lines (s : string) : list string :=
  match s with
  | EmptyString => [EmptyString]
  | String c s' =>
      if is_line_break c then EmptyString :: split_lines s'
      else
        match split_lines s' with
        | l :: ls => String c l :: ls
        | [] => [String c EmptyString]
        end
  end.

(** The greedy [\w+]: the longest run of word characters that starts [s],
    and what follows it. A shorter run is followed by a word character, so
    it never helps the [:] that comes next in the pattern. *)
Fixpoint word_run (s : string) : string * string :=
  match s with
  | EmptyString => (EmptyString, EmptyString)
  | String c s' =>
      if is_word_char c then (String c (fst (word_run s')), snd (word_run s'))
      else (EmptyString, s)
  end.

(** One attempt of [/^(.+?)(\w+):/] with [(.+?)] having consumed [user]:
    [user] must be non-empty, then a non-empty run of word characters, then a
    colon. *)
Definition match_here (user s : string) : option (string * string) :=
  match user, fst (word_run s), snd (word_run s) with
  | String _ _, String c hash, String colon _ =>
      if bool_decide (colon = ":"%char) then Some (user, String c hash) else None
  | _, _, _ => None
  end.

(** The lazy [(.+?)]: try with what is consumed, then consume one more
    character that [.] matches and try again. A character of several bytes
    is consumed byte by byte; the attempts in its middle fail, since no byte
    of such a character is a word character. *)
Fixpoint match_from (user s : string) : option (string * string) :=
  match match_here user s with
  | Some m => Some m
  | None =>
      match s with
      | EmptyString => None
      | String c s' =>
          if dot_refuses s then None
          else match_from (user +:+ String c EmptyString) s'
      end
  end.

(** No line terminator starts anywhere in [s]: [.] matches every character
    of [s]. *)
Fixpoint dot_matches_all (s : string) : bool :=
  match s with
  | EmptyString => true
  | String _ s' => negb (dot_refuses s) && dot_matches_all s'
  end.

(** [line.match(/^(.+?)(\w+):/)], as the pair of its two groups. *)
Definition match_line (l : string) : option (string * string) :=
  match_from EmptyString l.

Record BlameLineInfo : Type := mkBlameLineInfo {
  line : nat;
  user : string;
  commitHash : string
}.

(** [Blame.parseRawBlame]: the object it fills, as the list of its entries
    in the order they are written (which is the order of their keys). *)
Definition parseRawBlame (rawBlame : string) : list (nat * BlameLineInfo) :=
  imap (fun index info => (index, mkBlameLineInfo index (fst info) (snd info)))
       (omap match_line (split_lines rawBlame)).

(** [Blame.atLine]: [this.blameData[line]]. *)
Definition atLine (blameData : list (nat * BlameLineInfo)) (n : nat) : option BlameLineInfo :=
  snd <$> List.find (fun entry => (fst entry =? n)%nat) blameData.

(** [Blame.allLines] *)
Definition allLines (blameData : list (nat * BlameLineInfo)) : list BlameLineInfo :=
  map snd blameData.

(** ** Decorations *)

Inductive Theme : Type := light | dark.

(** The keys of the tables [Resource.Icons.light] and [Resource.Icons.dark]. *)
Inductive IconKey : Type :=
| Modified | Missing | Added | Deleted | Renamed | Copied
| Untracked | Ignored | Conflict | Clean.

#[global] Instance IconKey_eq_dec : EqDecision IconKey.
Proof. solve_decision. Defined.

(** [getIconPath(theme)], as the key of the entry of [Resource.Icons[theme]]
    it returns. *)
Definition getIconPath (r : Resource) (theme : Theme) : option IconKey :=
  if bool_decide (_mergeStatus r = UNRESOLVED)
     && negb (bool_decide (_status r = MISSING))
     && negb (bool_decide (_status r = DELETED))
  then Some Conflict
  else
    match _status r with
    | MISSING => Some Missing
    | MODIFIED => Some Modified
    | ADDED => Some Added
    | DELETED => Some Deleted
    | RENAMED => Some Renamed
    | UNTRACKED => Some Untracked
    | IGNORED => Some Ignored
    | CLEAN => Some Clean
    end.

Definition strikeThrough (r : Resource) : bool :=
  match _status r with
  | DELETED => true
  | _ => false
  end.

(** ** Heads and bookmarks *)

(** [Commit] (declared in hg.ts), as far as the two functions below read
    it. *)
Record Commit : Type := mkCommit {
  hash : string;
  bookmarks : list string
}.

(** [getHashesOfNonDistinctBookmarkHeads], after the repository call that
    returns [allHeads]. *)
Definition getHashesOfNonDistinctBookmarkHeads (allHeads : list Commit) : list string :=
  let headsWithoutBookmarks :=
    filter (fun h => length (bookmarks h) = 0%nat) allHeads in
  if (1 <? length headsWithoutBookmarks)%nat then map hash headsWithoutBookmarks else [].

(** [getBookmarkNamesFromHeads], after the repository call that returns
    [allHeads]. *)
Definition getBookmarkNamesFromHeads (allHeads : list Commit) : list string :=
  let headsWithBookmarks :=
    filter (fun h => (0 < length (bookmarks h))%nat) allHeads in
  foldl (fun prev curr => prev ++ bookmarks curr) [] headsWithBookmarks.

(** ** Committing *)

Inductive CommitScope : Type := ALL | ALL_WITH_ADD_REMOVE | STAGED_CHANGES | CHANGES.

#[global] Instance CommitScope_eq_dec : EqDecision CommitScope.
Proof. solve_decision. Defined.

Section Commit.

Variable relativePath : Uri -> string.

(** The body of [commit]: the [addRemove] flag and the [fileList] it hands
    to [repository.commit], for the groups current at that point. [scope] is
    [opts.scope], undefined when no options are given. *)
Definition commit (groups : IStatusGroups) (scope : option CommitScope)
  : result (bool * list string) :=
  fileList ←
    (if bool_decide (scope = Some CHANGES) || bool_decide (scope = Some STAGED_CHANGES)
     then
       let selectedResources :=
         if bool_decide (scope = Some STAGED_CHANGES)
         then _resources (g_staging groups)
         else _resources (g_working groups) in
       mapR (mapResourceToRepoRelativePath relativePath) selectedResources
     else Ok []);
  Ok (bool_decide (scope = Some ALL_WITH_ADD_REMOVE), fileList).

End Commit.

(** * More concrete inputs *)

(** Three lines of [hg annotate -u -c], the second of which is empty. *)
Definition blame_output : string :=
  "bob 1a2b: x = 1" +:+ String "010" (String "010" "amy 3c4d: y = 2").

(** Heads: two without a bookmark, one carrying two. *)
Definition three_heads : list Commit :=
  [mkCommit "aaa" []; mkCommit "bbb" ["stable"; "next"]; mkCommit "ccc" []].

(** Groups with [a.txt] in working and nothing else. *)
Definition working_a : ResourceGroup :=
  mkResourceGroup working (label_of working)
    [mkResource working "file:///repo/a.txt" MODIFIED NONE None]
    (<["file:///repo/a.txt" := true]> ∅).

Definition groups_working_a : IStatusGroups :=
  mkStatusGroups (empty_group conflict) (empty_group staging) (empty_group merge)
                 working_a (empty_group untracked).

(** A path relative to [/repo] for the locations [posix_file_uri] prints. *)
Definition posix_relativePath (u : Uri) : string :=
  String.substring 13 (String.length u - 13) u.

(** A deleted resource that names a rename source: its [resourceUri]
    throws. *)
Definition erroring_resources : list Resource :=
  [mkResource working "file:///repo/a.txt" DELETED NONE (Some "file:///repo/old.txt")].

(** The groups [stage] leaves when [a.txt] is staged from
    [groups_working_a]. *)
Definition groups_after_stage : IStatusGroups :=
  fst (stage_recombine groups_working_a (_resources working_a)).

(** The refresh that ends that [stage]: hg still reports [a.txt] as
    modified. *)
Definition refresh_after_stage_params : IGroupStatusesParams :=
  mkParams "/repo" groups_after_stage [mkFileStatus "M" "a.txt" None]
           (mkRepoStatus false) None.

(** The details of a rolled back commit that touched [a.txt]. *)
Definition rollback_of_a : HgRollbackDetails :=
  mkRollbackDetails "commit" (Some [mkFileStatus "M" "a.txt" None]).

(** A lock file that is there for the first three queries. *)
Definition locked_thrice (k : nat) : bool := (k <? 3)%nat.

(** * The object graph: which group owns a resource

    A [Resource] keeps a reference to a [ResourceGroup] object, and a group
    an array of resources. The definitions above keep, of the group a
    resource references, its identifier. [Objects] gives [Resource],
    [ResourceGroup], [intersect], [except] and [groupStatuses] once more, with
    the referenced group itself in the resource: every object is built from
    objects that exist already and is never changed, so the objects
    reachable from a value form a tree, and two references are to the same
    object only if the values are equal. *)

Module Objects.

Inductive Resource : Type := mkResource {
  _resourceGroup : ResourceGroup;
  _resourceUri : Uri;
  _status : Status;
  _mergeStatus : MergeStatus;
  _renameResourceUri : option Uri
}
with ResourceGroup : Type := mkResourceGroup {
  _id : ResourceGroupId;
  _label : string;
  _resources : list Resource;
  _resourceUriIndex : gmap string bool
}.

Definition original (r : Resource) : Uri := _resourceUri r.
Definition renameResourceUri (r : Resource) : option Uri := _renameResourceUri r.

(** [get resourceUri()] *)
Definition resourceUri (r : Resource) : result Uri :=
  match renameResourceUri r with
  | Some renameUri =>
      if decide (_status r = MODIFIED \/ _status r = RENAMED \/ _status r = ADDED)
      then Ok renameUri
      else Throw (Error ("Renamed resource with unexpected status: "
                           +:+ Status_toString (_status r)))
  | None => Ok (_resourceUri r)
  end.

(** [ResourceGroup.indexResources] *)
Definition indexResources (resources : list Resource) : result (gmap string bool) :=
  foldR (fun index r => u ← resourceUri r; Ok (<[u := true]> index)) ∅ resources.

(** [new MergeGroup(resources)], [new ConflictGroup(resources)], ... *)
Definition new_ResourceGroup (id : ResourceGroupId) (resources : list Resource)
  : result ResourceGroup :=
  index ← indexResources resources;
  Ok (mkResourceGroup id (label_of id) resources index).

Definition includesUri (this : ResourceGroup) (uri : Uri) : bool :=
  bool_decide (is_Some (_resourceUriIndex this !! uri)).

Definition includes (this : ResourceGroup) (resource : Resource) : result bool :=
  u ← resourceUri resource;
  Ok (includesUri this u).

(** [newResourceGroup]: the constructor of the receiver's own subclass. *)
Definition newResourceGroup (this : ResourceGroup) (resources : list Resource)
  : result ResourceGroup :=
  new_ResourceGroup (_id this) resources.

(** [intersect]: [new Resource(this, r.resourceUri, r.status, r.mergeStatus)]
    references the receiver. *)
Definition intersect (this : ResourceGroup) (resources : list Resource)
  : result ResourceGroup :=
  kept ← filterM (fun r => b ← includes this r; Ok (negb b)) resources;
  newUniqueResources ←
    mapR (fun r => u ← resourceUri r;
                   Ok (mkResource this u (_status r) (_mergeStatus r) None))
         kept;
  newResourceGroup this (_resources this ++ newUniqueResources).

Definition except (this : ResourceGroup) (resources : list Resource)
  : result ResourceGroup :=
  excludeIndex ← indexResources resources;
  remainingResources ←
    filterM (fun r => u ← resourceUri r;
                      Ok (negb (bool_decide (is_Some (excludeIndex !! u)))))
            (_resources this);
  newResourceGroup this remainingResources.

Record IStatusGroups : Type := mkStatusGroups {
  g_conflict : ResourceGroup;
  g_staging : ResourceGroup;
  g_merge : ResourceGroup;
  g_working : ResourceGroup;
  g_untracked : ResourceGroup
}.

(** [new ConflictGroup()], ...: a group without resources. *)
Definition empty_group (id : ResourceGroupId) : ResourceGroup :=
  mkResourceGroup id (label_of id) [] ∅.

Definition createEmptyStatusGroups : IStatusGroups :=
  mkStatusGroups (empty_group conflict) (empty_group staging) (empty_group merge)
                 (empty_group working) (empty_group untracked).

Definition group_of (gs : IStatusGroups) (id : ResourceGroupId) : ResourceGroup :=
  match id with
  | conflict => g_conflict gs
  | staging => g_staging gs
  | merge => g_merge gs
  | working => g_working gs
  | untracked => g_untracked gs
  end.

(** [Array.prototype.some] over resources, comparing [resourceUri.toString()]. *)
Fixpoint some_resourceUri (uriString : string) (rs : list Resource) : result bool :=
  match rs with
  | [] => Ok false
  | resource :: rs' =>
      u ← resourceUri resource;
      if bool_decide (u = uriString) then Ok true else some_resourceUri uriString rs'
  end.

(** The closure [chooseResourcesAndGroup]: the accumulator array, named by
    the identifier of its group, the previous group object paired with it,
    and the status. *)
Definition chooseResourcesAndGroup (statusGroups : IStatusGroups) (repoStatus : IRepoStatus)
    (uriString rawStatus : string) (mergeStatus : MergeStatus) (renamed : bool)
  : result (ResourceGroupId * ResourceGroup * Status) :=
  status ← toStatus rawStatus renamed;
  if decide (status = IGNORED \/ status = UNTRACKED)
  then Ok (untracked, g_untracked statusGroups, status)
  else if isMerge repoStatus then
    if decide (mergeStatus = UNRESOLVED) then Ok (conflict, g_conflict statusGroups, status)
    else Ok (merge, g_merge statusGroups, status)
  else
    isStaged ← some_resourceUri uriString (_resources (g_staging statusGroups));
    Ok (if isStaged : bool then staging else working,
        if isStaged : bool then g_staging statusGroups else g_working statusGroups,
        status).

(** The five accumulator arrays of [groupStatuses]. *)
Record Buckets : Type := mkBuckets {
  workingDirectoryResources : list Resource;
  stagingResources : list Resource;
  conflictResources : list Resource;
  mergeResources : list Resource;
  untrackedResources : list Resource
}.

Definition emptyBuckets : Buckets := mkBuckets [] [] [] [] [].

Definition bucket (b : Buckets) (id : ResourceGroupId) : list Resource :=
  match id with
  | conflict => conflictResources b
  | staging => stagingResources b
  | merge => mergeResources b
  | working => workingDirectoryResources b
  | untracked => untrackedResources b
  end.

(** [resources.push(r)] on the chosen accumulator. *)
Definition push (b : Buckets) (target : ResourceGroupId) (r : Resource) : Buckets :=
  match target with
  | conflict =>
      mkBuckets (workingDirectoryResources b) (stagingResources b)
                (conflictResources b ++ [r]) (mergeResources b) (untrackedResources b)
  | staging =>
      mkBuckets (workingDirectoryResources b) (stagingResources b ++ [r])
                (conflictResources b) (mergeResources b) (untrackedResources b)
  | merge =>
      mkBuckets (workingDirectoryResources b) (stagingResources b)
                (conflictResources b) (mergeResources b ++ [r]) (untrackedResources b)
  | working =>
      mkBuckets (workingDirectoryResources b ++ [r]) (stagingResources b)
                (conflictResources b) (mergeResources b) (untrackedResources b)
  | untracked =>
      mkBuckets (workingDirectoryResources b) (stagingResources b)
                (conflictResources b) (mergeResources b) (untrackedResources b ++ [r])
  end.

Record IGroupStatusesParams : Type := mkParams {
  respositoryRoot : string;
  statusGroups : IStatusGroups;
  fileStatuses : list IFileStatus;
  repoStatus : IRepoStatus;
  resolveStatuses : option (list IFileStatus)
}.

Section Reconciler.

(** [file_uri root p] is [Uri.file(path.join(root, p)).toString()]. *)
Variable file_uri : string -> string -> Uri.
(** [existsSync u] is [fs.existsSync(uri.fsPath)] for the uri printed [u]. *)
Variable existsSync : Uri -> bool.

(** Body of [for (const raw of fileStatuses)]:
    [resources.push(new Resource(group, uri, status, mergeStatus, renameUri))]
    with the previous group [group]. *)
Definition firstPass (p : IGroupStatusesParams)
    (st : Buckets * gmap string bool) (raw : IFileStatus)
  : result (Buckets * gmap string bool) :=
  let uri := file_uri (respositoryRoot p) (path raw) in
  let uriString := uri in
  let seenUriStrings := <[uriString := true]> (snd st) in
  let renameUri := renameUri_of file_uri (respositoryRoot p) raw in
  let mergeStatus := mergeStatus_of (resolveStatuses p) raw in
  choice ← chooseResourcesAndGroup (statusGroups p) (repoStatus p)
             uriString (status raw) mergeStatus (truthy (rename raw));
  let '(resources, group, status) := choice in
  Ok (push (fst st) resources (mkResource group uri status mergeStatus renameUri),
      seenUriStrings).

(** Body of [for (const raw of resolveStatuses)]. *)
Definition secondPass (p : IGroupStatusesParams) (seenUriStrings : gmap string bool)
    (b : Buckets) (raw : IFileStatus) : result Buckets :=
  let uri := file_uri (respositoryRoot p) (path raw) in
  let uriString := uri in
  if bool_decide (is_Some (seenUriStrings !! uriString)) then Ok b
  else
    let mergeStatus := toMergeStatus (status raw) in
    let inferredStatus := if existsSync uri then "C" else "R" in
    choice ← chooseResourcesAndGroup (statusGroups p) (repoStatus p)
               uriString inferredStatus mergeStatus (truthy (rename raw));
    let '(resources, group, status) := choice in
    Ok (push b resources (mkResource group uri status mergeStatus None)).

Definition groupStatuses (p : IGroupStatusesParams) : result IStatusGroups :=
  st ← foldR (firstPass p) (emptyBuckets, ∅) (fileStatuses p);
  b ← match resolveStatuses p with
      | Some rs => foldR (secondPass p (snd st)) (fst st) rs
      | None => Ok (fst st)
      end;
  c ← new_ResourceGroup conflict (conflictResources b);
  m ← new_ResourceGroup merge (mergeResources b);
  s ← new_ResourceGroup staging (stagingResources b);
  w ← new_ResourceGroup working (workingDirectoryResources b);
  u ← new_ResourceGroup untracked (untrackedResources b);
  Ok (mkStatusGroups c s m w u).

End Reconciler.

(** The location [resourceUri] returns when it returns at all. *)
Definition effective (r : Resource) : Uri :=
  match renameResourceUri r with
  | Some renameUri => renameUri
  | None => _resourceUri r
  end.

(** A group value is [constructed] when it is what its constructor returns
    for its own resources. *)
Definition constructed (G : ResourceGroup) : Prop :=
  new_ResourceGroup (_id G) (_resources G) = Ok G.

(** Each field of an [IStatusGroups] holds a group of its own class:
    [conflict: ConflictGroup], [staging: StagingGroup], ... *)
Definition typed (gs : IStatusGroups) : Prop :=
  forall id, _id (group_of gs id) = id.

(** All the resources of a partition, group after group. *)
Definition all_resources (gs : IStatusGroups) : list Resource :=
  _resources (g_conflict gs) ++ _resources (g_merge gs) ++ _resources (g_staging gs)
    ++ _resources (g_working gs) ++ _resources (g_untracked gs).

End Objects.

(** ** Forgetting the owner objects *)

(** Reading of the group a resource references its identifier only gives
    the resources and groups of the definitions above. *)
Definition erase_resource (r : Objects.Resource) : Resource :=
  mkResource (Objects._id (Objects._resourceGroup r)) (Objects._resourceUri r)
             (Objects._status r) (Objects._mergeStatus r) (Objects._renameResourceUri r).

Definition erase_group (G : Objects.ResourceGroup) : ResourceGroup :=
  mkResourceGroup (Objects._id G) (Objects._label G)
                  (map erase_resource (Objects._resources G))
                  (Objects._resourceUriIndex G).

Definition erase_groups (gs : Objects.IStatusGroups) : IStatusGroups :=
  mkStatusGroups (erase_group (Objects.g_conflict gs)) (erase_group (Objects.g_staging gs))
                 (erase_group (Objects.g_merge gs)) (erase_group (Objects.g_working gs))
                 (erase_group (Objects.g_untracked gs)).

Definition erase_params (p : Objects.IGroupStatusesParams) : IGroupStatusesParams :=
  mkParams (Objects.respositoryRoot p) (erase_groups (Objects.statusGroups p))
           (Objects.fileStatuses p) (Objects.repoStatus p) (Objects.resolveStatuses p).

Definition erase_buckets (b : Objects.Buckets) : Buckets :=
  mkBuckets (map erase_resource (Objects.workingDirectoryResources b))
            (map erase_resource (Objects.stagingResources b))
            (map erase_resource (Objects.conflictResources b))
            (map erase_resource (Objects.mergeResources b))
            (map erase_resource (Objects.untrackedResources b)).

(** The resources of each accumulator reference the previous group that
    goes with it. *)
Definition accumulated (p : Objects.IGroupStatusesParams) (b : Objects.Buckets) : Prop :=
  forall id r, r ∈ Objects.bucket b id ->
               Objects._resourceGroup r = Objects.group_of (Objects.statusGroups p) id.

(** ** Concrete object graphs *)

(** The staging group holding [a.txt]; the resource references the empty
    staging group of the pass that built it. *)
Definition staged_a_object : Objects.ResourceGroup :=
  Objects.mkResourceGroup staging (label_of staging)
    [Objects.mkResource (Objects.empty_group staging) "file:///repo/a.txt" MODIFIED NONE None]
    (<["file:///repo/a.txt" := true]> ∅).

(** Resources of the working group handed to [stage]: one at the location
    already staged, one renamed elsewhere. *)
Definition working_resource_objects : list Objects.Resource :=
  [Objects.mkResource (Objects.empty_group working) "file:///repo/a.txt" MODIFIED NONE None;
   Objects.mkResource (Objects.empty_group working) "file:///repo/b.txt" RENAMED NONE
                      (Some "file:///repo/old.txt")].

Definition object_groups_staged_a : Objects.IStatusGroups :=
  Objects.mkStatusGroups (Objects.empty_group conflict) staged_a_object
                         (Objects.empty_group merge) (Objects.empty_group working)
                         (Objects.empty_group untracked).

(** The inputs [merge_params], [rename_params] and
    [duplicate_resolve_params] with their previous groups as objects. *)
Definition merge_params_objects : Objects.IGroupStatusesParams :=
  Objects.mkParams "/repo" object_groups_staged_a
    [mkFileStatus "M" "a.txt" None; mkFileStatus "?" "n.txt" None]
    (mkRepoStatus true)
    (Some [mkFileStatus "R" "a.txt" None; mkFileStatus "U" "c.txt" None]).

Definition rename_params_objects : Objects.IGroupStatusesParams :=
  Objects.mkParams "/repo" object_groups_staged_a
    [mkFileStatus "A" "b.txt" (Some "a.txt"); mkFileStatus "R" "a.txt" None]
    (mkRepoStatus false) None.

Definition duplicate_resolve_params_objects : Objects.IGroupStatusesParams :=
  Objects.mkParams "/repo" Objects.createEmptyStatusGroups []
    (mkRepoStatus true)
    (Some [mkFileStatus "U" "c.txt" None; mkFileStatus "R" "c.txt" None]).

(** * Proofs *)

(** ** Reasoning about the [result] monad and the array combinators *)

Lemma bind_Ok {A B} (m : result A) (f : A -> result B) (b : B) :
  m ≫= f = Ok b -> exists a, m = Ok a /\ f a = Ok b.
Proof. destruct m as [a|e]; simpl; [eauto | discriminate]. Qed.

Ltac inv_bind H :=
  let a := fresh "a" in
  let Ha := fresh "Ha" in
  apply bind_Ok in H; destruct H as (a & Ha & H).

Tactic Notation "ok_bind" hyp(H) "as" ident(a) ident(Ha) :=
  apply bind_Ok in H; destruct H as (a & Ha & H).

Lemma filterM_pure {A} (p : A -> result bool) (P : A -> Prop)
    `{!forall x, Decision (P x)} (l : list A) :
  Forall (fun x => p x = Ok (bool_decide (P x))) l ->
  filterM p l = Ok (filter P l).
Proof.
  induction 1 as [|x l Hx _ IH]; [done|].
  rewrite filter_cons. cbn [filterM]. rewrite Hx, IH. cbn.
  by destruct (decide (P x)); [rewrite bool_decide_true | rewrite bool_decide_false].
Qed.

Lemma mapR_pure {A B} (f : A -> result B) (g : A -> B) (l : list A) :
  Forall (fun x => f x = Ok (g x)) l -> mapR f l = Ok (map g l).
Proof.
  induction 1 as [|x l Hx _ IH]; [done|].
  cbn [mapR]. by rewrite Hx, IH.
Qed.

Lemma Forall_filter {A} (Q P : A -> Prop) `{!forall x, Decision (P x)} (l : list A) :
  Forall Q l -> Forall Q (filter P l).
Proof.
  rewrite !Forall_forall. intros HQ x [_ Hx]%list_elem_of_filter. by apply HQ.
Qed.

Lemma foldR_app {A S} (body : S -> A -> result S) (s : S) (l1 l2 : list A) :
  foldR body s (l1 ++ l2) = foldR body s l1 ≫= fun s' => foldR body s' l2.
Proof.
  revert s. induction l1 as [|x l1 IH]; intros s; [done|].
  cbn [foldR app]. destruct (body s x) as [s'|e]; simpl; [apply IH | done].
Qed.

(** ** Effective locations and valid resources *)

Lemma resourceUri_valid r : valid r -> resourceUri r = Ok (effective r).
Proof.
  unfold valid, resourceUri, effective. destruct (renameResourceUri r); [|done].
  intros H. by rewrite decide_True.
Qed.

Lemma resourceUri_Ok r u : resourceUri r = Ok u -> valid r /\ u = effective r.
Proof.
  unfold valid, resourceUri, effective. destruct (renameResourceUri r).
  - case_decide; [|discriminate]. intros [= <-]. done.
  - intros [= <-]. done.
Qed.

Lemma resourceUri_invalid r :
  ~ valid r ->
  resourceUri r = Throw (Error ("Renamed resource with unexpected status: "
                                  +:+ Status_toString (_status r))).
Proof.
  unfold valid, resourceUri. destruct (renameResourceUri r); [|done].
  intros H. by rewrite decide_False.
Qed.

(** The index built by the constructor holds exactly the effective locations. *)
Lemma index_fold_valid (rs : list Resource) (idx0 : gmap string bool) :
  Forall valid rs ->
  exists idx,
    foldR (fun index r => u ← resourceUri r; Ok (<[u := true]> index)) idx0 rs = Ok idx
    /\ forall u, is_Some (idx !! u) <-> is_Some (idx0 !! u) \/ u ∈ map effective rs.
Proof.
  intros Hv. revert idx0. induction Hv as [|r rs Hr _ IH]; intros idx0.
  - exists idx0. split; [done|]. intros u. cbn. rewrite elem_of_nil. tauto.
  - cbn [foldR]. rewrite (resourceUri_valid r Hr). cbn.
    destruct (IH (<[effective r := true]> idx0)) as (idx & -> & Hidx).
    exists idx. split; [done|]. intros u. rewrite Hidx. cbn [map].
    rewrite elem_of_cons, lookup_insert_is_Some'.
    split; [intros [[->|?]|?] | intros [?|[->|?]]]; auto.
Qed.

Lemma index_fold_inv (rs : list Resource) (idx0 idx : gmap string bool) :
  foldR (fun index r => u ← resourceUri r; Ok (<[u := true]> index)) idx0 rs = Ok idx ->
  Forall valid rs.
Proof.
  revert idx0. induction rs as [|r rs IH]; intros idx0 H; [constructor|].
  cbn [foldR] in H. inv_bind H. inv_bind Ha.
  apply resourceUri_Ok in Ha0 as [Hv _]. constructor; eauto.
Qed.

Lemma indexResources_valid rs :
  Forall valid rs ->
  exists idx, indexResources rs = Ok idx
    /\ forall u, is_Some (idx !! u) <-> u ∈ map effective rs.
Proof.
  intros Hv. destruct (index_fold_valid rs ∅ Hv) as (idx & H & Hidx).
  exists idx. split; [done|]. intros u. rewrite Hidx, lookup_empty.
  split; [intros [[? [=]]|]; done | auto].
Qed.

Lemma new_ResourceGroup_valid id rs :
  Forall valid rs ->
  exists G, new_ResourceGroup id rs = Ok G /\ _id G = id /\ _resources G = rs
    /\ forall u, includesUri G u = true <-> u ∈ map effective rs.
Proof.
  intros Hv. destruct (indexResources_valid rs Hv) as (idx & H & Hidx).
  unfold new_ResourceGroup. rewrite H. cbn. eexists. split; [done|].
  split; [done|]. split; [done|]. intros u.
  unfold includesUri. cbn. rewrite bool_decide_eq_true. apply Hidx.
Qed.

Lemma new_ResourceGroup_Ok id rs G :
  new_ResourceGroup id rs = Ok G ->
  Forall valid rs /\ _id G = id /\ _resources G = rs /\ constructed G
  /\ forall u, includesUri G u = true <-> u ∈ map effective rs.
Proof.
  intros H. pose proof H as H0. unfold new_ResourceGroup in H. inv_bind H.
  pose proof (index_fold_inv _ _ _ Ha) as Hv.
  destruct (new_ResourceGroup_valid id rs Hv) as (G' & HG' & ? & ? & ?).
  assert (G' = G) as -> by congruence.
  split; [done|]. split; [done|]. split; [done|]. 
  split; [unfold constructed; congruence | done].
Qed.

Lemma constructed_valid G : constructed G -> Forall valid (_resources G).
Proof. intros H. by apply new_ResourceGroup_Ok in H as (? & _). Qed.

Lemma constructed_includesUri G u :
  constructed G -> includesUri G u = true <-> u ∈ map effective (_resources G).
Proof. intros H. apply new_ResourceGroup_Ok in H as (_ & _ & _ & _ & H). apply H. Qed.

(** ** Resources and resource groups *)

Lemma valid_is_Ok r : valid r <-> is_Ok (resourceUri r).
Proof.
  split.
  - intros H. eexists. by apply resourceUri_valid.
  - intros [u H]. by apply resourceUri_Ok in H as [? _].
Qed.

Lemma Forall_valid_is_Ok L :
  Forall (fun r => is_Ok (resourceUri r)) L <-> Forall valid L.
Proof. apply Forall_proper; [|done]. intros r. symmetry. apply valid_is_Ok. Qed.

Lemma includes_valid G r :
  valid r -> includes G r = Ok (includesUri G (effective r)).
Proof. intros H. unfold includes. by rewrite (resourceUri_valid r H). Qed.

Lemma rehomed_valid G r : valid (rehomed G r).
Proof. done. Qed.

Lemma rehomed_effective G r : effective (rehomed G r) = effective r.
Proof. done. Qed.

Lemma elem_of_map_effective (r : Resource) (rs : list Resource) :
  r ∈ rs -> effective r ∈ map effective rs.
Proof. intros H. apply list_elem_of_fmap. eauto. Qed.

(** What [except] returns on valid inputs. *)
Lemma except_valid G L :
  constructed G -> Forall valid L ->
  exists E, except G L = Ok E
    /\ _id E = _id G
    /\ _resources E = filter (fun r => effective r ∉ map effective L) (_resources G)
    /\ forall u, includesUri E u = true <-> u ∈ map effective (_resources E).
Proof.
  intros HG HL. unfold except.
  destruct (indexResources_valid L HL) as (ex & -> & Hex). cbn.
  erewrite (filterM_pure _ (fun r => effective r ∉ map effective L)); cycle 1.
  { eapply Forall_impl; [apply (constructed_valid G HG)|].
    intros r Hr. cbn. rewrite (resourceUri_valid r Hr). cbn. f_equal.
    rewrite <- bool_decide_not. apply bool_decide_ext. by rewrite Hex. }
  cbn. unfold newResourceGroup.
  destruct (new_ResourceGroup_valid (_id G)
              (filter (fun r => effective r ∉ map effective L) (_resources G)))
    as (E & -> & Hid & Hrs & Hin).
  { apply Forall_filter. by apply constructed_valid. }
  exists E. rewrite Hrs. done.
Qed.

(** What [intersect] returns on valid inputs. *)
Lemma intersect_valid G L :
  constructed G -> Forall valid L ->
  exists I, intersect G L = Ok I
    /\ _id I = _id G
    /\ _resources I =
         _resources G
           ++ map (rehomed G) (filter (fun r => includes G r = Ok false) L)
    /\ forall u, includesUri I u = true <-> u ∈ map effective (_resources I).
Proof.
  intros HG HL. unfold intersect.
  erewrite (filterM_pure _ (fun r => includes G r = Ok false)); cycle 1.
  { eapply Forall_impl; [apply HL|]. intros r Hr. cbn.
    rewrite (includes_valid G r Hr). cbn. f_equal.
    destruct (includesUri G (effective r)); cbn;
      [by rewrite bool_decide_false | by rewrite bool_decide_true]. }
  cbn. erewrite (mapR_pure _ (rehomed G)); cycle 1.
  { apply Forall_filter. eapply Forall_impl; [apply HL|].
    intros r Hr. cbn. by rewrite (resourceUri_valid r Hr). }
  cbn. unfold newResourceGroup.
  destruct (new_ResourceGroup_valid (_id G)
              (_resources G ++ map (rehomed G) (filter (fun r => includes G r = Ok false) L)))
    as (I & -> & Hid & Hrs & Hin).
  { apply Forall_app. split; [by apply constructed_valid|].
    apply Forall_forall. intros r [r0 [-> _]]%list_elem_of_fmap. apply rehomed_valid. }
  exists I. rewrite Hrs. done.
Qed.

(** C8. Rename resolution. With a rename source set, [resourceUri] returns
    it exactly when the status is MODIFIED, RENAMED or ADDED, and throws an
    [Error] under every other status; without one it returns the resource's
    own location. *)
Theorem resourceUri_rename_resolution (r : Resource) :
  match _renameResourceUri r with
  | Some renameUri =>
      (resourceUri r = Ok renameUri <-> MRA (_status r))
      /\ ((exists message, resourceUri r = Throw (Error message)) <-> ~ MRA (_status r))
  | None => resourceUri r = Ok (_resourceUri r)
  end.
Proof.
  unfold resourceUri, renameResourceUri, MRA.
  destruct (_renameResourceUri r) as [renameUri|]; [|done].
  case_decide as H; split; split; try done.
  - intros [message [=]].
  - intros _. eauto.
Qed.

(** ** The reconciler *)

Lemma toStatus_unknown (c : string) (renamed : bool) :
  c ∉ known_codes -> toStatus c renamed = Throw (HgError ("Unknown rawStatus: " +:+ c)).
Proof.
  unfold known_codes, toStatus. intros H.
  repeat (apply not_elem_of_cons in H as [? H]).
  by repeat (case_decide; [done|]).
Qed.

Lemma toStatus_known (c : string) (renamed : bool) :
  c ∈ known_codes -> is_Ok (toStatus c renamed).
Proof.
  unfold known_codes. intros H.
  repeat (apply elem_of_cons in H as [->|H]; [by eexists|]).
  by apply elem_of_nil in H.
Qed.

Lemma toStatus_HgError (c : string) (renamed : bool) e :
  toStatus c renamed = Throw e ->
  (c ∉ known_codes) /\ e = HgError ("Unknown rawStatus: " +:+ c).
Proof.
  intros H. destruct (decide (c ∈ known_codes)) as [Hin|Hout].
  - destruct (toStatus_known c renamed Hin) as [st Hst]. congruence.
  - rewrite (toStatus_unknown c renamed Hout) in H. by injection H as <-.
Qed.

Lemma some_resourceUri_valid (u : string) (rs : list Resource) :
  Forall valid rs ->
  some_resourceUri u rs = Ok (bool_decide (u ∈ map effective rs)).
Proof.
  induction 1 as [|r rs Hr _ IH]; [done|].
  cbn [some_resourceUri]. rewrite (resourceUri_valid r Hr). cbn.
  destruct (decide (effective r = u)) as [<-|Hne].
  - rewrite bool_decide_true by done. f_equal. symmetry.
    apply bool_decide_eq_true. apply elem_of_cons. by left.
  - rewrite bool_decide_false by done. rewrite IH. f_equal.
    apply bool_decide_ext. rewrite elem_of_cons.
    split; [auto | intros [?|?]; [congruence | done]].
Qed.

(** On a constructed previous staging group the closure never fails past the
    status switch, and its choice is the routing precedence. *)
Lemma chooseResourcesAndGroup_route gs repo (u c : string) ms (renamed : bool) :
  constructed (g_staging gs) ->
  chooseResourcesAndGroup gs repo u c ms renamed =
    (st ← toStatus c renamed;
     Ok (route_by_precedence st (isMerge repo) ms (includesUri (g_staging gs) u), st)).
Proof.
  intros Hs. unfold chooseResourcesAndGroup.
  destruct (toStatus c renamed) as [st|e]; [cbn|done].
  case_decide as Hst.
  { by destruct Hst as [-> | ->]. }
  destruct (isMerge repo).
  { case_decide as Hms; [subst ms|]; destruct st; try done; try (exfalso; tauto);
      by destruct ms. }
  rewrite (some_resourceUri_valid u _ (constructed_valid _ Hs)). cbn.
  assert (bool_decide (u ∈ map effective (_resources (g_staging gs)))
          = includesUri (g_staging gs) u) as ->.
  { destruct (includesUri (g_staging gs) u) eqn:Hinc.
    - apply bool_decide_eq_true. by apply constructed_includesUri.
    - apply bool_decide_eq_false. intros Hin.
      apply (constructed_includesUri _ _ Hs) in Hin. congruence. }
  destruct st; try done; exfalso; tauto.
Qed.

Lemma bucket_push b t r id :
  bucket (push b t r) id = bucket b id ++ (if decide (t = id) then [r] else []).
Proof. destruct t, id; cbn; by rewrite ?app_nil_r. Qed.

Lemma bucket_pushAll rs b id :
  bucket (pushAll b rs) id = bucket b id ++ owned_by id rs.
Proof.
  unfold pushAll, owned_by. revert b. induction rs as [|r rs IH]; intros b; cbn [foldl].
  - by rewrite app_nil_r.
  - rewrite IH, bucket_push, filter_cons. 
    case_decide; by rewrite <- ?app_assoc, ?app_nil_r.
Qed.

Lemma mapR_Ok_Forall2 {A B} (f : A -> result B) (l : list A) (rs : list B) :
  mapR f l = Ok rs -> Forall2 (fun x y => f x = Ok y) l rs.
Proof.
  revert rs. induction l as [|x l IH]; intros rs H; cbn [mapR] in H.
  - injection H as <-. constructor.
  - inv_bind H. inv_bind H. injection H as <-. constructor; auto.
Qed.

Lemma NoDup_map_inj {A B} (f : A -> B) (l : list A) (x y : A) :
  NoDup (map f l) -> x ∈ l -> y ∈ l -> f x = f y -> x = y.
Proof.
  induction l as [|a l IH]; cbn [map]; intros Hnd Hx Hy Hf.
  - by apply elem_of_nil in Hx.
  - apply NoDup_cons in Hnd as [Hna Hnd].
    apply elem_of_cons in Hx as [->|Hx]; apply elem_of_cons in Hy as [->|Hy]; auto.
    + exfalso. apply Hna. rewrite Hf. apply list_elem_of_fmap. eauto.
    + exfalso. apply Hna. rewrite <- Hf. apply list_elem_of_fmap. eauto.
Qed.

(** Splitting a list of resources by owner loses and duplicates nothing. *)
Lemma owned_by_partition (rs : list Resource) :
  owned_by conflict rs ++ owned_by merge rs ++ owned_by staging rs
    ++ owned_by working rs ++ owned_by untracked rs ≡ₚ rs.
Proof.
  unfold owned_by. induction rs as [|r rs IH]; [done|].
  etrans; [|apply Permutation_skip, IH].
  rewrite !filter_cons.
  destruct (_resourceGroup r); repeat case_decide; try done; clear;
    solve_Permutation.
Qed.

Lemma elem_of_owned_by id (r : Resource) (rs : list Resource) :
  r ∈ owned_by id rs <-> _resourceGroup r = id /\ r ∈ rs.
Proof. unfold owned_by. by rewrite list_elem_of_filter. Qed.

Section ReconcilerProofs.

Variable file_uri : string -> string -> Uri.
Variable existsSync : Uri -> bool.

#[local] Abbreviation location := (location file_uri).
#[local] Abbreviation seen_after := (seen_after file_uri).
#[local] Abbreviation missed := (missed file_uri).
#[local] Abbreviation first_emit := (first_emit file_uri).
#[local] Abbreviation second_emit := (second_emit file_uri existsSync).
#[local] Abbreviation groupStatuses := (groupStatuses file_uri existsSync).
#[local] Abbreviation processed_locations := (processed_locations file_uri).
#[local] Abbreviation effective_location := (effective_location file_uri).

Lemma seen_after_lookup p l seen u :
  is_Some (seen_after p l seen !! u) <-> is_Some (seen !! u) \/ u ∈ map (location p) l.
Proof.
  unfold seen_after. revert seen. induction l as [|raw l IH]; intros seen; cbn [foldl map].
  - rewrite elem_of_nil. tauto.
  - rewrite IH, lookup_insert_is_Some', elem_of_cons.
    split; [intros [[->|?]|?] | intros [?|[->|?]]]; auto.
Qed.

Lemma firstPass_step p b seen raw :
  constructed (g_staging (statusGroups p)) ->
  firstPass file_uri p (b, seen) raw =
    (r ← first_emit p raw;
     Ok (push b (_resourceGroup r) r, <[location p raw := true]> seen)).
Proof.
  intros Hs. unfold firstPass, first_emit. cbv zeta.
  rewrite (chooseResourcesAndGroup_route _ _ _ _ _ _ Hs).
  by destruct (toStatus (status raw) (truthy (rename raw))).
Qed.

Lemma secondPass_step p seen b raw :
  constructed (g_staging (statusGroups p)) ->
  secondPass file_uri existsSync p seen b raw =
    Ok (if decide (is_Some (seen !! location p raw)) then b
        else push b (_resourceGroup (second_emit p raw)) (second_emit p raw)).
Proof.
  intros Hs. unfold secondPass, second_emit. cbv zeta.
  fold (location p raw). case_bool_decide as Hseen.
  - by rewrite decide_True.
  - rewrite decide_False by done.
    rewrite (chooseResourcesAndGroup_route _ _ _ _ _ _ Hs).
    by destruct (existsSync (location p raw)).
Qed.

(** The first loop, on a constructed previous staging group: it fails where
    the first record fails to classify, and otherwise pushes one resource
    per record, in order. *)
Lemma firstPass_fold p l b seen :
  constructed (g_staging (statusGroups p)) ->
  foldR (firstPass file_uri p) (b, seen) l =
    (rs ← mapR (first_emit p) l; Ok (pushAll b rs, seen_after p l seen)).
Proof.
  intros Hs. revert b seen. induction l as [|raw l IH]; intros b seen; [done|].
  cbn [foldR mapR]. rewrite (firstPass_step _ _ _ _ Hs).
  destruct (first_emit p raw) as [r|e]; [cbn|done].
  rewrite IH. by destruct (mapR (first_emit p) l).
Qed.

(** The second loop, on a constructed previous staging group, never fails:
    it pushes one resource per record whose location is not in [seen]. *)
Lemma secondPass_fold p seen l b :
  constructed (g_staging (statusGroups p)) ->
  foldR (secondPass file_uri existsSync p seen) b l =
    Ok (pushAll b (map (second_emit p)
                       (filter (fun raw => ~ is_Some (seen !! location p raw)) l))).
Proof.
  intros Hs. revert b. induction l as [|raw l IH]; intros b; [done|].
  cbn [foldR]. rewrite (secondPass_step _ _ _ _ Hs), filter_cons. cbn.
  rewrite IH. case_decide as Hseen.
  - by rewrite decide_False by tauto.
  - by rewrite decide_True by done.
Qed.

Lemma missed_seen p :
  missed p =
    match resolveStatuses p with
    | Some rs =>
        filter (fun raw => ~ is_Some (seen_after p (fileStatuses p) ∅ !! location p raw)) rs
    | None => []
    end.
Proof.
  unfold missed. destruct (resolveStatuses p) as [rs|]; [|done].
  apply list_filter_iff. intros raw.
  rewrite seen_after_lookup, lookup_empty. 
  split; [intros H [[? [=]]|?]; done | intros H ?; apply H; by right].
Qed.

(** All the resources one pass produces, first pass then second pass. *)
Lemma groupStatuses_unfold p :
  constructed (g_staging (statusGroups p)) ->
  groupStatuses p =
    (rs ← mapR (first_emit p) (fileStatuses p);
     let all := rs ++ map (second_emit p) (missed p) in
     c ← new_ResourceGroup conflict (owned_by conflict all);
     m ← new_ResourceGroup merge (owned_by merge all);
     s ← new_ResourceGroup staging (owned_by staging all);
     w ← new_ResourceGroup working (owned_by working all);
     u ← new_ResourceGroup untracked (owned_by untracked all);
     Ok (mkStatusGroups c s m w u)).
Proof.
  intros Hs. unfold groupStatuses. rewrite (firstPass_fold _ _ _ _ Hs).
  destruct (mapR (first_emit p) (fileStatuses p)) as [rs|e]; [cbn|done].
  rewrite missed_seen.
  assert (forall id, bucket (pushAll emptyBuckets rs) id = owned_by id rs) as Hb1.
  { intros id. by rewrite bucket_pushAll; destruct id. }
  destruct (resolveStatuses p) as [l|].
  - rewrite (secondPass_fold _ _ _ _ Hs). cbn.
    set (rs2 := map (second_emit p) _).
    assert (forall id, bucket (pushAll (pushAll emptyBuckets rs) rs2) id
                       = owned_by id (rs ++ rs2)) as Hb.
    { intros id. rewrite bucket_pushAll, Hb1.
      unfold owned_by. by rewrite filter_app. }
    by rewrite <- (Hb conflict), <- (Hb merge), <- (Hb staging), <- (Hb working),
               <- (Hb untracked).
  - cbn. rewrite app_nil_r.
    by rewrite <- (Hb1 conflict), <- (Hb1 merge), <- (Hb1 staging), <- (Hb1 working),
               <- (Hb1 untracked).
Qed.

(** What a successful pass returns. *)
Lemma groupStatuses_Ok p gs :
  constructed (g_staging (statusGroups p)) ->
  groupStatuses p = Ok gs ->
  exists rs,
    mapR (first_emit p) (fileStatuses p) = Ok rs
    /\ forall id,
         new_ResourceGroup id (owned_by id (rs ++ map (second_emit p) (missed p)))
         = Ok (group_of gs id).
Proof.
  intros Hs H. rewrite (groupStatuses_unfold p Hs) in H.
  inv_bind H. exists a. split; [done|]. cbn zeta in H.
  inv_bind H. inv_bind H. inv_bind H. inv_bind H. inv_bind H.
  injection H as <-. by intros [].
Qed.

Lemma groupStatuses_resources p gs rs id :
  mapR (first_emit p) (fileStatuses p) = Ok rs ->
  (forall id,
      new_ResourceGroup id (owned_by id (rs ++ map (second_emit p) (missed p)))
      = Ok (group_of gs id)) ->
  _resources (group_of gs id) = owned_by id (rs ++ map (second_emit p) (missed p)).
Proof. intros _ H. by destruct (new_ResourceGroup_Ok _ _ _ (H id)) as (_ & _ & -> & _). Qed.

(** ** Where [groupStatuses] can fail *)

Lemma foldR_Throw {A S} (body : S -> A -> result S) (s : S) (l : list A) e :
foldR body s l = Throw e -> exists s' x, x ∈ l /\ body s' x = Throw e.
Proof.
revert s. induction l as [|x l IH]; intros s H; cbn [foldR] in H; [done|].
destruct (body s x) as [s'|e'] eqn:Hb; cbn in H.
- destruct (IH _ H) as (s'' & y & Hy & Hbody). exists s'', y. split; [|done].
  apply elem_of_cons. by right.
- injection H as ->. exists s, x. split; [|done]. apply elem_of_cons. by left.
Qed.

Lemma resourceUri_Throw r e : resourceUri r = Throw e -> exists message, e = Error message.
Proof.
unfold resourceUri. destruct (renameResourceUri r); [|done].
case_decide; [done|]. intros [= <-]. eauto.
Qed.

Lemma some_resourceUri_Throw u rs e :
some_resourceUri u rs = Throw e -> exists message, e = Error message.
Proof.
induction rs as [|r rs IH]; cbn [some_resourceUri]; [done|].
destruct (resourceUri r) as [u'|e'] eqn:Hr; cbn.
- case_bool_decide; [done | exact IH].
- intros [= <-]. by apply resourceUri_Throw in Hr.
Qed.

Lemma new_ResourceGroup_Throw id rs e :
new_ResourceGroup id rs = Throw e -> exists message, e = Error message.
Proof.
unfold new_ResourceGroup, indexResources.
destruct (foldR _ ∅ rs) as [idx|e'] eqn:Hf; cbn; [done|].
intros [= <-]. apply foldR_Throw in Hf as (idx & r & _ & Hr).
destruct (resourceUri r) as [u|e''] eqn:Hu; cbn in Hr; [done|].
injection Hr as <-. by apply resourceUri_Throw in Hu.
Qed.

(** The closure throws an [HgError] only out of its status switch. *)
Lemma chooseResourcesAndGroup_HgError gs repo u c ms renamed message :
chooseResourcesAndGroup gs repo u c ms renamed = Throw (HgError message) ->
c ∉ known_codes.
Proof.
unfold chooseResourcesAndGroup.
destruct (toStatus c renamed) as [st|e] eqn:Hst; cbn.
- case_decide; [done|]. destruct (isMerge repo); [by case_decide|].
  destruct (some_resourceUri u (_resources (g_staging gs))) as [b|e] eqn:Hsome;
    cbn; [done|].
  intros [= ->]. apply some_resourceUri_Throw in Hsome as [? Hsome]. discriminate.
- intros _. by apply toStatus_HgError in Hst as [? _].
Qed.

Lemma chooseResourcesAndGroup_unknown gs repo u c ms renamed :
c ∉ known_codes ->
chooseResourcesAndGroup gs repo u c ms renamed
= Throw (HgError ("Unknown rawStatus: " +:+ c)).
Proof.
intros H. unfold chooseResourcesAndGroup. by rewrite (toStatus_unknown c renamed H).
Qed.


Lemma first_emit_known p raw :
  status raw ∈ known_codes -> is_Ok (first_emit p raw).
Proof.
  intros H. unfold first_emit.
  destruct (toStatus_known (status raw) (truthy (rename raw)) H) as [st ->].
  by eexists.
Qed.

Lemma first_emit_unknown p raw :
  (status raw ∉ known_codes) ->
  first_emit p raw = Throw (HgError ("Unknown rawStatus: " +:+ status raw)).
Proof. intros H. unfold first_emit. by rewrite (toStatus_unknown _ _ H). Qed.

(** The first loop stops at the first record it cannot classify. *)
Lemma mapR_first_emit_unknown p (l : list IFileStatus) :
  (exists raw, raw ∈ l /\ (status raw ∉ known_codes)) ->
  exists raw, raw ∈ l /\ (status raw ∉ known_codes)
    /\ mapR (first_emit p) l = Throw (HgError ("Unknown rawStatus: " +:+ status raw)).
Proof.
  induction l as [|x l IH]; intros (y & Hy & Hbad).
  - by apply elem_of_nil in Hy.
  - cbn [mapR]. destruct (decide (status x ∈ known_codes)) as [Hk|Hu].
    + destruct (first_emit_known p x Hk) as [r ->]. cbn.
      destruct IH as (z & Hz & Hzbad & ->).
      { exists y. split; [|done]. apply elem_of_cons in Hy as [->|]; done. }
      exists z. split; [apply elem_of_cons; by right|]. done.
    + exists x. split; [apply elem_of_cons; by left|]. split; [done|].
      by rewrite (first_emit_unknown p x Hu).
Qed.

Lemma firstPass_HgError p l st message :
  foldR (firstPass file_uri p) st l = Throw (HgError message) ->
  exists raw, raw ∈ l /\ (status raw ∉ known_codes).
Proof.
  intros (st' & raw & Hraw & H)%foldR_Throw. exists raw. split; [done|].
  unfold firstPass in H. cbv zeta in H.
  destruct (chooseResourcesAndGroup _ _ _ _ _ _) as [choice|e] eqn:Hc; [done|].
  cbn in H. injection H as ->. by apply chooseResourcesAndGroup_HgError in Hc.
Qed.

Lemma secondPass_not_HgError p seen l b message :
  foldR (secondPass file_uri existsSync p seen) b l <> Throw (HgError message).
Proof.
  intros (b' & raw & Hraw & H)%foldR_Throw.
  unfold secondPass in H. cbv zeta in H.
  case_bool_decide; [done|].
  destruct (chooseResourcesAndGroup _ _ _ _ _ _) as [choice|e] eqn:Hc; [done|].
  cbn in H. injection H as ->. apply chooseResourcesAndGroup_HgError in Hc.
  apply Hc. unfold known_codes. destruct (existsSync _); set_solver.
Qed.

(** A classification error of [groupStatuses] always comes from a raw
    status record. *)
Lemma groupStatuses_HgError p message :
  groupStatuses p = Throw (HgError message) ->
  exists raw, raw ∈ fileStatuses p /\ (status raw ∉ known_codes).
Proof.
  unfold groupStatuses.
  destruct (foldR (firstPass file_uri p) _ _) as [st|e] eqn:H1; cbn.
  2: { intros [= ->]. by apply firstPass_HgError in H1. }
  destruct (match resolveStatuses p with Some rs => _ | None => _ end) as [b|e] eqn:H2; cbn.
  2: { intros [= ->]. destruct (resolveStatuses p); [|done].
       by apply secondPass_not_HgError in H2. }
  repeat
    match goal with
    | |- context [new_ResourceGroup ?id ?rs] =>
        let H := fresh in
        destruct (new_ResourceGroup id rs) eqn:H; cbn;
        [| intros [= ->]; apply new_ResourceGroup_Throw in H as [? H]; discriminate]
    end.
  done.
Qed.



Lemma mapR_Ok_elem {A B} (f : A -> result B) (l : list A) (rs : list B) (x : A) :
  mapR f l = Ok rs -> x ∈ l -> exists y, y ∈ rs /\ f x = Ok y.
Proof.
  revert rs. induction l as [|a l IH]; intros rs H Hx; cbn [mapR] in H.
  - by apply elem_of_nil in Hx.
  - ok_bind H as b Hb. ok_bind H as rest Hrest. injection H as <-.
    apply elem_of_cons in Hx as [->|Hx].
    + eexists. split; [apply elem_of_cons; by left | done].
    + destruct (IH _ Hrest Hx) as (y & Hy & Hf).
      exists y. split; [apply elem_of_cons; by right | done].
Qed.

Lemma mapR_Ok_map {A B C} (f : A -> result B) (g : B -> C) (h : A -> C)
    (l : list A) (rs : list B) :
  (forall x y, f x = Ok y -> g y = h x) ->
  mapR f l = Ok rs -> map g rs = map h l.
Proof.
  intros Hgh. revert rs. induction l as [|a l IH]; intros rs H; cbn [mapR] in H.
  - by injection H as <-.
  - ok_bind H as b Hb. ok_bind H as rest Hrest. injection H as <-. cbn [map].
    by rewrite (Hgh _ _ Hb), (IH _ Hrest).
Qed.

Lemma length_filter_map {A B} (g : A -> B) (l : list A) (u : B) `{EqDecision B} :
  length (filter (fun x => g x = u) l) = length (filter (fun v => v = u) (map g l)).
Proof.
  induction l as [|a l IH]; [done|]. cbn [map]. rewrite !filter_cons.
  case_decide; cbn [length]; by rewrite IH.
Qed.

Lemma length_filter_absent {B} `{EqDecision B} (l : list B) (u : B) :
  u ∉ l -> length (filter (fun v => v = u) l) = 0%nat.
Proof.
  induction l as [|a l IH]; [done|]. intros [Ha Hl]%not_elem_of_cons.
  rewrite filter_cons_False by congruence. by apply IH.
Qed.

Lemma length_filter_NoDup {B} `{EqDecision B} (l : list B) (u : B) :
  NoDup l -> u ∈ l -> length (filter (fun v => v = u) l) = 1%nat.
Proof.
  induction 1 as [|a l Hna Hnd IH]; intros Hu.
  - by apply elem_of_nil in Hu.
  - rewrite filter_cons. case_decide as Ha.
    + subst a. cbn [length]. by rewrite length_filter_absent.
    + apply elem_of_cons in Hu as [->|Hu]; [done|]. by apply IH.
Qed.

Lemma first_emit_Ok p raw r :
  first_emit p raw = Ok r ->
  exists st,
    toStatus (status raw) (truthy (rename raw)) = Ok st
    /\ r = mkResource
             (route_by_precedence st (isMerge (repoStatus p))
                (mergeStatus_of (resolveStatuses p) raw)
                (includesUri (g_staging (statusGroups p)) (location p raw)))
             (location p raw) st (mergeStatus_of (resolveStatuses p) raw)
             (renameUri_of file_uri (respositoryRoot p) raw).
Proof.
  unfold first_emit. intros H. ok_bind H as st Hst. injection H as <-. eauto.
Qed.

Lemma first_emit_original p raw r : first_emit p raw = Ok r -> original r = location p raw.
Proof. by intros (st & _ & ->)%first_emit_Ok. Qed.

Lemma first_emit_effective p raw r :
  first_emit p raw = Ok r -> effective r = effective_location p raw.
Proof. by intros (st & _ & ->)%first_emit_Ok. Qed.

(** The partition a successful pass returns, resource by resource. *)
Lemma groupStatuses_elem p gs :
  constructed (g_staging (statusGroups p)) ->
  groupStatuses p = Ok gs ->
  exists rs,
    mapR (first_emit p) (fileStatuses p) = Ok rs
    /\ (forall id, constructed (group_of gs id))
    /\ (forall id, _resources (group_of gs id)
                   = owned_by id (rs ++ map (second_emit p) (missed p)))
    /\ all_resources gs ≡ₚ rs ++ map (second_emit p) (missed p).
Proof.
  intros Hs H. destruct (groupStatuses_Ok p gs Hs H) as (rs & Hrs & Hnew).
  exists rs. split; [done|].
  assert (forall id, _resources (group_of gs id)
                     = owned_by id (rs ++ map (second_emit p) (missed p))) as Hres.
  { intros id. by destruct (new_ResourceGroup_Ok _ _ _ (Hnew id)) as (_ & _ & -> & _). }
  split; [|split; [done|]].
  - intros id. by destruct (new_ResourceGroup_Ok _ _ _ (Hnew id)) as (_ & _ & _ & ? & _).
  - unfold all_resources.
    rewrite <- (owned_by_partition (rs ++ _)).
    by rewrite <- (Hres conflict), <- (Hres merge), <- (Hres staging), <- (Hres working),
               <- (Hres untracked).
Qed.

Lemma mapR_is_Ok {A B} (f : A -> result B) (l : list A) (Q : B -> Prop) :
  Forall (fun x => exists y, f x = Ok y /\ Q y) l ->
  exists rs, mapR f l = Ok rs /\ Forall Q rs.
Proof.
  induction 1 as [|x l (y & Hy & HQ) _ (rs & Hrs & HQs)].
  - by exists [].
  - exists (y :: rs). cbn [mapR]. rewrite Hy, Hrs. split; [done|]. by constructor.
Qed.

(** A pass returns a partition whenever the previous staging group is
    constructed, every raw status code is known, and only records coded A or
    M name a rename source. *)
Lemma groupStatuses_returns p :
  constructed (g_staging (statusGroups p)) ->
  Forall (fun raw =>
            status raw ∈ known_codes
            /\ (truthy (rename raw) = true -> status raw = "A" \/ status raw = "M"))
         (fileStatuses p) ->
  is_Ok (groupStatuses p).
Proof.
  intros Hs Hall. rewrite (groupStatuses_unfold p Hs).
  destruct (mapR_is_Ok (first_emit p) (fileStatuses p) valid) as (rs & -> & Hvalid).
  { eapply Forall_impl; [exact Hall|]. intros raw [Hcode Hrename]. cbv beta in *.
    unfold first_emit.
    destruct (toStatus_known (status raw) (truthy (rename raw)) Hcode) as [st Hst].
    rewrite Hst. cbn. eexists. split; [done|].
    unfold valid, renameResourceUri, renameUri_of. cbn.
    destruct (rename raw) as [rn|]; [|done].
    destruct (truthy (Some rn)) eqn:Ht; [|done].
    destruct (Hrename eq_refl) as [Hc|Hc]; rewrite Hc in Hst;
      injection Hst as <-; auto. }
  cbn.
  assert (Forall valid (rs ++ map (second_emit p) (missed p))) as Hv.
  { apply Forall_app. split; [done|]. apply Forall_forall.
    by intros r (raw & -> & _)%list_elem_of_fmap. }
  assert (forall id, exists G,
             new_ResourceGroup id (owned_by id (rs ++ map (second_emit p) (missed p))) = Ok G)
    as Hnew.
  { intros id. destruct (new_ResourceGroup_valid id
        (owned_by id (rs ++ map (second_emit p) (missed p)))) as (G & HG & _).
    - by apply Forall_filter.
    - by exists G. }
  destruct (Hnew conflict) as [c ->], (Hnew merge) as [m ->], (Hnew staging) as [s ->],
    (Hnew working) as [w ->], (Hnew untracked) as [u ->].
  by eexists.
Qed.

(** C1. Routing precedence. In a successful pass over a constructed previous
    staging group, every raw status record and every resolution record the
    second pass does not skip has its resource in the group the precedence
    names: untracked for IGNORED and UNTRACKED whatever the merge state and
    the previous staging; otherwise, mid-merge, conflict when the merge
    status is UNRESOLVED and merge when it is not, whatever the previous
    staging; otherwise staging exactly when the previous staging group
    includes the record's location, and working when it does not. That group
    is the one [chooseResourcesAndGroup] returns. *)
Theorem groupStatuses_routing_precedence (p : IGroupStatusesParams) (gs : IStatusGroups) :
  constructed (g_staging (statusGroups p)) ->
  groupStatuses p = Ok gs ->
  (forall uriString rawStatus mergeStatus renamed dest st,
     chooseResourcesAndGroup (statusGroups p) (repoStatus p) uriString rawStatus
       mergeStatus renamed = Ok (dest, st) ->
     dest = route_by_precedence st (isMerge (repoStatus p)) mergeStatus
              (includesUri (g_staging (statusGroups p)) uriString))
  /\ (forall raw, raw ∈ fileStatuses p ->
     exists st,
       let mergeStatus := mergeStatus_of (resolveStatuses p) raw in
       let dest :=
         route_by_precedence st (isMerge (repoStatus p)) mergeStatus
           (includesUri (g_staging (statusGroups p)) (location p raw)) in
       chooseResourcesAndGroup (statusGroups p) (repoStatus p) (location p raw)
         (status raw) mergeStatus (truthy (rename raw)) = Ok (dest, st)
       /\ mkResource dest (location p raw) st mergeStatus
            (renameUri_of file_uri (respositoryRoot p) raw)
          ∈ _resources (group_of gs dest))
  /\ (forall raw, raw ∈ missed p ->
        exists st,
          let mergeStatus := toMergeStatus (status raw) in
          let dest :=
            route_by_precedence st (isMerge (repoStatus p)) mergeStatus
              (includesUri (g_staging (statusGroups p)) (location p raw)) in
          chooseResourcesAndGroup (statusGroups p) (repoStatus p) (location p raw)
            (if existsSync (location p raw) then "C" else "R")
            mergeStatus (truthy (rename raw)) = Ok (dest, st)
          /\ mkResource dest (location p raw) st mergeStatus None
             ∈ _resources (group_of gs dest)).
Proof.
  intros Hs H. destruct (groupStatuses_elem p gs Hs H) as (rs & Hrs & _ & Hres & _).
  split; [|split].
  - intros uriString rawStatus mergeStatus renamed dest st Hc.
    rewrite (chooseResourcesAndGroup_route _ _ _ _ _ _ Hs) in Hc.
    ok_bind Hc as st' Hst. by injection Hc as <- <-.
  - intros raw Hraw.
    destruct (mapR_Ok_elem _ _ _ _ Hrs Hraw) as (r & Hr & Hemit).
    destruct (first_emit_Ok _ _ _ Hemit) as (st & Hst & ->).
    exists st. cbv zeta. split.
    + rewrite (chooseResourcesAndGroup_route _ _ _ _ _ _ Hs). by rewrite Hst.
    + rewrite Hres. apply elem_of_owned_by. split; [done|].
      apply elem_of_app. by left.
  - intros raw Hraw.
    exists (if existsSync (location p raw) then CLEAN else DELETED). cbv zeta. split.
    + rewrite (chooseResourcesAndGroup_route _ _ _ _ _ _ Hs).
      by destruct (existsSync (location p raw)).
    + rewrite Hres. apply elem_of_owned_by. split; [done|].
      apply elem_of_app. right. apply list_elem_of_fmap. by exists raw.
Qed.

Lemma mapR_Ok_length {A B} (f : A -> result B) (l : list A) (rs : list B) :
  mapR f l = Ok rs -> length rs = length l.
Proof.
  intros H. rewrite <- (length_map (fun _ => tt) rs), <- (length_map (fun _ => tt) l).
  f_equal. by apply (mapR_Ok_map f _ _ l rs).
Qed.

Lemma effective_processed p rs :
  mapR (first_emit p) (fileStatuses p) = Ok rs ->
  map effective (rs ++ map (second_emit p) (missed p)) = processed_locations p.
Proof.
  intros Hrs. unfold processed_locations. rewrite map_app, map_map. f_equal.
  eapply mapR_Ok_map; [|exact Hrs]. intros raw r. apply first_emit_effective.
Qed.

Lemma original_processed p rs :
  mapR (first_emit p) (fileStatuses p) = Ok rs ->
  map original (rs ++ map (second_emit p) (missed p))
  = map (location p) (fileStatuses p) ++ map (location p) (missed p).
Proof.
  intros Hrs. rewrite map_app, map_map. f_equal.
  eapply mapR_Ok_map; [|exact Hrs]. intros raw r. apply first_emit_original.
Qed.

Lemma missed_location p raw :
  raw ∈ missed p -> location p raw ∉ map (location p) (fileStatuses p).
Proof.
  unfold missed. destruct (resolveStatuses p) as [rs|].
  - by intros [? _]%list_elem_of_filter.
  - by intros ?%elem_of_nil.
Qed.


(** C4. Second pass. In a successful pass over a constructed previous staging
    group, every resolution record whose location no raw status record has
    yields a resource without rename source, with status CLEAN when the file
    exists on disk and DELETED when it does not (raw codes C and R), with the
    merge status of the record, in the group [chooseResourcesAndGroup]
    chooses for it. A location of the raw status list has exactly as many
    resources in the partition as raw status records, however the resolution
    list names it: exactly one when the raw status list names it once. *)
Theorem groupStatuses_second_pass (p : IGroupStatusesParams) (gs : IStatusGroups) :
  constructed (g_staging (statusGroups p)) ->
  groupStatuses p = Ok gs ->
  (forall raw, raw ∈ missed p ->
     exists dest st,
       st = (if existsSync (location p raw) then CLEAN else DELETED)
       /\ chooseResourcesAndGroup (statusGroups p) (repoStatus p) (location p raw)
            (if existsSync (location p raw) then "C" else "R")
            (toMergeStatus (status raw)) (truthy (rename raw)) = Ok (dest, st)
       /\ mkResource dest (location p raw) st (toMergeStatus (status raw)) None
          ∈ _resources (group_of gs dest))
  /\ (forall u, u ∈ map (location p) (fileStatuses p) ->
        length (filter (fun r => original r = u) (all_resources gs))
        = length (filter (fun raw => location p raw = u) (fileStatuses p)))
  /\ (NoDup (map (location p) (fileStatuses p)) ->
      forall u, u ∈ map (location p) (fileStatuses p) ->
        length (filter (fun r => original r = u) (all_resources gs)) = 1%nat).
Proof.
  intros Hs H. destruct (groupStatuses_elem p gs Hs H) as (rs & Hrs & _ & Hres & Hperm).
  assert (forall u, u ∈ map (location p) (fileStatuses p) ->
            length (filter (fun r => original r = u) (all_resources gs))
            = length (filter (fun v => v = u) (map (location p) (fileStatuses p)))) as Hcount.
  { intros u Hu. rewrite Hperm, length_filter_map, (original_processed p rs Hrs).
    rewrite filter_app, length_app, (length_filter_absent (map _ (missed p))); [lia|].
    intros (raw & -> & Hraw)%list_elem_of_fmap. by apply missed_location in Hraw. }
  split; [|split].
  - intros raw Hraw.
    exists (_resourceGroup (second_emit p raw)),
           (if existsSync (location p raw) then CLEAN else DELETED).
    split; [done|]. split.
    + rewrite (chooseResourcesAndGroup_route _ _ _ _ _ _ Hs).
      unfold second_emit. cbv zeta. by destruct (existsSync (location p raw)).
    + rewrite Hres. apply elem_of_owned_by. split; [done|].
      apply elem_of_app. right. apply list_elem_of_fmap. by exists raw.
  - intros u Hu. by rewrite (Hcount u Hu), <- length_filter_map.
  - intros Hnd u Hu. rewrite (Hcount u Hu). by apply length_filter_NoDup.
Qed.

(** C10. [toMergeStatus] is total: RESOLVED for R, UNRESOLVED for U, NONE
    for every other string. So no status code of a resolution record makes
    [groupStatuses] throw a classification error: an [HgError] of
    [groupStatuses] always witnesses a raw status record with an unknown code,
    on which the raw-status switch does throw. *)
Theorem toMergeStatus_total :
  (forall s,
      toMergeStatus s
      = if decide (s = "R") then RESOLVED
        else if decide (s = "U") then UNRESOLVED else NONE)
  /\ toMergeStatus "R" = RESOLVED
  /\ toMergeStatus "U" = UNRESOLVED
  /\ (forall s, s <> "R" -> s <> "U" -> toMergeStatus s = NONE)
  /\ (forall p message,
        groupStatuses p = Throw (HgError message) ->
        exists raw, raw ∈ fileStatuses p /\ (status raw ∉ known_codes))
  /\ (forall c renamed,
        c ∉ known_codes -> exists message, toStatus c renamed = Throw (HgError message)).
Proof.
  split; [done|]. split; [done|]. split; [done|]. split; [|split].
  - intros s HR HU. unfold toMergeStatus. by rewrite !decide_False.
  - apply groupStatuses_HgError.
  - intros c renamed Hc. eexists. by apply toStatus_unknown.
Qed.

End ReconcilerProofs.

(** ** The operation tracker *)

Local Open Scope Z_scope.

Lemma ToInt32_small (x : Z) : 0 <= x < 2 ^ 31 -> ToInt32 x = x.
Proof.
  intros Hx. unfold ToInt32. rewrite Z.mod_small by lia.
  destruct (x >=? 2 ^ 31) eqn:E; [|done]. apply Z.geb_le in E. lia.
Qed.

Lemma nonneg_bits_bound (m n : Z) :
  0 <= m -> 0 < n -> (forall i, n <= i -> Z.testbit m i = false) -> m < 2 ^ n.
Proof.
  intros Hm Hn Hbits. destruct (Z.eq_dec m 0) as [->|Hne].
  - apply Z.pow_pos_nonneg; lia.
  - apply Z.log2_lt_pow2; [lia|].
    destruct (Z.lt_ge_cases (Z.log2 m) n) as [|Hge]; [done|].
    pose proof (Z.bit_log2 m ltac:(lia)) as Hbit.
    rewrite (Hbits _ Hge) in Hbit. discriminate.
Qed.

Lemma Operation_value_pow2 op : Operation.value op = 2 ^ Operation.bit op.
Proof. by destruct op. Qed.

Lemma Operation_bit_range op : 0 <= Operation.bit op < 26.
Proof. destruct op; cbn; lia. Qed.

Lemma ToInt32_value op : ToInt32 (Operation.value op) = Operation.value op.
Proof. by destruct op. Qed.

Lemma ToInt32_lnot_value op :
  ToInt32 (Z.lnot (ToInt32 (Operation.value op))) = Z.lnot (Operation.value op).
Proof. by destruct op. Qed.

Lemma Operation_value_testbit op i :
  Z.testbit (Operation.value op) i = (Operation.bit op =? i).
Proof.
  rewrite Operation_value_pow2. apply Z.pow2_bits_eqb.
  pose proof (Operation_bit_range op). lia.
Qed.

(** Every reachable mask is a non-negative integer below 2^26: [ToInt32]
    leaves it alone. *)
Lemma reachable_bits t :
  reachable t ->
  0 <= operations t /\ forall i, 26 <= i -> Z.testbit (operations t) i = false.
Proof.
  induction 1 as [|t op _ [Hm Hbits]|t op _ [Hm Hbits]]; cbn [operations start end_].
  - split; [done|]. intros i _. apply Z.bits_0.
  - assert (operations t < 2 ^ 26) by (apply nonneg_bits_bound; [done|lia|done]).
    rewrite ToInt32_small, ToInt32_value by lia. split.
    + apply Z.lor_nonneg. rewrite Operation_value_pow2. split; [done|].
      apply Z.pow_nonneg. lia.
    + intros i Hi. rewrite Z.lor_spec, (Hbits i Hi), Operation_value_testbit.
      pose proof (Operation_bit_range op). cbn. apply Z.eqb_neq. lia.
  - assert (operations t < 2 ^ 26) by (apply nonneg_bits_bound; [done|lia|done]).
    rewrite ToInt32_small, ToInt32_lnot_value by lia. split.
    + apply Z.land_nonneg. by left.
    + intros i Hi. by rewrite Z.land_spec, (Hbits i Hi).
Qed.

Lemma reachable_ToInt32 t : reachable t -> ToInt32 (operations t) = operations t.
Proof.
  intros [Hm Hbits]%reachable_bits. apply ToInt32_small. split; [done|].
  assert (operations t < 2 ^ 26) by (apply nonneg_bits_bound; [done|lia|done]). lia.
Qed.

Lemma isRunning_testbit t op :
  reachable t -> isRunning t op = Z.testbit (operations t) (Operation.bit op).
Proof.
  intros Ht. unfold isRunning. rewrite (reachable_ToInt32 t Ht), ToInt32_value.
  pose proof (Operation_bit_range op) as Hb.
  destruct (Z.testbit (operations t) (Operation.bit op)) eqn:Hbit.
  - apply negb_true_iff, Z.eqb_neq. intros H0.
    assert (Z.testbit (Z.land (operations t) (Operation.value op)) (Operation.bit op) = true)
      as Hl by (by rewrite Z.land_spec, Hbit, Operation_value_testbit, Z.eqb_refl).
    rewrite H0, Z.bits_0 in Hl. discriminate.
  - apply negb_false_iff, Z.eqb_eq, Z.bits_inj'. intros i Hi.
    rewrite Z.land_spec, Operation_value_testbit, Z.bits_0.
    destruct (Z.eqb_spec (Operation.bit op) i) as [<-|]; [by rewrite Hbit | apply andb_false_r].
Qed.

Lemma start_operations t op :
  reachable t -> operations (start t op) = Z.lor (operations t) (Operation.value op).
Proof. intros Ht. cbn. by rewrite (reachable_ToInt32 t Ht), ToInt32_value. Qed.

Lemma end_operations t op :
  reachable t ->
  operations (end_ t op) = Z.land (operations t) (Z.lnot (Operation.value op)).
Proof. intros Ht. cbn. by rewrite (reachable_ToInt32 t Ht), ToInt32_lnot_value. Qed.

Lemma OperationsImpl_eq t1 t2 : operations t1 = operations t2 -> t1 = t2.
Proof. destruct t1, t2. cbn. by intros ->. Qed.

(** C6, amended. For every tracker value [t] the Model can reach and every
    operation [op]: [isRunning(op)] is the bit of [op] in the mask;
    [start(op)] sets that bit and [end(op)] clears it, both leaving the bits
    of the other operations alone; [start(op).end(op)] equals [end(op)], so
    it restores [t] exactly when [op] was not already running in [t]. *)
Theorem tracker_start_end (t : OperationsImpl) (op : Operation.t) :
  reachable t ->
  isRunning t op = Z.testbit (operations t) (Operation.bit op)
  /\ end_ (start t op) op = end_ t op
  /\ (end_ (start t op) op = t <-> isRunning t op = false)
  /\ isRunning (start t op) op = true
  /\ isRunning (end_ t op) op = false
  /\ (forall op', op' <> op ->
        isRunning (start t op) op' = isRunning t op'
        /\ isRunning (end_ t op) op' = isRunning t op').
Proof.
  intros Ht.
  pose proof (reachable_start t op Ht) as Hs.
  pose proof (reachable_end t op Ht) as He.
  pose proof (Operation_bit_range op) as Hb.
  assert (end_ (start t op) op = end_ t op) as Hse.
  { apply OperationsImpl_eq. rewrite (end_operations _ _ Hs), (start_operations _ _ Ht),
      (end_operations _ _ Ht).
    apply Z.bits_inj'. intros i Hi.
    rewrite !Z.land_spec, Z.lor_spec, Z.lnot_spec, Operation_value_testbit by done.
    by destruct (Z.testbit (operations t) i), (Operation.bit op =? i). }
  split; [by apply isRunning_testbit|]. split; [done|]. split; [|split; [|split]].
  - rewrite Hse, (isRunning_testbit t op Ht). split.
    + intros Heq. apply (f_equal operations) in Heq.
      rewrite (end_operations _ _ Ht) in Heq.
      rewrite <- Heq, Z.land_spec, Z.lnot_spec, Operation_value_testbit, Z.eqb_refl by lia.
      apply andb_false_r.
    + intros Hbit. apply OperationsImpl_eq. rewrite (end_operations _ _ Ht).
      apply Z.bits_inj'. intros i Hi.
      rewrite Z.land_spec, Z.lnot_spec, Operation_value_testbit by done.
      destruct (Z.eqb_spec (Operation.bit op) i) as [<-|]; [by rewrite Hbit | apply andb_true_r].
  - rewrite (isRunning_testbit _ op Hs), (start_operations _ _ Ht), Z.lor_spec,
      Operation_value_testbit, Z.eqb_refl. apply orb_true_r.
  - rewrite (isRunning_testbit _ op He), (end_operations _ _ Ht), Z.land_spec, Z.lnot_spec,
      Operation_value_testbit, Z.eqb_refl by lia. apply andb_false_r.
  - intros op' Hne.
    pose proof (Operation_bit_range op') as Hb'.
    assert ((Operation.bit op =? Operation.bit op') = false) as Hbits.
    { apply Z.eqb_neq. intros Heq. apply Hne. by destruct op, op'. }
    rewrite (isRunning_testbit _ op' Hs), (isRunning_testbit _ op' He),
      (isRunning_testbit _ op' Ht), (start_operations _ _ Ht), (end_operations _ _ Ht),
      Z.lor_spec, Z.land_spec, Z.lnot_spec, Operation_value_testbit, Hbits by lia.
    by rewrite orb_false_r, andb_true_r.
Qed.

Local Close Scope Z_scope.

(** ** The index-lock wait *)

Lemma timeouts_retry (millis : double) (rest : list LockEvent) :
  timeouts (ExistsQuery true :: Timeout millis :: rest) = millis :: timeouts rest.
Proof. done. Qed.

Lemma queries_retry (millis : double) (rest : list LockEvent) :
  queries (ExistsQuery true :: Timeout millis :: rest) = true :: queries rest.
Proof. done. Qed.

Lemma whenUnlocked_loop_bounded lockExists millis retries :
  (length (timeouts (whenUnlocked_loop lockExists millis retries)) <= 10 - retries
   /\ length (queries (whenUnlocked_loop lockExists millis retries)) <= 10 - retries)%nat.
Proof.
  funelim (whenUnlocked_loop lockExists millis retries).
  - cbn. lia.
  - rewrite timeouts_retry, queries_retry. cbn [length]. lia.
  - cbn. lia.
Qed.

(** The literals: [100] is exact, and [1.4] is within half a unit in the
    last place, [2^-53], of 7/5. *)
Lemma double_literals :
  (double_value double_100 == 100)%Q
  /\ (Qabs (double_value double_1_4 - 7 / 5) <= 1 / 2 ^ 53)%Q.
Proof. split; [reflexivity|]. apply Qle_bool_iff. by vm_compute. Qed.

Lemma iter_shift {A} (f : A -> A) (n : nat) (x : A) :
  Nat.iter n f (f x) = Nat.iter (S n) f x.
Proof. induction n as [|n IH]; [done|]. simpl. by f_equal. Qed.

(** The wait variable after [n] retries. *)
Lemma whenUnlocked_loop_waits lockExists millis retries :
  forall k w,
    timeouts (whenUnlocked_loop lockExists millis retries) !! k = Some w ->
    w = Nat.iter (S k) (fun millis => double_mul millis double_1_4) millis.
Proof.
  funelim (whenUnlocked_loop lockExists millis retries); intros k w Hk.
  - done.
  - rewrite timeouts_retry in Hk. destruct k as [|k]; cbn [lookup list_lookup] in Hk.
    + by injection Hk as <-.
    + rewrite (H k w Hk).
      apply (iter_shift (fun millis => double_mul millis double_1_4) (S k) millis).
  - done.
Qed.

(** The ten waits of a lock that never goes away are within a relative
    error of [2^-52] of the powers of 1.4. *)
Lemma worst_waits_rounding (k : nat) :
  (k < 10)%nat ->
  (Qabs (double_value (Nat.iter (S k) (fun millis => double_mul millis double_1_4) double_100)
         - 100 * 1.4 ^ Z.of_nat (S k))
   <= 100 * 1.4 ^ Z.of_nat (S k) / 2 ^ 52)%Q.
Proof.
  intros Hk. do 10 (destruct k as [|k]; [apply Qle_bool_iff; by vm_compute|]). lia.
Qed.

Lemma whenUnlocked_loop_locked lockExists millis retries :
  (forall k, (k < 10)%nat -> lockExists k = true) ->
  length (timeouts (whenUnlocked_loop lockExists millis retries)) = (10 - retries)%nat
  /\ queries (whenUnlocked_loop lockExists millis retries) = replicate (10 - retries) true.
Proof.
  intros Hlocked. funelim (whenUnlocked_loop lockExists millis retries).
  - replace (10 - retries)%nat with 0%nat by lia. done.
  - rewrite timeouts_retry, queries_retry. cbn [length].
    destruct (H Hlocked) as [-> ->].
    replace (10 - retries)%nat with (S (10 - (retries + 1)))%nat by lia. done.
  - rewrite (Hlocked retries l) in Heq. discriminate.
Qed.

Lemma whenUnlocked_loop_unlocked lockExists millis retries :
  (retries < 10)%nat -> lockExists retries = false ->
  whenUnlocked_loop lockExists millis retries = [ExistsQuery false].
Proof.
  intros Hlt Hfree. funelim (whenUnlocked_loop lockExists millis retries).
  - lia.
  - congruence.
  - done.
Qed.

(** C7, amended. [whenUnlocked] always returns, after at most 10 retries: it
    makes at most 10 queries and at most 10 waits. The wait variable starts
    at 100 ms and is multiplied by 1.4, in double precision, before each
    wait: the first wait lasts 140 ms, the second 196 ms, and the wait of the
    k-th retry (k = 1, 2, ...) is 100 * 1.4^k ms up to the rounding of these
    multiplications, a relative error of at most 2^-52. When the lock file is
    there at every query, the loop gives up after the tenth wait without a
    further query. When it is absent at the first query there is no wait at
    all. *)
Theorem whenUnlocked_backoff (lockExists : nat -> bool) :
  (length (timeouts (whenUnlocked lockExists)) <= 10)%nat
  /\ (length (queries (whenUnlocked lockExists)) <= 10)%nat
  /\ (forall k w,
        timeouts (whenUnlocked lockExists) !! k = Some w ->
        w = Nat.iter (S k) (fun millis => double_mul millis double_1_4) double_100
        /\ (Qabs (double_value w - 100 * 1.4 ^ Z.of_nat (S k))
            <= 100 * 1.4 ^ Z.of_nat (S k) / 2 ^ 52)%Q)
  /\ (forall w, timeouts (whenUnlocked lockExists) !! 0%nat = Some w ->
                (double_value w == 140)%Q)
  /\ (forall w, timeouts (whenUnlocked lockExists) !! 1%nat = Some w ->
                (double_value w == 196)%Q)
  /\ ((forall k, (k < 10)%nat -> lockExists k = true) ->
      length (timeouts (whenUnlocked lockExists)) = 10%nat
      /\ queries (whenUnlocked lockExists) = replicate 10 true)
  /\ (lockExists 0%nat = false -> whenUnlocked lockExists = [ExistsQuery false]).
Proof.
  unfold whenUnlocked.
  pose proof (whenUnlocked_loop_bounded lockExists double_100 0) as [Ht Hq].
  split; [lia|]. split; [lia|]. split; [|split; [|split; [|split]]].
  - intros k w Hk.
    assert (k < 10)%nat by (apply lookup_lt_Some in Hk; lia).
    apply whenUnlocked_loop_waits in Hk as ->. split; [done|].
    by apply worst_waits_rounding.
  - intros w ->%whenUnlocked_loop_waits. by vm_compute.
  - intros w ->%whenUnlocked_loop_waits. by vm_compute.
  - intros Hlocked.
    by destruct (whenUnlocked_loop_locked lockExists double_100 0 Hlocked) as [-> ->].
  - intros H0. apply whenUnlocked_loop_unlocked; [lia | done].
Qed.

(** ** The sync counters *)

(** C9. The immediate update clamps at zero. With a non-zero expected delta,
    negative ones included, the counter becomes [max(0, counter + delta)] and
    the other counter is untouched; with a zero or omitted delta nothing
    changes. So a counter that is not negative stays so, and then equals
    [max(0, counter + delta)] for every delta. *)
Theorem immediate_update_clamps (syncCounts : SyncCounts) (expectedDelta : option Z) :
  let delta := default 0%Z expectedDelta in
  let inc := fst (countIncoming_immediate syncCounts expectedDelta) in
  let out := fst (countOutgoing_immediate syncCounts expectedDelta) in
  (delta <> 0%Z ->
     incoming inc = Z.max 0 (incoming syncCounts + delta)
     /\ outgoing out = Z.max 0 (outgoing syncCounts + delta))
  /\ (delta = 0%Z -> inc = syncCounts /\ out = syncCounts)
  /\ outgoing inc = outgoing syncCounts
  /\ incoming out = incoming syncCounts
  /\ ((0 <= incoming syncCounts)%Z ->
        incoming inc = Z.max 0 (incoming syncCounts + delta) /\ (0 <= incoming inc)%Z)
  /\ ((0 <= outgoing syncCounts)%Z ->
        outgoing out = Z.max 0 (outgoing syncCounts + delta) /\ (0 <= outgoing out)%Z).
Proof.
  cbv zeta. unfold countIncoming_immediate, countOutgoing_immediate, truthy_number.
  destruct (Z.eqb_spec (default 0%Z expectedDelta) 0) as [->|Hne]; cbn.
  - rewrite !Z.add_0_r. repeat split; try done; lia.
  - repeat split; try done; lia.
Qed.

(** * Instances and counterexamples *)

Lemma constructed_staged_a : constructed staged_a.
Proof. vm_compute. reflexivity. Defined.

(** Instance of C1: the mid-merge pass over three files. The modified and
    resolved [a.txt] lands in merge although it was staged, the unknown
    [n.txt] in untracked, the unresolved [c.txt] in conflict. *)
Lemma groupStatuses_routing_precedence_witness :
  exists gs,
    groupStatuses posix_file_uri only_c_exists merge_params = Ok gs
    /\ mkResource merge "file:///repo/a.txt" MODIFIED RESOLVED None ∈ _resources (g_merge gs)
    /\ mkResource untracked "file:///repo/n.txt" UNTRACKED NONE None
       ∈ _resources (g_untracked gs)
    /\ mkResource conflict "file:///repo/c.txt" CLEAN UNRESOLVED None
       ∈ _resources (g_conflict gs).
Proof.
  destruct (groupStatuses posix_file_uri only_c_exists merge_params) as [gs|e] eqn:Hg;
    [|vm_compute in Hg; discriminate].
  exists gs. split; [reflexivity|].
  destruct (groupStatuses_routing_precedence posix_file_uri only_c_exists merge_params gs
              constructed_staged_a Hg) as (_ & H1 & H2).
  split; [|split].
  - destruct (H1 (mkFileStatus "M" "a.txt" None)) as (st & Hc & Hin).
    { apply elem_of_cons. left. reflexivity. }
    vm_compute in Hc. injection Hc as _ Hst. subst st. exact Hin.
  - destruct (H1 (mkFileStatus "?" "n.txt" None)) as (st & Hc & Hin).
    { apply elem_of_cons. right. apply elem_of_cons. left. reflexivity. }
    vm_compute in Hc. injection Hc as _ Hst. subst st. exact Hin.
  - destruct (H2 (mkFileStatus "U" "c.txt" None)) as (st & Hc & Hin).
    { vm_compute. apply elem_of_cons. left. reflexivity. }
    vm_compute in Hc. injection Hc as _ Hst. subst st. exact Hin.
Defined.



(** Instance of C4: [a.txt] is in both lists of the mid-merge pass and has a
    single resource; [c.txt] is only in the resolution list and is
    synthesized as CLEAN, since it exists on disk. *)
Lemma groupStatuses_second_pass_witness :
  exists gs,
    groupStatuses posix_file_uri only_c_exists merge_params = Ok gs
    /\ length (filter (fun r => original r = "file:///repo/a.txt") (all_resources gs)) = 1%nat
    /\ mkResource conflict "file:///repo/c.txt" CLEAN UNRESOLVED None
       ∈ _resources (g_conflict gs).
Proof.
  destruct (groupStatuses posix_file_uri only_c_exists merge_params) as [gs|e] eqn:Hg;
    [|vm_compute in Hg; discriminate].
  exists gs. split; [reflexivity|].
  destruct (groupStatuses_second_pass posix_file_uri only_c_exists merge_params gs
              constructed_staged_a Hg) as (Hmissed & _ & Honce).
  split.
  - apply Honce.
    + apply (bool_decide_unpack _). vm_compute. exact I.
    + apply elem_of_cons. left. reflexivity.
  - destruct (Hmissed (mkFileStatus "U" "c.txt" None)) as (dest & st & -> & Hc & Hin).
    { vm_compute. apply elem_of_cons. left. reflexivity. }
    vm_compute in Hc. injection Hc as <-. exact Hin.
Defined.

(** C6 as stated fails: with [Status] already running, [start(Status)] then
    [end(Status)] yields the idle tracker, not the receiver. *)
Lemma tracker_start_end_counterexample :
  reachable status_running
  /\ end_ (start status_running Operation.Status) Operation.Status <> status_running
  /\ isIdle status_running = false
  /\ isIdle (end_ (start status_running Operation.Status) Operation.Status) = true.
Proof.
  split; [apply reachable_start, reachable_new|]. split; [|by vm_compute].
  intros H. apply (f_equal operations) in H. vm_compute in H. discriminate.
Qed.

(** Instance of C6, amended: [Add] is not running while [Status] is, and
    starting then ending it restores the tracker. *)
Lemma tracker_start_end_witness :
  end_ (start status_running Operation.Add) Operation.Add = status_running
  /\ isRunning status_running Operation.Status = true.
Proof.
  destruct (tracker_start_end status_running Operation.Add) as (_ & _ & Hrestore & _).
  - apply reachable_start, reachable_new.
  - split; [apply Hrestore|]; vm_compute; reflexivity.
Defined.

(** C7 as stated fails on the initial wait: with the lock file present the
    first wait lasts 140 ms, not 100 ms. *)
Lemma whenUnlocked_backoff_counterexample :
  exists w,
    timeouts (whenUnlocked (fun _ => true)) !! 0%nat = Some w
    /\ (double_value w == 140)%Q /\ ~ (double_value w == 100)%Q.
Proof. eexists. split; [vm_compute; reflexivity|]. split; [reflexivity | discriminate]. Qed.

(** The power of 1.4 is not reached exactly: the fourth wait of a lock that
    stays is 384.15999999999997 ms in double precision, a little less than
    100 * 1.4^4 = 384.16. *)
Example fourth_wait_is_rounded :
  exists w,
    timeouts (whenUnlocked (fun _ => true)) !! 3%nat = Some w
    /\ (384.15999999999996 < double_value w)%Q
    /\ (double_value w < 384.15999999999998)%Q
    /\ ~ (double_value w == 100 * 1.4 ^ 4)%Q.
Proof.
  eexists. split; [vm_compute; reflexivity|].
  split; [reflexivity|]. split; [reflexivity|]. discriminate.
Qed.

(** Instance of C7, amended: a lock file that never goes away costs ten
    waits, then the caller proceeds. *)
Lemma whenUnlocked_backoff_witness :
  length (timeouts (whenUnlocked (fun _ => true))) = 10%nat
  /\ queries (whenUnlocked (fun _ => true)) = replicate 10 true.
Proof.
  apply (proj1 (proj2 (proj2 (proj2 (proj2 (proj2 (whenUnlocked_backoff (fun _ => true)))))))).
  intros k _. reflexivity.
Defined.

(** Instance of C9: two incoming changesets and an expected delta of -5. *)
Lemma immediate_update_clamps_witness :
  incoming (fst (countIncoming_immediate (mkSyncCounts 2 3) (Some (-5)%Z))) = 0%Z
  /\ outgoing (fst (countOutgoing_immediate (mkSyncCounts 2 3) (Some (-5)%Z))) = 0%Z.
Proof.
  destruct (immediate_update_clamps (mkSyncCounts 2 3) (Some (-5)%Z)) as (Hnz & _).
  apply Hnz. discriminate.
Defined.

(** Instance of C10: the code X in a resolution record, fatal as a raw
    status, is merge status NONE. *)
Lemma toMergeStatus_total_witness :
  toMergeStatus "X" = NONE
  /\ exists message, toStatus "X" false = Throw (HgError message).
Proof.
  destruct (toMergeStatus_total posix_file_uri only_c_exists)
    as (_ & _ & _ & Hnone & _ & Hfatal).
  split.
  - apply Hnone; discriminate.
  - apply Hfatal. intros Hin. apply (bool_decide_pack _) in Hin. vm_compute in Hin. exact Hin.
Defined.

(** ** The scenarios of the specification *)

(** Scenario A: one modified file, no merge, nothing staged. *)
Example scenario_A :
  exists gs,
    groupStatuses posix_file_uri only_c_exists
      (mkParams "/repo" createEmptyStatusGroups [mkFileStatus "M" "a.txt" None]
                (mkRepoStatus false) None) = Ok gs
    /\ _resources (g_working gs) = [mkResource working "file:///repo/a.txt" MODIFIED NONE None]
    /\ _resources (g_staging gs) = [] /\ _resources (g_merge gs) = []
    /\ _resources (g_conflict gs) = [] /\ _resources (g_untracked gs) = [].
Proof. eexists. split; [vm_compute; reflexivity|]. by vm_compute. Qed.

(** Scenario B: the same file, previously staged. *)
Example scenario_B :
  exists gs,
    groupStatuses posix_file_uri only_c_exists
      (mkParams "/repo" groups_staged_a [mkFileStatus "M" "a.txt" None]
                (mkRepoStatus false) None) = Ok gs
    /\ _resources (g_staging gs) = [mkResource staging "file:///repo/a.txt" MODIFIED NONE None]
    /\ _resources (g_working gs) = [].
Proof. eexists. split; [vm_compute; reflexivity|]. by vm_compute. Qed.

(** Scenario C: an added file with a rename source is RENAMED, and its
    effective location is the rename source. *)
Example scenario_C :
  exists gs r,
    groupStatuses posix_file_uri only_c_exists
      (mkParams "/repo" createEmptyStatusGroups [mkFileStatus "A" "b.txt" (Some "a.txt")]
                (mkRepoStatus false) None) = Ok gs
    /\ _resources (g_working gs) = [r]
    /\ _status r = RENAMED
    /\ original r = "file:///repo/b.txt"
    /\ resourceUri r = Ok "file:///repo/a.txt".
Proof. eexists _, _. split; [vm_compute; reflexivity|]. by vm_compute. Qed.

(** Scenario D: mid-merge, a file known only to the resolution list. *)
Example scenario_D :
  exists gs,
    groupStatuses posix_file_uri only_c_exists
      (mkParams "/repo" createEmptyStatusGroups [] (mkRepoStatus true)
                (Some [mkFileStatus "U" "c.txt" None; mkFileStatus "U" "d.txt" None])) = Ok gs
    /\ _resources (g_conflict gs)
       = [mkResource conflict "file:///repo/c.txt" CLEAN UNRESOLVED None;
          mkResource conflict "file:///repo/d.txt" DELETED UNRESOLVED None].
Proof. eexists. split; [vm_compute; reflexivity|]. by vm_compute. Qed.

(** * Further properties *)

(** ** Resource groups: lookup, recombination, staging *)

Lemma getResource_valid (G : ResourceGroup) (uri : Uri) :
  Forall valid (_resources G) ->
  getResource G uri = Ok (head (filter (fun r => effective r = uri) (_resources G))).
Proof.
  intros Hv. unfold getResource.
  erewrite (filterM_pure _ (fun r => effective r = uri)); [done|].
  eapply Forall_impl; [exact Hv|]. intros r Hr. cbn. by rewrite (resourceUri_valid r Hr).
Qed.

Lemma head_filter_split {A} (P : A -> Prop) `{!forall x, Decision (P x)} (l : list A) (x : A) :
  head (filter P l) = Some x ->
  exists l1 l2, l = l1 ++ x :: l2 /\ P x /\ Forall (fun y => ~ P y) l1.
Proof.
  induction l as [|a l IH]; [done|]. rewrite filter_cons.
  destruct (decide (P a)) as [Ha|Ha]; cbn.
  - intros [= <-]. exists [], l. by repeat split.
  - intros Hhead. destruct (IH Hhead) as (l1 & l2 & -> & Hx & Hl1).
    exists (a :: l1), l2. repeat split; [done|]. by constructor.
Qed.

Lemma head_filter_None {A} (P : A -> Prop) `{!forall x, Decision (P x)} (l : list A) :
  head (filter P l) = None <-> Forall (fun y => ~ P y) l.
Proof.
  induction l as [|a l IH]; [by split; [constructor|]|]. rewrite filter_cons.
  destruct (decide (P a)) as [Ha|Ha]; cbn.
  - split; [done|]. by intros [? _]%Forall_cons.
  - rewrite IH. split; [by constructor | by intros [_ ?]%Forall_cons].
Qed.

Lemma filter_nil_iff_Forall {A} (P : A -> Prop) `{!forall x, Decision (P x)} (l : list A) :
  filter P l = [] <-> Forall (fun y => ~ P y) l.
Proof.
  induction l as [|a l IH]; [by split; [constructor|]|]. rewrite filter_cons.
  destruct (decide (P a)) as [Ha|Ha].
  - split; [done|]. by intros [? _]%Forall_cons.
  - rewrite IH. split; [by constructor | by intros [_ ?]%Forall_cons].
Qed.

Lemma filter_True_iff_Forall {A} (P : A -> Prop) `{!forall x, Decision (P x)} (l : list A) :
  filter P l = l <-> Forall P l.
Proof.
  induction l as [|a l IH]; [by split; [constructor|]|]. rewrite filter_cons.
  destruct (decide (P a)) as [Ha|Ha].
  - split.
    + intros [= Heq]. constructor; [done|]. by apply IH.
    + intros [_ Hl]%Forall_cons. f_equal. by apply IH.
  - split; [|by intros [? _]%Forall_cons].
    intros Heq. exfalso. pose proof (length_filter P l) as Hlen.
    rewrite Heq in Hlen. cbn in Hlen. lia.
Qed.

(** X1. The index and the resource array of a group built by its
    constructor agree: [getResource] never throws, finds a resource exactly
    at the locations [includesUri] accepts, and what it finds is the first
    resource of the array at that location. *)
Theorem getResource_includesUri (G : ResourceGroup) (uri : Uri) :
  constructed G ->
  exists found,
    getResource G uri = Ok found
    /\ (is_Some found <-> includesUri G uri = true)
    /\ forall r, found = Some r ->
         resourceUri r = Ok uri
         /\ exists before after,
              _resources G = before ++ r :: after
              /\ Forall (fun r' => resourceUri r' <> Ok uri) before.
Proof.
  intros HG. pose proof (constructed_valid G HG) as Hv.
  rewrite (getResource_valid G uri Hv). eexists. split; [done|]. split.
  - rewrite (constructed_includesUri G uri HG), list_elem_of_fmap. split.
    + intros [r Hr]. destruct (head_filter_split _ _ _ Hr) as (l1 & l2 & Hl & <- & _).
      exists r. split; [done|]. rewrite Hl. apply elem_of_app. right. apply elem_of_cons. by left.
    + intros (r & -> & Hr).
      destruct (head (filter _ _)) eqn:Hh; [by eexists|].
      apply head_filter_None in Hh. by destruct (proj1 (Forall_forall _ _) Hh r Hr).
  - intros r Hr. destruct (head_filter_split _ _ _ Hr) as (l1 & l2 & Hl & <- & Hl1).
    assert (valid r) as Hvr.
    { apply (proj1 (Forall_forall _ _) Hv). rewrite Hl. apply elem_of_app. right.
      apply elem_of_cons. by left. }
    split; [by apply resourceUri_valid|]. exists l1, l2. split; [done|].
    eapply Forall_impl; [exact Hl1|]. intros r' Hne Heq. cbn in Hne.
    apply resourceUri_Ok in Heq as [_ Heq]. congruence.
Qed.

Lemma new_ResourceGroup_constructed id rs :
  Forall valid rs ->
  exists G, new_ResourceGroup id rs = Ok G /\ constructed G /\ _id G = id
            /\ _resources G = rs.
Proof.
  intros Hv. destruct (new_ResourceGroup_valid id rs Hv) as (G & HG & _).
  exists G. split; [done|]. by destruct (new_ResourceGroup_Ok _ _ _ HG) as (_ & ? & ? & ? & _).
Qed.

Lemma constructed_eq G1 G2 :
  constructed G1 -> constructed G2 -> _id G1 = _id G2 -> _resources G1 = _resources G2 ->
  G1 = G2.
Proof. unfold constructed. intros H1 H2 Hid Hrs. rewrite Hid, Hrs in H1. congruence. Qed.

Lemma except_constructed G L :
  constructed G -> Forall valid L ->
  exists E, except G L = Ok E /\ constructed E /\ _id E = _id G
    /\ _resources E = filter (fun r => effective r ∉ map effective L) (_resources G).
Proof.
  intros HG HL. destruct (except_valid G L HG HL) as (E & HE & Hid & Hrs & _).
  exists E. split; [done|]. split; [|done].
  unfold except in HE. ok_bind HE as idx Hidx. ok_bind HE as rem Hrem.
  by destruct (new_ResourceGroup_Ok _ _ _ HE) as (_ & _ & _ & ? & _).
Qed.

Lemma intersect_constructed G L :
  constructed G -> Forall valid L ->
  exists I, intersect G L = Ok I /\ constructed I /\ _id I = _id G
    /\ _resources I =
         _resources G ++ map (rehomed G) (filter (fun r => includes G r = Ok false) L).
Proof.
  intros HG HL. destruct (intersect_valid G L HG HL) as (I & HI & Hid & Hrs & _).
  exists I. split; [done|]. split; [|done].
  unfold intersect in HI. ok_bind HI as kept Hkept. ok_bind HI as new Hnew.
  by destruct (new_ResourceGroup_Ok _ _ _ HI) as (_ & _ & _ & ? & _).
Qed.

Lemma intersect_inv_valid G L I : intersect G L = Ok I -> Forall valid L.
Proof.
  unfold intersect. intros H. ok_bind H as kept Hkept. clear H.
  revert kept Hkept. induction L as [|r L IH]; intros kept Hkept; [constructor|].
  cbn [filterM] in Hkept. ok_bind Hkept as b Hb. ok_bind Hkept as rest Hrest.
  ok_bind Hb as b' Hb'. unfold includes in Hb'. ok_bind Hb' as u Hu.
  apply resourceUri_Ok in Hu as [Hv _]. constructor; eauto.
Qed.

Lemma includes_false_iff G r :
  constructed G -> valid r ->
  includes G r = Ok false <-> effective r ∉ map effective (_resources G).
Proof.
  intros HG Hr. rewrite (includes_valid G r Hr), <- (constructed_includesUri G _ HG).
  destruct (includesUri G (effective r)).
  - split; [discriminate | intros Hn; by destruct Hn].
  - split; [intros _; discriminate | done].
Qed.

(** X2. Recombination composes. For a group [G] built by its constructor and
    resources [L] with defined locations: intersecting the result of
    [G.intersect(L)] with [L] again changes nothing, removing [L] again from
    [G.except(L)] changes nothing, and removing [L] from [G.intersect(L)]
    gives [G.except(L)]. *)
Theorem recombination_composes (G : ResourceGroup) (L : list Resource) :
  constructed G ->
  Forall (fun r => is_Ok (resourceUri r)) L ->
  exists I E,
    intersect G L = Ok I /\ except G L = Ok E
    /\ intersect I L = Ok I
    /\ except E L = Ok E
    /\ except I L = Ok E.
Proof.
  intros HG HL%Forall_valid_is_Ok.
  destruct (intersect_constructed G L HG HL) as (I & HI & HcI & HidI & HrsI).
  destruct (except_constructed G L HG HL) as (E & HE & HcE & HidE & HrsE).
  exists I, E. split; [done|]. split; [done|].
  assert (forall r, r ∈ L -> effective r ∈ map effective (_resources I)) as HLI.
  { intros r Hr. rewrite HrsI, map_app. apply elem_of_app.
    destruct (decide (effective r ∈ map effective (_resources G))) as [|Hout]; [by left|].
    right. rewrite <- (rehomed_effective G r).
    apply elem_of_map_effective, list_elem_of_fmap. exists r. split; [done|].
    apply list_elem_of_filter. split; [|done]. apply includes_false_iff; [done| |done].
    by apply (proj1 (Forall_forall _ _) HL). }
  split; [|split].
  - destruct (intersect_constructed I L HcI HL) as (I' & HI' & HcI' & HidI' & HrsI').
    rewrite HI'. f_equal. apply constructed_eq; [done..|].
    rewrite HrsI'. rewrite (proj2 (filter_nil_iff_Forall _ L)); [by rewrite app_nil_r|].
    apply Forall_forall. intros r Hr Hfalse.
    apply includes_false_iff in Hfalse; [|done|by apply (proj1 (Forall_forall _ _) HL)].
    by apply Hfalse, HLI.
  - destruct (except_constructed E L HcE HL) as (E' & HE' & HcE' & HidE' & HrsE').
    rewrite HE'. f_equal. apply constructed_eq; [done|done|congruence|].
    rewrite HrsE', HrsE. by rewrite list_filter_filter, (list_filter_iff _ (fun r => effective r ∉ map effective L))
      by (intros r; tauto).
  - destruct (except_constructed I L HcI HL) as (E' & HE' & HcE' & HidE' & HrsE').
    rewrite HE'. f_equal. apply constructed_eq; [done|done|congruence|].
    rewrite HrsE', HrsE, HrsI, filter_app.
    rewrite (proj2 (filter_nil_iff_Forall _ (map (rehomed G) _))); [by rewrite app_nil_r|].
    apply Forall_forall. intros r' (r & -> & [_ Hr]%list_elem_of_filter)%list_elem_of_fmap Hnot.
    apply Hnot. rewrite rehomed_effective. by apply elem_of_map_effective.
Qed.

Lemma NoDup_map_filter {A B} (f : A -> B) (P : A -> Prop) `{!forall x, Decision (P x)}
    (l : list A) :
  NoDup (map f l) -> NoDup (map f (filter P l)).
Proof.
  induction l as [|a l IH]; [done|]. cbn [map]. intros [Hna Hnd]%NoDup_cons.
  rewrite filter_cons. destruct (decide (P a)); [|by apply IH].
  cbn [map]. apply NoDup_cons. split; [|by apply IH].
  intros (x & Hfx & [_ Hx]%list_elem_of_filter)%list_elem_of_fmap.
  apply Hna. rewrite Hfx. apply list_elem_of_fmap. eauto.
Qed.

Lemma located_iff (u : Uri) (L : list Resource) :
  Forall valid L ->
  u ∈ map effective L <-> exists r, r ∈ L /\ resourceUri r = Ok u.
Proof.
  intros HL. rewrite list_elem_of_fmap. split.
  - intros (r & -> & Hr). exists r. split; [done|].
    apply resourceUri_valid. by apply (proj1 (Forall_forall _ _) HL).
  - intros (r & Hr & Hu). exists r. split; [|done]. by apply resourceUri_Ok in Hu as [_ ->].
Qed.

Lemma except_includesUri G L E (u : Uri) :
  constructed G -> Forall valid L -> except G L = Ok E ->
  includesUri E u = true <-> includesUri G u = true /\ u ∉ map effective L.
Proof.
  intros HG HL HE.
  destruct (except_constructed G L HG HL) as (E' & HE' & HcE & _ & Hrs).
  assert (E' = E) as -> by congruence.
  rewrite (constructed_includesUri E u HcE), (constructed_includesUri G u HG), Hrs.
  split.
  - intros (r & -> & [Hnot Hr]%list_elem_of_filter)%list_elem_of_fmap.
    split; [by apply elem_of_map_effective | done].
  - intros [(r & -> & Hr)%list_elem_of_fmap Hnot].
    apply elem_of_map_effective. by apply list_elem_of_filter.
Qed.

Lemma intersect_includesUri G L I (u : Uri) :
  constructed G -> Forall valid L -> intersect G L = Ok I ->
  includesUri I u = true <-> includesUri G u = true \/ u ∈ map effective L.
Proof.
  intros HG HL HI.
  destruct (intersect_constructed G L HG HL) as (I' & HI' & HcI & _ & Hrs).
  assert (I' = I) as -> by congruence.
  rewrite (constructed_includesUri I u HcI), (constructed_includesUri G u HG), Hrs.
  rewrite map_app, elem_of_app. split.
  - intros [?|(r' & -> & (r & -> & [_ Hr]%list_elem_of_filter)%list_elem_of_fmap)%list_elem_of_fmap];
      [by left|]. right. rewrite rehomed_effective. by apply elem_of_map_effective.
  - intros [?|(r & -> & Hr)%list_elem_of_fmap]; [by left|].
    destruct (decide (effective r ∈ map effective (_resources G))) as [|Hout]; [by left|].
    right. rewrite <- (rehomed_effective G r).
    apply elem_of_map_effective, list_elem_of_fmap. exists r. split; [done|].
    apply list_elem_of_filter. split; [|done]. apply includes_false_iff; [done| |done].
    by apply (proj1 (Forall_forall _ _) HL).
Qed.

(** X3. Recombination keeps locations distinct. If no two resources of a
    group built by its constructor share a location, the same holds of
    [G.except(L)], and of [G.intersect(L)] when no two elements of [L] share
    one. *)
Theorem recombination_keeps_distinct (G : ResourceGroup) (L : list Resource) :
  constructed G ->
  Forall (fun r => is_Ok (resourceUri r)) L ->
  NoDup (map effective (_resources G)) ->
  (forall E, except G L = Ok E -> NoDup (map effective (_resources E)))
  /\ (NoDup (map effective L) ->
      forall I, intersect G L = Ok I -> NoDup (map effective (_resources I))).
Proof.
  intros HG HL%Forall_valid_is_Ok HndG. split.
  - intros E HE. destruct (except_constructed G L HG HL) as (E' & HE' & _ & _ & Hrs).
    assert (E' = E) as -> by congruence. rewrite Hrs. by apply NoDup_map_filter.
  - intros HndL I HI.
    destruct (intersect_constructed G L HG HL) as (I' & HI' & _ & _ & Hrs).
    assert (I' = I) as -> by congruence. rewrite Hrs, map_app.
    apply NoDup_app. split; [done|]. split.
    + intros u Hu (r' & -> & (r & -> & [Hfalse Hr]%list_elem_of_filter)%list_elem_of_fmap)%list_elem_of_fmap.
      rewrite rehomed_effective in Hu.
      apply includes_false_iff in Hfalse; [done|done|].
      by apply (proj1 (Forall_forall _ _) HL).
    + rewrite map_map. rewrite (map_ext _ effective) by (intros; apply rehomed_effective).
      by apply NoDup_map_filter.
Qed.

(** ** Staging and unstaging *)

Lemma stage_recombine_Ok groups L :
  constructed (g_staging groups) -> constructed (g_working groups) -> Forall valid L ->
  exists s w,
    intersect (g_staging groups) L = Ok s /\ except (g_working groups) L = Ok w
    /\ constructed s /\ constructed w
    /\ stage_recombine groups L = (set_working (set_staging groups s) w, Ok tt).
Proof.
  intros Hs Hw HL.
  destruct (intersect_constructed _ L Hs HL) as (s & Hint & Hcs & _).
  destruct (except_constructed _ L Hw HL) as (w & Hexc & Hcw & _).
  exists s, w. repeat (split; [done|]).
  unfold stage_recombine. rewrite Hint. cbn [g_working set_staging]. by rewrite Hexc.
Qed.

Lemma unstage_Ok groups L :
  constructed (g_staging groups) -> constructed (g_working groups) -> L <> [] ->
  Forall valid L ->
  exists s w,
    except (g_staging groups) L = Ok s /\ intersect (g_working groups) L = Ok w
    /\ constructed s /\ constructed w
    /\ unstage groups L = (set_working (set_staging groups s) w, Ok tt).
Proof.
  intros Hs Hw Hne HL.
  destruct (except_constructed _ L Hs HL) as (s & Hexc & Hcs & _).
  destruct (intersect_constructed _ L Hw HL) as (w & Hint & Hcw & _).
  exists s, w. repeat (split; [done|]).
  unfold unstage. destruct L; [done|]. cbn [length Nat.eqb]. rewrite Hexc.
  cbn [g_working set_staging]. by rewrite Hint.
Qed.

(** X4. What [stage] does to the groups. On staging and working groups built
    by their constructors and resources with defined locations, the
    recombination succeeds and touches only those two groups: staging then
    includes exactly what it included before plus the locations of the
    resources, working exactly what it included before minus those
    locations. So every staged resource is in staging and none is left in
    working, and two groups that shared no location still share none. *)
Theorem stage_recombine_membership (groups : IStatusGroups) (resources : list Resource) :
  constructed (g_staging groups) ->
  constructed (g_working groups) ->
  Forall (fun r => is_Ok (resourceUri r)) resources ->
  exists groups',
    stage_recombine groups resources = (groups', Ok tt)
    /\ g_conflict groups' = g_conflict groups
    /\ g_merge groups' = g_merge groups
    /\ g_untracked groups' = g_untracked groups
    /\ constructed (g_staging groups') /\ constructed (g_working groups')
    /\ (forall u,
          includesUri (g_staging groups') u = true <->
          includesUri (g_staging groups) u = true
          \/ exists r, r ∈ resources /\ resourceUri r = Ok u)
    /\ (forall u,
          includesUri (g_working groups') u = true <->
          includesUri (g_working groups) u = true
          /\ ~ exists r, r ∈ resources /\ resourceUri r = Ok u)
    /\ (forall r, r ∈ resources ->
          includes (g_staging groups') r = Ok true /\ includes (g_working groups') r = Ok false)
    /\ ((forall u, includesUri (g_staging groups) u = true ->
                   includesUri (g_working groups) u = false) ->
        forall u, includesUri (g_staging groups') u = true ->
                  includesUri (g_working groups') u = false).
Proof.
  intros Hs Hw HL%Forall_valid_is_Ok.
  destruct (stage_recombine_Ok groups resources Hs Hw HL) as (s & w & Hint & Hexc & Hcs & Hcw & ->).
  eexists. split; [done|]. cbn. repeat (split; [done|]).
  assert (forall u, includesUri s u = true <->
            includesUri (g_staging groups) u = true
            \/ exists r, r ∈ resources /\ resourceUri r = Ok u) as HS.
  { intros u. by rewrite (intersect_includesUri _ _ _ u Hs HL Hint), (located_iff u _ HL). }
  assert (forall u, includesUri w u = true <->
            includesUri (g_working groups) u = true
            /\ ~ exists r, r ∈ resources /\ resourceUri r = Ok u) as HW.
  { intros u. by rewrite (except_includesUri _ _ _ u Hw HL Hexc), (located_iff u _ HL). }
  split; [done|]. split; [done|]. split.
  - intros r Hr. assert (valid r) as Hv by by apply (proj1 (Forall_forall _ _) HL).
    rewrite !includes_valid by done. split; f_equal.
    + apply HS. right. exists r. split; [done|]. by apply resourceUri_valid.
    + apply not_true_is_false. intros [_ Hnot]%HW. apply Hnot.
      exists r. split; [done|]. by apply resourceUri_valid.
  - intros Hdisj u [Hu|Hu]%HS; apply not_true_is_false; intros [Hwu Hnot]%HW.
    + rewrite (Hdisj u Hu) in Hwu. discriminate.
    + by apply Hnot.
Qed.

Lemma except_inv_valid G L E : except G L = Ok E -> Forall valid L.
Proof.
  unfold except, indexResources. intros H. ok_bind H as idx Hidx.
  by apply index_fold_inv in Hidx.
Qed.

(** X5. Staging and unstaging are all-or-nothing. With a working group built
    by its constructor, a [stage] or [unstage] that throws leaves both groups
    as they were: the first assignment only succeeds on resources on which
    the second cannot fail. *)
Theorem stage_unstage_atomic (groups : IStatusGroups) (resources : list Resource) :
  constructed (g_working groups) ->
  (forall groups' e, stage_recombine groups resources = (groups', Throw e) -> groups' = groups)
  /\ (forall groups' e, unstage groups resources = (groups', Throw e) -> groups' = groups).
Proof.
  intros Hw. split; intros groups' e.
  - unfold stage_recombine.
    destruct (intersect (g_staging groups) resources) as [s|e1] eqn:Hint; [|by intros [= <- _]].
    cbn [g_working set_staging].
    destruct (except_constructed _ resources Hw (intersect_inv_valid _ _ _ Hint))
      as (w & -> & _). discriminate.
  - unfold unstage.
    set (L := if (length resources =? 0)%nat then _ else _).
    destruct (except (g_staging groups) L) as [s|e1] eqn:Hexc; [|by intros [= <- _]].
    cbn [g_working set_staging].
    destruct (intersect_constructed _ L Hw (except_inv_valid _ _ _ Hexc)) as (w & -> & _).
    discriminate.
Qed.


(** X7. Unstaging undoes staging. Take resources (at least one) that the
    working group includes and the staging group does not, stage them and
    unstage them again: the staging group is back exactly as it was, and the
    working group includes exactly the locations it included before. *)
Theorem stage_then_unstage (groups : IStatusGroups) (resources : list Resource) :
  constructed (g_staging groups) ->
  constructed (g_working groups) ->
  resources <> [] ->
  (forall r, r ∈ resources ->
     includes (g_working groups) r = Ok true /\ includes (g_staging groups) r = Ok false) ->
  exists staged unstaged,
    stage_recombine groups resources = (staged, Ok tt)
    /\ unstage staged resources = (unstaged, Ok tt)
    /\ g_staging unstaged = g_staging groups
    /\ forall u, includesUri (g_working unstaged) u = includesUri (g_working groups) u.
Proof.
  intros Hs Hw Hne Hin.
  assert (Forall valid resources) as HL.
  { apply Forall_forall. intros r Hr. destruct (Hin r Hr) as [Hinc _].
    unfold includes in Hinc. ok_bind Hinc as u Hu. by apply resourceUri_Ok in Hu as [? _]. }
  destruct (stage_recombine_Ok groups resources Hs Hw HL)
    as (s & w & Hint & Hexc & Hcs & Hcw & ->).
  destruct (unstage_Ok (set_working (set_staging groups s) w) resources Hcs Hcw Hne HL)
    as (s2 & w2 & Hexc2 & Hint2 & Hcs2 & Hcw2 & Hun).
  cbn [g_staging g_working set_working set_staging] in Hexc2, Hint2.
  eexists _, _. split; [done|]. split; [exact Hun|].
  cbn [g_staging g_working set_working set_staging]. split.
  - apply constructed_eq; [done|done|..].
    + destruct (except_constructed _ _ Hcs HL) as (s2' & Hs2' & _ & Hid2 & _).
      destruct (intersect_constructed _ _ Hs HL) as (s' & Hs' & _ & Hid & _).
      congruence.
    + destruct (except_constructed _ _ Hcs HL) as (s2' & Hs2' & _ & _ & Hrs2).
      destruct (intersect_constructed _ _ Hs HL) as (s' & Hs' & _ & _ & Hrs).
      assert (s2' = s2) as -> by congruence. assert (s' = s) as -> by congruence.
      rewrite Hrs2, Hrs, filter_app.
      rewrite (proj2 (filter_nil_iff_Forall _ (map (rehomed _) _))), app_nil_r.
      * apply (proj2 (filter_True_iff_Forall _ _)). apply Forall_forall. intros r Hr Hloc.
        apply list_elem_of_fmap in Hloc as (r0 & Heq & Hr0).
        destruct (Hin r0 Hr0) as [_ Hfalse].
        apply includes_false_iff in Hfalse; [|done|by apply (proj1 (Forall_forall _ _) HL)].
        apply Hfalse. rewrite <- Heq. by apply elem_of_map_effective.
      * apply Forall_forall.
        intros r' (r & -> & [_ Hr]%list_elem_of_filter)%list_elem_of_fmap Hnot.
        apply Hnot. rewrite rehomed_effective. by apply elem_of_map_effective.
  - intros u. apply eq_true_iff_eq.
    rewrite (intersect_includesUri _ _ _ u Hcw HL Hint2),
      (except_includesUri _ _ _ u Hw HL Hexc). split.
    + intros [[? _]|(r & -> & Hr)%list_elem_of_fmap]; [done|].
      destruct (Hin r Hr) as [Htrue _].
      rewrite includes_valid in Htrue by by apply (proj1 (Forall_forall _ _) HL).
      by injection Htrue.
    + intros Hu. destruct (decide (u ∈ map effective resources)); [by right | by left].
Qed.

(** ** Finding a tracked resource, restaging after a rollback, cleaning *)

Lemma find_resource_valid (u : string) (rs : list Resource) :
  Forall valid rs ->
  find_resource u rs = Ok (head (filter (fun r => effective r = u) rs)).
Proof.
  induction 1 as [|r rs Hr _ IH]; [done|].
  cbn [find_resource]. rewrite (resourceUri_valid r Hr), filter_cons. cbn.
  destruct (decide (effective r = u)) as [Heq|Hne].
  - by rewrite bool_decide_true.
  - by rewrite bool_decide_false.
Qed.

Lemma find_in_groups_valid (u : string) (groups : list ResourceGroup) :
  Forall (fun g => Forall valid (_resources g)) groups ->
  find_in_groups u groups
  = Ok (head (filter (fun r => effective r = u) (concat (map _resources groups)))).
Proof.
  induction 1 as [|g groups Hg _ IH]; [done|].
  cbn [find_in_groups map concat]. rewrite (find_resource_valid u _ Hg), filter_app. cbn.
  destruct (filter (fun r => effective r = u) (_resources g)) as [|r l]; [exact IH | done].
Qed.

(** The groups [findTrackedResourceByUri] searches, in its order. *)
Lemma findTrackedResourceByUri_valid (groups : IStatusGroups) (uri : Uri) :
  constructed (g_working groups) -> constructed (g_staging groups) ->
  constructed (g_merge groups) -> constructed (g_conflict groups) ->
  findTrackedResourceByUri groups uri
  = Ok (head (filter (fun r => effective r = uri)
                (_resources (g_working groups) ++ _resources (g_staging groups)
                   ++ _resources (g_merge groups) ++ _resources (g_conflict groups)))).
Proof.
  intros Hw Hs Hm Hc. unfold findTrackedResourceByUri.
  rewrite find_in_groups_valid.
  - cbn [map concat]. by rewrite app_nil_r.
  - repeat constructor; by apply constructed_valid.
Qed.

(** X8. [findTrackedResourceByUri] on groups built by their constructors
    never throws. It finds nothing exactly when none of working, staging,
    merge and conflict includes the location; what it finds is a resource of
    one of those four at that location, from the working group whenever that
    one includes it. The untracked group is never searched. *)
Theorem findTrackedResourceByUri_spec (groups : IStatusGroups) (uri : Uri) :
  constructed (g_working groups) -> constructed (g_staging groups) ->
  constructed (g_merge groups) -> constructed (g_conflict groups) ->
  exists found,
    findTrackedResourceByUri groups uri = Ok found
    /\ (found = None <->
        includesUri (g_working groups) uri = false
        /\ includesUri (g_staging groups) uri = false
        /\ includesUri (g_merge groups) uri = false
        /\ includesUri (g_conflict groups) uri = false)
    /\ (forall r, found = Some r ->
          resourceUri r = Ok uri
          /\ (r ∈ _resources (g_working groups) \/ r ∈ _resources (g_staging groups)
              \/ r ∈ _resources (g_merge groups) \/ r ∈ _resources (g_conflict groups)))
    /\ (includesUri (g_working groups) uri = true ->
        exists r, found = Some r /\ r ∈ _resources (g_working groups))
    /\ (forall other,
          findTrackedResourceByUri
            (mkStatusGroups (g_conflict groups) (g_staging groups) (g_merge groups)
                            (g_working groups) other) uri = Ok found).
Proof.
  intros Hw Hs Hm Hc.
  eexists. split; [exact (findTrackedResourceByUri_valid groups uri Hw Hs Hm Hc)|].
  pose proof (constructed_valid _ Hw) as Hvw. pose proof (constructed_valid _ Hs) as Hvs.
  pose proof (constructed_valid _ Hm) as Hvm. pose proof (constructed_valid _ Hc) as Hvc.
  assert (forall G, constructed G ->
            includesUri G uri = false <-> Forall (fun r => effective r <> uri) (_resources G))
    as Hnone.
  { intros G HG. rewrite <- not_true_iff_false, (constructed_includesUri G uri HG),
      Forall_forall, list_elem_of_fmap. split.
    - intros Hn r Hr Heq. apply Hn. by exists r.
    - intros Hall (r & -> & Hr). by apply (Hall r Hr). }
  split; [|split; [|split]].
  - rewrite head_filter_None, !Forall_app, (Hnone _ Hw), (Hnone _ Hs), (Hnone _ Hm),
      (Hnone _ Hc). tauto.
  - intros r Hr. destruct (head_filter_split _ _ _ Hr) as (l1 & l2 & Hl & <- & _).
    assert (r ∈ _resources (g_working groups) ++ _resources (g_staging groups)
              ++ _resources (g_merge groups) ++ _resources (g_conflict groups)) as Hin.
    { rewrite Hl. apply elem_of_app. right. apply elem_of_cons. by left. }
    rewrite !elem_of_app in Hin. split; [|done].
    apply resourceUri_valid.
    destruct Hin as [Hin|[Hin|[Hin|Hin]]];
      eapply (proj1 (Forall_forall valid _)); try exact Hin; done.
  - intros (r0 & -> & Hr0)%(constructed_includesUri _ _ Hw)%list_elem_of_fmap.
    rewrite filter_app.
    destruct (filter (fun r => effective r = effective r0) (_resources (g_working groups)))
      as [|r l] eqn:Hf.
    + apply filter_nil_iff_Forall in Hf. by destruct (proj1 (Forall_forall _ _) Hf r0 Hr0).
    + exists r. split; [done|].
      assert (r ∈ filter (fun r => effective r = effective r0) (_resources (g_working groups)))
        as [_ ?]%list_elem_of_filter; [|done].
      rewrite Hf. apply elem_of_cons. by left.
  - intros other. by apply (findTrackedResourceByUri_valid (mkStatusGroups _ _ _ _ other) uri).
Qed.

Lemma elem_of_defined (r : Resource) (found : list (option Resource)) :
  r ∈ defined found <-> Some r ∈ found.
Proof.
  unfold defined. rewrite list_elem_of_omap. split.
  - by intros (o & Ho & ->).
  - intros H. by exists (Some r).
Qed.

(** X9. What [rollback] restages. After a real rollback of a commit, with a
    non-empty staging group and a non-empty list of affected files, on groups
    built by their constructors, [rollback] calls [stage] with the tracked
    resources found at the affected files. When none of the affected files
    is tracked the argument list is empty, which [stage] reads as the whole
    working group. A dry run never restages. *)
Theorem rollback_restage_arguments (file_uri : string -> string -> Uri) (root : string)
    (groups : IStatusGroups) (rollback details : HgRollbackDetails)
    (affectedFiles : list IFileStatus) :
  constructed (g_working groups) -> constructed (g_staging groups) ->
  constructed (g_merge groups) -> constructed (g_conflict groups) ->
  kind rollback = "commit" ->
  commitDetails details = Some affectedFiles ->
  _resources (g_staging groups) <> [] ->
  affectedFiles <> [] ->
  (exists args,
     rollback_restage file_uri root groups false rollback (Some details) = Ok (Some args)
     /\ (forall r, r ∈ args <->
           exists f, f ∈ affectedFiles
             /\ findTrackedResourceByUri groups (file_uri root (path f)) = Ok (Some r))
     /\ ((forall f, f ∈ affectedFiles ->
            findTrackedResourceByUri groups (file_uri root (path f)) = Ok None) ->
         args = [] /\ stage_resources groups args = _resources (g_working groups)))
  /\ rollback_restage file_uri root groups true rollback (Some details) = Ok None.
Proof.
  intros Hw Hs Hm Hc Hkind Hdetails Hstaged Haffected. split; [|done].
  unfold rollback_restage. rewrite Hkind, Hdetails. cbn [negb].
  rewrite bool_decide_true by done. cbn [negb].
  destruct (_resources (g_staging groups)) as [|r0 rs0] eqn:Hrs; [done|].
  destruct affectedFiles as [|f0 fs0] eqn:Hfs; [done|]. rewrite <- Hfs in *. cbn [length Nat.eqb negb andb].
  replace ((length affectedFiles =? 0)%nat) with false by (by rewrite Hfs).
  cbn [negb].
  set (look := fun f : IFileStatus =>
         head (filter (fun r => effective r = file_uri root (path f))
                 (_resources (g_working groups) ++ _resources (g_staging groups)
                    ++ _resources (g_merge groups) ++ _resources (g_conflict groups)))).
  assert (forall f, findTrackedResourceByUri groups (file_uri root (path f)) = Ok (look f))
    as Hlook by (intros f; by apply findTrackedResourceByUri_valid).
  rewrite (mapR_pure _ look) by (apply Forall_forall; intros f _; apply Hlook).
  cbn [mbind result_bind].
  eexists. split; [done|]. split.
  - intros r. rewrite elem_of_defined, list_elem_of_fmap. split.
    + intros (f & Hf & Hin). exists f. split; [done|]. by rewrite Hlook, Hf.
    + intros (f & Hin & Hf). exists f. split; [|done]. rewrite Hlook in Hf. by injection Hf.
  - intros Hnone.
    assert (defined (map look affectedFiles) = []) as ->.
    { destruct (defined (map look affectedFiles)) as [|r l] eqn:Hd; [done|]. exfalso.
      assert (r ∈ defined (map look affectedFiles)) as Hr by (rewrite Hd; apply elem_of_cons; by left).
      apply elem_of_defined, list_elem_of_fmap in Hr as (f & Hf & Hin).
      specialize (Hnone f Hin). rewrite Hlook, <- Hf in Hnone. discriminate. }
    done.
Qed.

Section CleanProofs.

Variable relativePath : Uri -> string.

Lemma clean_fold (resources : list Resource) (toRevert toForget : list string) :
  Forall (fun r => isDirtyStatus r = true -> valid r) resources ->
  foldR (clean_step relativePath) (toRevert, toForget) resources
  = Ok (toRevert ++ map (fun r => relativePath (effective r))
                      (filter (fun r => isDirtyStatus r = true /\ _status r <> ADDED) resources),
        toForget ++ map (fun r => relativePath (effective r))
                      (filter (fun r => _status r = ADDED) resources)).
Proof.
  intros Hall. revert toRevert toForget.
  induction Hall as [|r rs Hr _ IH]; intros toRevert toForget.
  - cbn. by rewrite !app_nil_r.
  - cbn [foldR]. rewrite !filter_cons. unfold clean_step, mapResourceToRepoRelativePath.
    unfold isDirtyStatus in *.
    destruct (_status r) eqn:Hst;
      repeat (first [rewrite decide_True by (split; done)
                    | rewrite decide_True by done
                    | rewrite decide_False by (intros [? ?]; done)
                    | rewrite decide_False by done]);
      try (rewrite (resourceUri_valid r (Hr eq_refl))); cbn [mbind result_bind fst snd map];
      rewrite IH; by rewrite <- ?app_assoc.
Qed.

(** X10. What [clean] asks of the repository. When every resource that is
    not untracked or ignored has a defined location, [clean] reverts the
    paths of the resources that are neither untracked, ignored nor added, and
    forgets the paths of the added ones, each list in the order given, the
    revert first, and skips a call whose list is empty: untracked and ignored
    resources are never touched. When some resource that is not untracked or
    ignored is in the erroring state, [clean] throws before any call. *)
Theorem clean_calls (resources : list Resource) :
  (Forall (fun r => isDirtyStatus r = true -> is_Ok (resourceUri r)) resources ->
   let toRevert :=
     map (fun r => relativePath (effective r))
         (filter (fun r => isDirtyStatus r = true /\ _status r <> ADDED) resources) in
   let toForget :=
     map (fun r => relativePath (effective r))
         (filter (fun r => _status r = ADDED) resources) in
   clean relativePath resources
   = Ok ((if decide (toRevert = []) then [] else [CallRevert toRevert])
           ++ (if decide (toForget = []) then [] else [CallForget toForget])))
  /\ (Exists (fun r => isDirtyStatus r = true /\ ~ is_Ok (resourceUri r)) resources ->
      exists message, clean relativePath resources = Throw (Error message)).
Proof.
  split.
  - intros Hall. cbv zeta. unfold clean. rewrite clean_fold.
    + cbn [mbind result_bind fst snd app]. f_equal. f_equal.
      * by destruct (map _ (filter _ resources)).
      * by destruct (map _ (filter (fun r => _status r = ADDED) resources)).
    + eapply Forall_impl; [exact Hall|]. intros r Hr Hd. by apply valid_is_Ok, Hr.
  - intros Hex. unfold clean.
    assert (forall lists, exists message,
              foldR (clean_step relativePath) lists resources = Throw (Error message)) as Hthrow.
    { induction Hex as [r rs [Hd Hbad]|r rs _ IH]; intros lists.
      - cbn [foldR]. unfold clean_step, mapResourceToRepoRelativePath.
        rewrite <- valid_is_Ok in Hbad. rewrite (resourceUri_invalid r Hbad).
        unfold isDirtyStatus in Hd. destruct (_status r); try done; by eexists.
      - cbn [foldR]. destruct (clean_step relativePath lists r) as [lists'|e] eqn:Hstep.
        + cbn. apply IH.
        + cbn. unfold clean_step, mapResourceToRepoRelativePath in Hstep.
          destruct (resourceUri r) as [u|e'] eqn:Hu.
          * destruct (_status r); discriminate.
          * apply resourceUri_Throw in Hu as [message ->].
            exists message. destruct (_status r); cbn in Hstep; congruence. }
    destruct (Hthrow ([], [])) as [message ->]. by exists message.
Qed.

End CleanProofs.

(** ** The reconciler: outcomes, cleanliness, repeated refreshes *)

Lemma toStatus_dirty_code (c : string) (renamed : bool) (st : Status) :
  toStatus c renamed = Ok st ->
  (st = UNTRACKED \/ st = IGNORED) <-> (c = "?" \/ c = "I").
Proof.
  unfold toStatus. repeat case_decide; subst; intros [= <-]; try destruct renamed;
    split; intros [?|?]; try discriminate; auto.
Qed.

Lemma toStatus_MRA_code (c : string) (renamed : bool) (st : Status) :
  toStatus c renamed = Ok st -> MRA st -> c = "A" \/ c = "M".
Proof.
  unfold toStatus, MRA. repeat case_decide; subst; intros [= <-]; try destruct renamed;
    intros [?|[?|?]]; try discriminate; auto.
Qed.

Lemma route_untracked st midMerge ms staged :
  route_by_precedence st midMerge ms staged = untracked <-> st = UNTRACKED \/ st = IGNORED.
Proof.
  destruct st, midMerge, ms, staged; cbn; split; try discriminate; auto;
    intros [?|?]; discriminate.
Qed.


Section ReconcilerMore.

Variable file_uri : string -> string -> Uri.
Variable existsSync : Uri -> bool.

#[local] Abbreviation location := (location file_uri).
#[local] Abbreviation missed := (missed file_uri).
#[local] Abbreviation first_emit := (first_emit file_uri).
#[local] Abbreviation second_emit := (second_emit file_uri existsSync).
#[local] Abbreviation groupStatuses := (groupStatuses file_uri existsSync).

(** The resources a successful pass returns, with where each comes from. *)
Lemma groupStatuses_elems p gs :
  constructed (g_staging (statusGroups p)) ->
  groupStatuses p = Ok gs ->
  exists rs,
    mapR (first_emit p) (fileStatuses p) = Ok rs
    /\ (forall id, constructed (group_of gs id))
    /\ (forall id r, r ∈ _resources (group_of gs id) <->
          _resourceGroup r = id /\ (r ∈ rs \/ r ∈ map (second_emit p) (missed p)))
    /\ (forall r, r ∈ rs -> exists raw, raw ∈ fileStatuses p /\ first_emit p raw = Ok r).
Proof.
  intros Hs H.
  destruct (groupStatuses_elem file_uri existsSync p gs Hs H) as (rs & Hrs & Hc & Hres & _).
  exists rs. split; [done|]. split; [done|]. split.
  - intros id r. by rewrite Hres, elem_of_owned_by, elem_of_app.
  - clear -Hrs. revert rs Hrs. induction (fileStatuses p) as [|raw l IH]; intros rs Hrs r Hr.
    + cbn in Hrs. injection Hrs as <-. by apply elem_of_nil in Hr.
    + cbn [mapR] in Hrs. ok_bind Hrs as r0 Hr0. ok_bind Hrs as rest Hrest.
      injection Hrs as <-. apply elem_of_cons in Hr as [->|Hr].
      * exists raw. split; [apply elem_of_cons; by left | done].
      * destruct (IH _ Hrest r Hr) as (raw' & ? & ?). exists raw'.
        split; [apply elem_of_cons; by right | done].
Qed.

(** X11. How a pass ends. On a previous staging group built by its
    constructor, [groupStatuses] returns a partition exactly when every raw
    status code is known and only records coded A or M name a rename source;
    it throws the classification error exactly when some raw status code is
    unknown; and it throws the error of a renamed resource with unexpected
    status exactly when all codes are known but some record with another
    code than A or M names a rename source. *)
Theorem groupStatuses_outcome (p : IGroupStatusesParams) :
  constructed (g_staging (statusGroups p)) ->
  let classified := Forall (fun raw => status raw ∈ known_codes) (fileStatuses p) in
  let renames_fit :=
    Forall (fun raw => truthy (rename raw) = true -> status raw = "A" \/ status raw = "M")
           (fileStatuses p) in
  (is_Ok (groupStatuses p) <-> classified /\ renames_fit)
  /\ ((exists message, groupStatuses p = Throw (HgError message)) <-> ~ classified)
  /\ ((exists message, groupStatuses p = Throw (Error message)) <-> classified /\ ~ renames_fit).
Proof.
  intros Hs classified renames_fit.
  assert (is_Ok (groupStatuses p) <-> classified /\ renames_fit) as HOk.
  { split.
    - intros [gs Hgs].
      destruct (groupStatuses_elems p gs Hs Hgs) as (rs & Hrs & Hc & Hres & _).
      assert (forall raw, raw ∈ fileStatuses p ->
                status raw ∈ known_codes
                /\ (truthy (rename raw) = true -> status raw = "A" \/ status raw = "M")) as Hall.
      { intros raw Hraw.
        destruct (mapR_Ok_elem _ _ _ _ Hrs Hraw) as (r & Hr & Hemit).
        destruct (first_emit_Ok _ _ _ _ Hemit) as (st & Hst & Hreq). split.
        - destruct (decide (status raw ∈ known_codes)) as [|Hout]; [done|].
          rewrite (toStatus_unknown _ _ Hout) in Hst. discriminate.
        - intros Htruthy.
          assert (valid r) as Hv.
          { apply (proj1 (Forall_forall valid _) (constructed_valid _ (Hc (_resourceGroup r)))).
            apply Hres. split; [done|]. by left. }
          apply (toStatus_MRA_code _ _ st Hst).
          rewrite Hreq in Hv. unfold valid, renameResourceUri, renameUri_of in Hv. cbn in Hv.
          destruct (rename raw) as [rn|]; [|done]. by rewrite Htruthy in Hv. }
      split; apply Forall_forall; intros raw Hraw; by destruct (Hall raw Hraw).
    - intros [Hcl Hrn]. apply (groupStatuses_returns file_uri existsSync p Hs).
      apply Forall_forall. intros raw Hraw. split.
      + by apply (proj1 (Forall_forall _ _) Hcl).
      + by apply (proj1 (Forall_forall _ _) Hrn). }
  assert ((exists message, groupStatuses p = Throw (HgError message)) <-> ~ classified) as HHg.
  { split.
    - intros [message Hm] Hcl.
      destruct (groupStatuses_HgError file_uri existsSync p message Hm) as (raw & Hraw & Hbad).
      by apply Hbad, (proj1 (Forall_forall _ _) Hcl).
    - intros Hncl. apply not_Forall_Exists in Hncl; [|apply _].
      apply Exists_exists in Hncl as (raw & Hraw & Hbad).
      destruct (mapR_first_emit_unknown file_uri p (fileStatuses p)) as (raw' & _ & _ & Hmap).
      { by exists raw. }
      eexists. rewrite (groupStatuses_unfold file_uri existsSync p Hs). by rewrite Hmap. }
  split; [done|]. split; [done|]. split.
  - intros [message Hm].
    assert (classified) as Hcl.
    { destruct (decide classified) as [|Hncl]; [done|].
      apply HHg in Hncl as [message' Hm']. congruence. }
    split; [done|]. intros Hrn.
    destruct (proj2 HOk (conj Hcl Hrn)) as [gs Hgs]. congruence.
  - intros [Hcl Hnrn].
    destruct (groupStatuses p) as [gs|[message|message]] eqn:Hg.
    + destruct (proj1 HOk (ex_intro _ gs eq_refl)) as [_ ?]. done.
    + destruct (proj1 HHg (ex_intro _ message eq_refl)). done.
    + by exists message.
Qed.

Lemma second_emit_dirty p raw : isDirtyStatus (second_emit p raw) = true.
Proof. unfold second_emit, isDirtyStatus. cbn. by destruct (existsSync _). Qed.

Lemma emitted_untracked p (rs : list Resource) (r : Resource) :
  (forall r, r ∈ rs -> exists raw, raw ∈ fileStatuses p /\ first_emit p raw = Ok r) ->
  r ∈ rs \/ r ∈ map (second_emit p) (missed p) ->
  _resourceGroup r = untracked <-> isDirtyStatus r = false.
Proof.
  intros Hfrom [Hr|(raw & -> & _)%list_elem_of_fmap].
  - destruct (Hfrom r Hr) as (raw & _ & Hemit).
    destruct (first_emit_Ok _ _ _ _ Hemit) as (st & _ & ->). cbn.
    rewrite route_untracked. unfold isDirtyStatus. cbn.
    destruct st; split; intros Hx; try done; try (destruct Hx; discriminate); auto.
  - rewrite second_emit_dirty. unfold second_emit. cbn. rewrite route_untracked.
    destruct (existsSync _); split; intros Hx; try done; destruct Hx; discriminate.
Qed.

Lemma forallb_length_nil (gs : list ResourceGroup) :
  forallb (fun g => (length (_resources g) =? 0)%nat) gs = true
  <-> Forall (fun g => _resources g = []) gs.
Proof.
  induction gs as [|g gs IH]; cbn [forallb]; [by split; [constructor|]|].
  by rewrite andb_true_iff, IH, Nat.eqb_eq, Forall_cons, length_zero_iff_nil.
Qed.

(** X12. Cleanliness after a pass. In the partition of a successful pass
    over a constructed previous staging group, a resource is in the untracked
    group exactly when its [isDirtyStatus] is false; and [isClean] holds
    exactly when every raw status record is coded ? or I and the second pass
    synthesizes nothing. *)
Theorem groupStatuses_isClean (p : IGroupStatusesParams) (gs : IStatusGroups) :
  constructed (g_staging (statusGroups p)) ->
  groupStatuses p = Ok gs ->
  (forall id r, r ∈ _resources (group_of gs id) ->
     isDirtyStatus r = false <-> id = untracked)
  /\ (isClean gs = true <->
      Forall (fun raw => status raw = "?" \/ status raw = "I") (fileStatuses p)
      /\ missed p = []).
Proof.
  intros Hs H. destruct (groupStatuses_elems p gs Hs H) as (rs & Hrs & Hc & Hres & Hfrom).
  assert (forall id r, r ∈ _resources (group_of gs id) ->
            isDirtyStatus r = false <-> id = untracked) as Hdirty.
  { intros id r [<- Hr]%Hres. symmetry. by apply (emitted_untracked p rs). }
  split; [done|].
  unfold isClean. rewrite forallb_length_nil, !Forall_cons, Forall_nil.
  change (g_working gs) with (group_of gs working).
  change (g_merge gs) with (group_of gs merge).
  change (g_conflict gs) with (group_of gs conflict).
  change (g_staging gs) with (group_of gs staging).
  split.
  - intros (Hw & Hm & Hcf & Hst & _).
    assert (forall r, r ∈ rs \/ r ∈ map (second_emit p) (missed p) ->
              isDirtyStatus r = false) as Hall.
    { intros r Hr. apply (emitted_untracked p rs r Hfrom Hr).
      destruct (_resourceGroup r) eqn:Hid; try done; exfalso;
        [ assert (r ∈ _resources (group_of gs conflict)) as Hin by (by apply Hres);
          rewrite Hcf in Hin
        | assert (r ∈ _resources (group_of gs staging)) as Hin by (by apply Hres);
          rewrite Hst in Hin
        | assert (r ∈ _resources (group_of gs merge)) as Hin by (by apply Hres);
          rewrite Hm in Hin
        | assert (r ∈ _resources (group_of gs working)) as Hin by (by apply Hres);
          rewrite Hw in Hin ];
        by apply elem_of_nil in Hin. }
    split.
    + apply Forall_forall. intros raw Hraw.
      destruct (mapR_Ok_elem _ _ _ _ Hrs Hraw) as (r & Hr & Hemit).
      destruct (first_emit_Ok _ _ _ _ Hemit) as (st & Hst' & Hreq).
      apply (toStatus_dirty_code _ _ st Hst').
      specialize (Hall r (or_introl Hr)). rewrite Hreq in Hall.
      unfold isDirtyStatus in Hall. cbn in Hall. destruct st; try discriminate; auto.
    + destruct (missed p) as [|raw l] eqn:Hmissed; [done|]. exfalso.
      assert (isDirtyStatus (second_emit p raw) = false) as Hbad.
      { apply Hall. right. cbn. apply elem_of_cons. by left. }
      by rewrite second_emit_dirty in Hbad.
  - intros [Hcodes Hmissed].
    assert (forall id, id <> untracked -> _resources (group_of gs id) = []) as Hempty.
    { intros id Hid. destruct (_resources (group_of gs id)) as [|r l] eqn:Hl; [done|]. exfalso.
      assert (r ∈ _resources (group_of gs id)) as Hin by (rewrite Hl; apply elem_of_cons; by left).
      apply Hid, (Hdirty id r Hin).
      apply Hres in Hin as [_ [Hr|Hr]].
      - destruct (Hfrom r Hr) as (raw & Hraw & Hemit).
        destruct (first_emit_Ok _ _ _ _ Hemit) as (st & Hst' & ->).
        pose proof (proj1 (Forall_forall _ _) Hcodes raw Hraw) as Hcode.
        apply (toStatus_dirty_code _ _ st Hst') in Hcode.
        unfold isDirtyStatus. cbn. by destruct Hcode as [-> | ->].
      - rewrite Hmissed in Hr. by apply elem_of_nil in Hr. }
    repeat split; by apply Hempty.
Qed.


(** X14. Staging survives the refresh that ends [stage]. Stage resources on
    groups built by their constructors, then reconcile outside a merge with
    the groups [stage] left: every raw status record found at the location of
    a staged resource, and coded neither ? nor I, has its resource in the
    staging group again. *)
Theorem staged_files_stay_staged (groups staged : IStatusGroups) (resources : list Resource)
    (p : IGroupStatusesParams) (gs : IStatusGroups) :
  constructed (g_staging groups) ->
  constructed (g_working groups) ->
  stage_recombine groups resources = (staged, Ok tt) ->
  statusGroups p = staged ->
  isMerge (repoStatus p) = false ->
  groupStatuses p = Ok gs ->
  forall raw r,
    raw ∈ fileStatuses p -> r ∈ resources -> resourceUri r = Ok (location p raw) ->
    status raw <> "?" -> status raw <> "I" ->
    exists st,
      toStatus (status raw) (truthy (rename raw)) = Ok st
      /\ mkResource staging (location p raw) st (mergeStatus_of (resolveStatuses p) raw)
           (renameUri_of file_uri (respositoryRoot p) raw)
         ∈ _resources (g_staging gs).
Proof.
  intros Hs Hw Hstage Hp Hm H raw r Hraw Hr Hloc Hq Hi.
  unfold stage_recombine in Hstage.
  destruct (intersect (g_staging groups) resources) as [s|e] eqn:Hint; [|discriminate].
  pose proof (intersect_inv_valid _ _ _ Hint) as HL.
  destruct (except (g_working (set_staging groups s)) resources) as [w|e] eqn:Hexc;
    [|discriminate].
  injection Hstage as <-.
  destruct (intersect_constructed _ _ Hs HL) as (s' & Hs' & Hcs & _).
  assert (s' = s) as -> by congruence.
  assert (g_staging (statusGroups p) = s) as Hst by by rewrite Hp.
  assert (includesUri s (location p raw) = true) as Hinc.
  { apply (intersect_includesUri _ _ _ _ Hs HL Hint). right.
    apply (located_iff _ _ HL). by exists r. }
  rewrite <- Hst in Hcs, Hinc.
  destruct (groupStatuses_elems p gs Hcs H) as (rs & Hrs & _ & Hres & _).
  destruct (mapR_Ok_elem _ _ _ _ Hrs Hraw) as (r' & Hr' & Hemit).
  destruct (first_emit_Ok _ _ _ _ Hemit) as (st & Hstatus & Hreq).
  exists st. split; [done|].
  assert (route_by_precedence st (isMerge (repoStatus p))
            (mergeStatus_of (resolveStatuses p) raw)
            (includesUri (g_staging (statusGroups p)) (location p raw)) = staging) as Hroute.
  { rewrite Hm, Hinc.
    pose proof (toStatus_dirty_code _ _ st Hstatus) as Hcode.
    destruct st; try done; exfalso; destruct (proj1 Hcode); auto. }
  rewrite Hroute in Hreq. rewrite <- Hreq.
  apply (Hres staging). split; [by rewrite Hreq | by left].
Qed.

(** X15. The groups keep the order of the status output. In the partition of
    a successful pass over a constructed previous staging group, the
    locations of each group, in order, are a subsequence of the locations of
    the raw status records followed by those of the resolution records the
    second pass does not skip. *)
Theorem groupStatuses_keeps_order (p : IGroupStatusesParams) (gs : IStatusGroups) :
  constructed (g_staging (statusGroups p)) ->
  groupStatuses p = Ok gs ->
  forall id,
    map original (_resources (group_of gs id))
    `sublist_of` map (location p) (fileStatuses p) ++ map (location p) (missed p).
Proof.
  intros Hs H id.
  destruct (groupStatuses_elem file_uri existsSync p gs Hs H) as (rs & Hrs & _ & Hres & _).
  rewrite Hres, <- (original_processed file_uri existsSync p rs Hrs).
  apply (fmap_sublist original), sublist_filter.
Qed.

End ReconcilerMore.

(** ** The operation tracker: idleness and overlapping operations *)

Local Open Scope Z_scope.

(** Only bits of operations are ever set in a reachable mask. *)
Lemma reachable_only_operation_bits t :
  reachable t ->
  forall i, Z.testbit (operations t) i = true -> exists op, Operation.bit op = i.
Proof.
  induction 1 as [|t op Ht IH|t op Ht IH]; intros i.
  - cbn. by rewrite Z.bits_0.
  - rewrite (start_operations t op Ht), Z.lor_spec, Operation_value_testbit.
    intros [Hi|Hi%Z.eqb_eq]%orb_true_iff; [by apply IH | by exists op].
  - rewrite (end_operations t op Ht), Z.land_spec.
    intros [Hi _]%andb_true_iff. by apply IH.
Qed.

(** X16. Idle means nothing is running. For every tracker value the Model
    can reach, [isIdle()] is true exactly when [isRunning(op)] is false for
    every operation. *)
Theorem isIdle_iff_nothing_running (t : OperationsImpl) :
  reachable t ->
  isIdle t = true <-> forall op, isRunning t op = false.
Proof.
  intros Ht. unfold isIdle. rewrite Z.eqb_eq. split.
  - intros H0 op. by rewrite (isRunning_testbit t op Ht), H0, Z.bits_0.
  - intros Hnone. apply Z.bits_inj'. intros i Hi. rewrite Z.bits_0.
    destruct (Z.testbit (operations t) i) eqn:Hbit; [|done].
    destruct (reachable_only_operation_bits t Ht i Hbit) as [op <-].
    by rewrite <- (isRunning_testbit t op Ht), Hnone in Hbit.
Qed.

(** X17. Different operations overlap without disturbing each other. On a
    reachable tracker where neither [a] nor [b] is running, start [a] and
    then [b]: whichever ends first, the other is still running, and when both
    have ended the tracker is back as it was. *)
Theorem tracker_overlap (t : OperationsImpl) (a b : Operation.t) :
  reachable t ->
  a <> b ->
  isRunning t a = false ->
  isRunning t b = false ->
  isRunning (end_ (start (start t a) b) a) b = true
  /\ isRunning (end_ (start (start t a) b) b) a = true
  /\ end_ (end_ (start (start t a) b) a) b = t
  /\ end_ (end_ (start (start t a) b) b) a = t.
Proof.
  intros Ht Hab Ha Hb.
  pose proof (reachable_start t a Ht) as H1.
  pose proof (reachable_start _ b H1) as H2.
  pose proof (reachable_end _ a H2) as H3a.
  pose proof (reachable_end _ b H2) as H3b.
  pose proof (Operation_bit_range a) as Hra.
  pose proof (Operation_bit_range b) as Hrb.
  rewrite (isRunning_testbit t a Ht) in Ha. rewrite (isRunning_testbit t b Ht) in Hb.
  assert ((Operation.bit a =? Operation.bit b) = false) as Hne.
  { apply Z.eqb_neq. intros Heq. apply Hab. by destruct a, b. }
  assert ((Operation.bit b =? Operation.bit a) = false) as Hne' by by rewrite Z.eqb_sym.
  split; [|split; [|split]].
  - rewrite (isRunning_testbit _ b H3a), (end_operations _ a H2), (start_operations _ b H1),
      (start_operations _ a Ht), Z.land_spec, !Z.lor_spec, Z.lnot_spec,
      !Operation_value_testbit, Z.eqb_refl, Hne by lia.
    by rewrite orb_true_r.
  - rewrite (isRunning_testbit _ a H3b), (end_operations _ b H2), (start_operations _ b H1),
      (start_operations _ a Ht), Z.land_spec, !Z.lor_spec, Z.lnot_spec,
      !Operation_value_testbit, Z.eqb_refl, Hne' by lia.
    by rewrite orb_true_r.
  - apply OperationsImpl_eq.
    rewrite (end_operations _ b H3a), (end_operations _ a H2), (start_operations _ b H1),
      (start_operations _ a Ht).
    apply Z.bits_inj'. intros i Hi.
    rewrite !Z.land_spec, !Z.lor_spec, !Z.lnot_spec, !Operation_value_testbit by done.
    destruct (Z.eqb_spec (Operation.bit a) i) as [<-|]; [by rewrite Ha, Hne'|].
    destruct (Z.eqb_spec (Operation.bit b) i) as [<-|]; [by rewrite Hb|].
    by rewrite !orb_false_r, !andb_true_r.
  - apply OperationsImpl_eq.
    rewrite (end_operations _ a H3b), (end_operations _ b H2), (start_operations _ b H1),
      (start_operations _ a Ht).
    apply Z.bits_inj'. intros i Hi.
    rewrite !Z.land_spec, !Z.lor_spec, !Z.lnot_spec, !Operation_value_testbit by done.
    destruct (Z.eqb_spec (Operation.bit a) i) as [<-|]; [by rewrite Ha, Hne'|].
    destruct (Z.eqb_spec (Operation.bit b) i) as [<-|]; [by rewrite Hb|].
    by rewrite !orb_false_r, !andb_true_r.
Qed.

Local Close Scope Z_scope.

(** ** The index-lock wait: when it stops and how long it takes *)

Lemma whenUnlocked_loop_retry lockExists millis retries :
  (retries < 10)%nat -> lockExists retries = true ->
  whenUnlocked_loop lockExists millis retries
  = ExistsQuery true :: Timeout (double_mul millis double_1_4)
      :: whenUnlocked_loop lockExists (double_mul millis double_1_4) (retries + 1).
Proof.
  intros Hlt Hlocked. funelim (whenUnlocked_loop lockExists millis retries).
  - lia.
  - by simp whenUnlocked_loop.
  - congruence.
Qed.

Lemma whenUnlocked_loop_stops lockExists millis (n : nat) :
  forall retries,
    (retries <= n)%nat -> (n < 10)%nat ->
    (forall k, (retries <= k < n)%nat -> lockExists k = true) ->
    lockExists n = false ->
    length (timeouts (whenUnlocked_loop lockExists millis retries)) = (n - retries)%nat
    /\ queries (whenUnlocked_loop lockExists millis retries)
       = replicate (n - retries) true ++ [false].
Proof.
  intros retries. revert millis.
  induction (n - retries)%nat as [|d IH] eqn:Hd in retries |- *; intros millis Hle Hn Hbefore Hfree.
  - assert (retries = n) as -> by lia.
    by rewrite (whenUnlocked_loop_unlocked lockExists millis n Hn Hfree).
  - rewrite (whenUnlocked_loop_retry lockExists millis retries) by (try apply Hbefore; lia).
    rewrite timeouts_retry, queries_retry. cbn [length replicate app].
    destruct (IH (retries + 1)%nat ltac:(lia) (double_mul millis double_1_4)) as [-> ->];
      try lia; [|done..].
    intros k Hk. apply Hbefore. lia.
Qed.

(** X18. The wait ends with the lock. If the lock file is present at the
    first [n] queries ([n] below 10) and absent at the next, [whenUnlocked]
    makes exactly [n] waits and [n + 1] queries, the last of which finds the
    lock gone. *)
Theorem whenUnlocked_stops_when_unlocked (lockExists : nat -> bool) (n : nat) :
  (n < 10)%nat ->
  (forall k, (k < n)%nat -> lockExists k = true) ->
  lockExists n = false ->
  length (timeouts (whenUnlocked lockExists)) = n
  /\ queries (whenUnlocked lockExists) = replicate n true ++ [false].
Proof.
  intros Hn Hbefore Hfree.
  destruct (whenUnlocked_loop_stops lockExists double_100 n 0%nat) as [Ht Hq];
    [lia | done | intros k Hk; apply Hbefore; lia | done |].
  unfold whenUnlocked. by rewrite Ht, Hq, Nat.sub_0_r.
Qed.

Lemma whenUnlocked_loop_done lockExists millis retries :
  ~ (retries < 10)%nat -> whenUnlocked_loop lockExists millis retries = [].
Proof.
  intros Hge. funelim (whenUnlocked_loop lockExists millis retries); [done|lia|lia].
Qed.

(** Whatever the lock file does, the waits are the first waits of a lock
    that never goes away. *)
Lemma timeouts_prefix_worst lockExists millis retries :
  timeouts (whenUnlocked_loop lockExists millis retries)
  `prefix_of` timeouts (whenUnlocked_loop (fun _ => true) millis retries).
Proof.
  funelim (whenUnlocked_loop lockExists millis retries).
  - apply prefix_nil.
  - rewrite (whenUnlocked_loop_retry (fun _ => true) millis retries) by done.
    rewrite !timeouts_retry. by apply prefix_cons.
  - apply prefix_nil.
Qed.

Lemma sum_prefix (waits all : list Q) :
  Forall (fun w => 0 <= w)%Q all -> waits `prefix_of` all ->
  (0 <= foldr Qplus 0 waits)%Q /\ (foldr Qplus 0 waits <= foldr Qplus 0 all)%Q.
Proof.
  intros Hall [rest ->]. apply Forall_app in Hall as [Hwaits Hrest].
  assert (Hsum : forall l, Forall (fun w => 0 <= w)%Q l -> (0 <= foldr Qplus 0 l)%Q).
  { induction 1 as [|w l Hw _ IH]; cbn; [apply Qle_refl|].
    replace 0%Q with (0 + 0)%Q by done. by apply Qplus_le_compat. }
  split; [by apply Hsum|].
  induction waits as [|w waits IH]; cbn.
  - by apply Hsum.
  - apply Qplus_le_compat; [apply Qle_refl|]. apply IH.
    by apply Forall_cons in Hwaits as [_ ?].
Qed.

(** X19. The wait is bounded. Whatever the lock file does, the waits of one
    [whenUnlocked] add up to less than 9774 ms, the time a lock that never
    goes away costs. *)
Theorem whenUnlocked_total_wait (lockExists : nat -> bool) :
  (0 <= total_wait (whenUnlocked lockExists))%Q
  /\ (total_wait (whenUnlocked lockExists) <= total_wait (whenUnlocked (fun _ => true)))%Q
  /\ (total_wait (whenUnlocked (fun _ => true)) <= 9774)%Q
  /\ (total_wait (whenUnlocked lockExists) <= 9774)%Q.
Proof.
  assert (total_wait (whenUnlocked (fun _ => true)) <= 9774)%Q as Hworst.
  { apply Qle_bool_iff. by vm_compute. }
  assert (Hpos : Forall (fun w => 0 <= w)%Q
                   (map double_value (timeouts (whenUnlocked (fun _ => true))))).
  { apply Forall_forall. intros w Hw. apply Qle_bool_iff. revert w Hw.
    apply Forall_forall. vm_compute. repeat constructor. }
  destruct (sum_prefix (map double_value (timeouts (whenUnlocked lockExists)))
              (map double_value (timeouts (whenUnlocked (fun _ => true))))) as [H0 Hle];
    [done | |].
  { destruct (timeouts_prefix_worst lockExists double_100 0) as [rest Hrest].
    exists (map double_value rest). unfold whenUnlocked. by rewrite Hrest, map_app. }
  split; [done|]. split; [done|]. split; [done|]. by eapply Qle_trans.
Qed.

Local Close Scope Z_scope.

(** ** Blame annotations: the line pattern and the line numbers *)

Lemma append_cons (a : ascii) (s1 s2 : string) :
  String a s1 +:+ s2 = String a (s1 +:+ s2).
Proof. reflexivity. Qed.

Lemma append_nil_l (s : string) : EmptyString +:+ s = s.
Proof. reflexivity. Qed.

Lemma append_assoc_char (pre : string) (c : ascii) (s : string) :
  (pre +:+ String c EmptyString) +:+ s = pre +:+ String c s.
Proof.
  induction pre as [|a pre IH]; [done|]. by rewrite !append_cons, IH.
Qed.

Lemma append_nil_r (s : string) : s +:+ EmptyString = s.
Proof. induction s as [|a s IH]; [done|]. by rewrite append_cons, IH. Qed.

Lemma append_assoc (s1 s2 s3 : string) : (s1 +:+ s2) +:+ s3 = s1 +:+ s2 +:+ s3.
Proof. induction s1 as [|a s1 IH]; [done|]. by rewrite !append_cons, IH. Qed.

Lemma word_run_append (s : string) : s = fst (word_run s) +:+ snd (word_run s).
Proof.
  induction s as [|c s IH]; [done|]. cbn [word_run].
  destruct (is_word_char c); cbn [fst snd]; [|done].
  by rewrite append_cons, <- IH.
Qed.

Lemma word_run_word (s : string) :
  Forall (fun c => is_word_char c = true) (String.list_ascii_of_string (fst (word_run s))).
Proof.
  induction s as [|c s IH]; [constructor|]. cbn [word_run].
  destruct (is_word_char c) eqn:Hc; cbn [fst String.list_ascii_of_string];
    [by constructor | constructor].
Qed.

Lemma dot_refuses_line_break (c : ascii) (s : string) :
  dot_refuses (String c s) = false -> is_line_break c = false.
Proof. unfold dot_refuses. by intros [? _]%orb_false_iff. Qed.

Lemma match_here_Some (pre s : string) (m : string * string) :
  match_here pre s = Some m ->
  exists text,
    fst m = pre /\ pre <> EmptyString /\ snd m <> EmptyString
    /\ s = snd m +:+ String ":" text
    /\ Forall (fun c => is_word_char c = true) (String.list_ascii_of_string (snd m)).
Proof.
  unfold match_here. pose proof (word_run_append s) as Happ.
  pose proof (word_run_word s) as Hword.
  destruct pre as [|p pre]; [done|].
  destruct (fst (word_run s)) as [|c hash]; [done|].
  destruct (snd (word_run s)) as [|colon text]; [done|].
  case_bool_decide as Hcolon; [|done]. intros [= <-]. subst colon.
  exists text. by repeat split.
Qed.

Lemma match_from_Some (s pre : string) (m : string * string) :
  match_from pre s = Some m ->
  exists mid text,
    fst m = pre +:+ mid /\ fst m <> EmptyString /\ snd m <> EmptyString
    /\ s = mid +:+ snd m +:+ String ":" text
    /\ Forall (fun c => is_word_char c = true) (String.list_ascii_of_string (snd m))
    /\ Forall (fun c => is_line_break c = false) (String.list_ascii_of_string mid).
Proof.
  assert (Hhere : forall pre s, match_here pre s = Some m ->
    exists mid text,
      fst m = pre +:+ mid /\ fst m <> EmptyString /\ snd m <> EmptyString
      /\ s = mid +:+ snd m +:+ String ":" text
      /\ Forall (fun c => is_word_char c = true) (String.list_ascii_of_string (snd m))
      /\ Forall (fun c => is_line_break c = false) (String.list_ascii_of_string mid)).
  { intros pre' s' (text & Hfst & Hne & Hhash & Hs & Hword)%match_here_Some.
    exists EmptyString, text. rewrite append_nil_r, append_nil_l.
    split_and!; [done | by rewrite Hfst | done | done | done | constructor]. }
  revert pre. induction s as [|c s IH]; intros pre; cbn [match_from].
  - destruct (match_here pre EmptyString) as [m'|] eqn:Hm'; [|done].
    intros [= ->]. by apply Hhere in Hm'.
  - destruct (match_here pre (String c s)) as [m'|] eqn:Hm'.
    + intros [= ->]. by apply Hhere in Hm'.
    + destruct (dot_refuses (String c s)) eqn:Hc; [done|]. intros Hm.
      apply dot_refuses_line_break in Hc.
      destruct (IH _ Hm) as (mid & text & Hfst & Hne & Hhash & Hs & Hword & Hmid).
      exists (String c mid), text. rewrite append_assoc_char in Hfst.
      split_and!; [done | done | done | | done |].
      * by rewrite append_cons, <- Hs.
      * cbn [String.list_ascii_of_string]. by constructor.
Qed.

(** X20. What the blame pattern extracts. When [/^(.+?)(\w+):/] matches a
    line, the line is the user, then the commit hash, then a colon, then the
    rest; the user is not empty and has no line break, and the commit hash is
    a non-empty run of word characters. *)
Theorem match_line_sound (l user hash : string) :
  match_line l = Some (user, hash) ->
  exists text,
    l = user +:+ hash +:+ String ":" text
    /\ user <> EmptyString
    /\ hash <> EmptyString
    /\ Forall (fun c => is_word_char c = true) (String.list_ascii_of_string hash)
    /\ Forall (fun c => is_line_break c = false) (String.list_ascii_of_string user).
Proof.
  intros Hm. destruct (match_from_Some _ _ _ Hm) as (mid & text & Hfst & Hne & Hhash & Hs & Hw & Hmid).
  cbn in Hfst, Hne, Hhash, Hs, Hw. subst user. exists text. by repeat split.
Qed.

Lemma word_run_all_word (h rest : string) :
  Forall (fun c => is_word_char c = true) (String.list_ascii_of_string h) ->
  (forall c r, rest = String c r -> is_word_char c = false) ->
  word_run (h +:+ rest) = (h, rest).
Proof.
  intros Hh Hrest. induction h as [|c h IH].
  - rewrite append_nil_l. destruct rest as [|c r]; [done|].
    cbn [word_run]. by rewrite (Hrest c r).
  - cbn [String.list_ascii_of_string] in Hh. apply Forall_cons in Hh as [Hc Hh].
    rewrite append_cons. cbn [word_run]. by rewrite Hc, (IH Hh).
Qed.

(** The run of word characters that starts inside a user name ending in a
    non-word character stops inside the name, before a character that is not
    a colon. *)
Lemma word_run_inside (suf tail : string) (sep : ascii) :
  Forall (fun c => c <> ":"%char) (String.list_ascii_of_string suf) ->
  is_word_char sep = false -> sep <> ":"%char ->
  exists c r, snd (word_run (suf +:+ String sep tail)) = String c r /\ c <> ":"%char.
Proof.
  intros Hsuf Hsep Hcolon. induction suf as [|a suf IH].
  - rewrite append_nil_l. cbn [word_run]. rewrite Hsep. by exists sep, tail.
  - cbn [String.list_ascii_of_string] in Hsuf. apply Forall_cons in Hsuf as [Ha Hsuf].
    rewrite append_cons. cbn [word_run].
    destruct (is_word_char a); cbn [snd]; [by apply IH | by eexists a, _].
Qed.

Lemma match_here_inside (pre suf tail : string) (sep : ascii) :
  Forall (fun c => c <> ":"%char) (String.list_ascii_of_string suf) ->
  is_word_char sep = false -> sep <> ":"%char ->
  match_here pre (suf +:+ String sep tail) = None.
Proof.
  intros Hsuf Hsep Hcolon. unfold match_here.
  destruct (word_run_inside suf tail sep Hsuf Hsep Hcolon) as (c & r & -> & Hc).
  destruct pre; [done|]. destruct (fst (word_run _)); [done|].
  by rewrite bool_decide_false.
Qed.

Lemma match_here_hash (pre hash text : string) :
  pre <> EmptyString -> hash <> EmptyString ->
  Forall (fun c => is_word_char c = true) (String.list_ascii_of_string hash) ->
  match_here pre (hash +:+ String ":" text) = Some (pre, hash).
Proof.
  intros Hpre Hne Hhash. unfold match_here.
  rewrite (word_run_all_word hash (String ":" text) Hhash)
    by (by intros c r [= <- _]).
  cbn [fst snd]. destruct pre; [done|]. destruct hash; [done|].
  by rewrite bool_decide_true.
Qed.

Lemma match_from_here (pre s : string) (m : string * string) :
  match_here pre s = Some m -> match_from pre s = Some m.
Proof. intros Hm. destruct s; cbn [match_from]; by rewrite Hm. Qed.

Lemma word_char_ascii (c : ascii) : is_word_char c = true -> (nat_of_ascii c < 128)%nat.
Proof.
  unfold is_word_char. cbv zeta.
  rewrite !orb_true_iff, !andb_true_iff, !Nat.leb_le, Nat.eqb_eq. lia.
Qed.

(** Whether a line terminator starts at a position of the user part does
    not depend on the commit hash that follows it. *)
Lemma dot_refuses_before_hash (suf rest : string) (sep h : ascii) :
  is_word_char h = true ->
  dot_refuses (suf +:+ String sep (String h rest))
  = dot_refuses (suf +:+ String sep EmptyString).
Proof.
  intros Hh%word_char_ascii.
  assert (H128 : (nat_of_ascii h =? 128)%nat = false) by (apply Nat.eqb_neq; lia).
  assert (H168 : (nat_of_ascii h =? 168)%nat = false) by (apply Nat.eqb_neq; lia).
  assert (H169 : (nat_of_ascii h =? 169)%nat = false) by (apply Nat.eqb_neq; lia).
  destruct suf as [|a [|b suf]]; rewrite ?append_cons, ?append_nil_l; unfold dot_refuses.
  - destruct rest; [done|]. by rewrite H128, andb_false_r.
  - by rewrite H168, H169, andb_false_r.
  - by destruct suf.
Qed.

Lemma match_from_user (suf pre hash text : string) (sep : ascii) :
  dot_matches_all (suf +:+ String sep EmptyString) = true ->
  Forall (fun c => c <> ":"%char) (String.list_ascii_of_string suf) ->
  is_word_char sep = false -> sep <> ":"%char ->
  hash <> EmptyString ->
  Forall (fun c => is_word_char c = true) (String.list_ascii_of_string hash) ->
  match_from pre (suf +:+ String sep (hash +:+ String ":" text))
  = Some (pre +:+ suf +:+ String sep EmptyString, hash).
Proof.
  intros Hdot Hsuf Hsep Hcolon Hne Hhash. revert pre Hdot.
  destruct hash as [|h hash]; [done|].
  assert (Hh : is_word_char h = true).
  { cbn [String.list_ascii_of_string] in Hhash. by apply Forall_cons in Hhash as [? _]. }
  induction suf as [|a suf IH]; intros pre Hdot.
  - rewrite append_nil_l in Hdot. cbn [dot_matches_all] in Hdot.
    apply andb_true_iff in Hdot as [Hdot%negb_true_iff _].
    rewrite !append_nil_l. cbn [match_from].
    pose proof (match_here_inside pre EmptyString (String h hash +:+ String ":" text) sep)
      as Hin.
    rewrite append_nil_l in Hin. rewrite Hin; [|constructor|done..].
    pose proof (dot_refuses_before_hash EmptyString (hash +:+ String ":" text) sep h Hh)
      as Hctx.
    rewrite !append_nil_l in Hctx. rewrite append_cons, Hctx, Hdot, <- append_cons.
    assert (Hpre : pre +:+ String sep EmptyString <> EmptyString)
      by (by destruct pre).
    by apply match_from_here, match_here_hash.
  - cbn [String.list_ascii_of_string] in Hsuf. apply Forall_cons in Hsuf as [Ha Hsuf].
    rewrite append_cons in Hdot. cbn [dot_matches_all] in Hdot.
    apply andb_true_iff in Hdot as [Hdot%negb_true_iff Hrest].
    pose proof (match_here_inside pre (String a suf) (String h hash +:+ String ":" text) sep)
      as Hin.
    pose proof (dot_refuses_before_hash (String a suf) (hash +:+ String ":" text) sep h Hh)
      as Hctx.
    rewrite !append_cons in Hin, Hctx |- *. cbn [match_from].
    rewrite Hin; [|by constructor|done..].
    rewrite Hctx, Hdot, <- append_cons.
    by rewrite (IH Hsuf _ Hrest), append_assoc_char, append_cons.
Qed.

(** X21. The pattern reads back what hg writes. Take a user part without
    colon whose last character is no word character (a blank, say), a commit
    hash that is a non-empty run of word characters, and let no line
    terminator (LF, CR, U+2028, U+2029) start in the user part: on the line
    made of the user part, the hash, a colon and any text,
    [/^(.+?)(\w+):/] returns exactly that user part and that hash. *)
Theorem match_line_round_trip (name hash text : string) (sep : ascii) :
  dot_matches_all (name +:+ String sep EmptyString) = true ->
  Forall (fun c => c <> ":"%char) (String.list_ascii_of_string name) ->
  is_word_char sep = false -> sep <> ":"%char ->
  hash <> EmptyString ->
  Forall (fun c => is_word_char c = true) (String.list_ascii_of_string hash) ->
  match_line ((name +:+ String sep EmptyString) +:+ hash +:+ String ":" text)
  = Some (name +:+ String sep EmptyString, hash).
Proof.
  intros Hdot Hname Hsep Hcolon Hne Hhash. unfold match_line.
  rewrite append_assoc_char.
  by rewrite (match_from_user name EmptyString hash text sep).
Qed.

(** *** Line numbers of the parsed annotations *)

Lemma find_imap_key {A B : Type} (g : nat -> A -> B) (l : list A) (k n : nat) :
  List.find (fun entry : nat * B => (fst entry =? k + n)%nat)
            (imap (fun i x => ((k + i)%nat, g (k + i)%nat x)) l)
  = (fun x => ((k + n)%nat, g (k + n)%nat x)) <$> l !! n.
Proof.
  revert k n. induction l as [|x l IH]; intros k n; [done|].
  rewrite imap_cons. cbn [List.find fst].
  destruct n as [|n].
  - by rewrite Nat.eqb_refl.
  - replace (k + 0 =? k + S n)%nat with false by (symmetry; apply Nat.eqb_neq; lia).
    cbn [lookup list_lookup].
    rewrite (imap_ext _ (fun i x => ((S k + i)%nat, g (S k + i)%nat x))).
    + replace (k + S n)%nat with (S k + n)%nat by lia. apply IH.
    + intros i y _. cbn. by replace (k + S i)%nat with (S (k + i)) by lia.
Qed.

Lemma omap_lookup_Some {A B : Type} (f : A -> option B) (l : list A) (n : nat) (y : B) :
  omap f l !! n = Some y ->
  exists k x, l !! k = Some x /\ f x = Some y
              /\ length (omap f (take k l)) = n /\ (n <= k)%nat.
Proof.
  revert n. induction l as [|x l IH]; intros n; [done|]. cbn [omap list_omap].
  destruct (f x) as [y'|] eqn:Hx.
  - destruct n as [|n]; cbn [lookup list_lookup].
    + intros [= ->]. exists 0%nat, x. split_and!; [done | done | done | lia].
    + intros (k & x' & Hk & Hf & Hlen & Hle)%IH. exists (S k), x'.
      cbn [take omap list_omap]. rewrite Hx. cbn [length].
      split_and!; [done | done | by rewrite Hlen | lia].
  - intros (k & x' & Hk & Hf & Hlen & Hle)%IH. exists (S k), x'.
    cbn [take omap list_omap]. rewrite Hx.
    split_and!; [done | done | done | lia].
Qed.

Lemma omap_length_le {A B : Type} (f : A -> option B) (l : list A) :
  (length (omap f l) <= length l)%nat.
Proof.
  induction l as [|x l IH]; [done|]. cbn [omap list_omap length].
  destruct (f x); cbn [length]; lia.
Qed.

Lemma atLine_parseRawBlame (rawBlame : string) (n : nat) :
  atLine (parseRawBlame rawBlame) n
  = (fun m => mkBlameLineInfo n (fst m) (snd m))
      <$> omap match_line (split_lines rawBlame) !! n.
Proof.
  unfold atLine, parseRawBlame.
  rewrite (find_imap_key (fun i m => mkBlameLineInfo i (fst m) (snd m)) _ 0 n).
  by destruct (_ !! n).
Qed.

(** X22. Blame entries are numbered without gaps. The entries [allLines()]
    returns carry the line numbers 0, 1, 2, ... in this order, there are at
    most as many as the output of hg has lines, and [atLine(n)] is the
    entry at position [n] of [allLines()]. *)
Theorem blame_lines_numbered (rawBlame : string) :
  line <$> allLines (parseRawBlame rawBlame)
  = seq 0 (length (allLines (parseRawBlame rawBlame)))
  /\ (length (allLines (parseRawBlame rawBlame)) <= length (split_lines rawBlame))%nat
  /\ forall n, atLine (parseRawBlame rawBlame) n = allLines (parseRawBlame rawBlame) !! n.
Proof.
  assert (Hall : forall (l : list (string * string)) k,
    line <$> (map snd (imap (fun i m => ((k + i)%nat, mkBlameLineInfo (k + i) (fst m) (snd m))) l))
    = seq k (length l)).
  { induction l as [|m l IH]; intros k; [done|]. rewrite imap_cons. cbn.
    rewrite Nat.add_0_r. f_equal. rewrite <- (IH (S k)). do 2 f_equal.
    apply imap_ext. intros i y _. cbn. by replace (k + S i)%nat with (S (k + i)) by lia. }
  unfold allLines. split_and!.
  - unfold parseRawBlame. rewrite length_map, length_imap. apply (Hall _ 0%nat).
  - unfold parseRawBlame. rewrite length_map, length_imap. apply omap_length_le.
  - intros n. rewrite atLine_parseRawBlame. unfold parseRawBlame.
    change (map snd ?l) with (snd <$> l).
    rewrite list_lookup_fmap, list_lookup_imap. by destruct (_ !! n).
Qed.

(** X23. A blame entry's number counts annotated lines, not lines. The entry
    [atLine(n)] returns comes from a line of hg's output that the pattern
    matched: it has that line's user and commit hash, its [line] is [n], and
    [n] is the number of matched lines before that line, so the line is at
    position [n] or later in the output. *)
Theorem blame_entry_source (rawBlame : string) (n : nat) (info : BlameLineInfo) :
  atLine (parseRawBlame rawBlame) n = Some info ->
  exists k l,
    split_lines rawBlame !! k = Some l
    /\ match_line l = Some (user info, commitHash info)
    /\ line info = n
    /\ length (omap match_line (take k (split_lines rawBlame))) = n
    /\ (n <= k)%nat.
Proof.
  rewrite atLine_parseRawBlame.
  destruct (omap match_line (split_lines rawBlame) !! n) as [m|] eqn:Hm; [|done].
  intros [= <-]. apply omap_lookup_Some in Hm as (k & l & Hk & Hl & Hlen & Hle).
  exists k, l. cbn [user commitHash line]. by destruct m.
Qed.

(** ** Decorations of the reconciled groups *)

Section DecorationProofs.

Variable file_uri : string -> string -> Uri.
Variable existsSync : Uri -> bool.

#[local] Abbreviation first_emit := (first_emit file_uri).
#[local] Abbreviation second_emit := (second_emit file_uri existsSync).
#[local] Abbreviation groupStatuses := (groupStatuses file_uri existsSync).

Lemma route_conflict (st : Status) (midMerge : bool) (ms : MergeStatus) (staged : bool) :
  route_by_precedence st midMerge ms staged = conflict ->
  midMerge = true /\ ms = UNRESOLVED.
Proof.
  unfold route_by_precedence.
  destruct st, midMerge, ms, staged; try discriminate; done.
Qed.

Lemma route_merge (st : Status) (midMerge : bool) (ms : MergeStatus) (staged : bool) :
  route_by_precedence st midMerge ms staged = merge ->
  midMerge = true /\ ms <> UNRESOLVED.
Proof.
  unfold route_by_precedence.
  destruct st, midMerge, ms, staged; try discriminate; done.
Qed.

Lemma route_unresolved (st : Status) (staged : bool) :
  route_by_precedence st true UNRESOLVED staged = conflict
  \/ route_by_precedence st true UNRESOLVED staged = untracked.
Proof. unfold route_by_precedence. destruct st; auto. Qed.

(** A resource of a successful pass sits in the group the routing
    precedence gives for its own status and resolution state. *)
Lemma groupStatuses_routed (p : IGroupStatusesParams) (gs : IStatusGroups)
    (id : ResourceGroupId) (r : Resource) :
  constructed (g_staging (statusGroups p)) ->
  groupStatuses p = Ok gs ->
  r ∈ _resources (group_of gs id) ->
  exists staged,
    id = route_by_precedence (_status r) (isMerge (repoStatus p)) (_mergeStatus r) staged.
Proof.
  intros Hs H.
  destruct (groupStatuses_elems file_uri existsSync p gs Hs H) as (rs & _ & _ & Hin & Hfrom).
  intros [Hid Hr]%Hin. subst id. destruct Hr as [Hr|Hr].
  - destruct (Hfrom r Hr) as (raw & _ & Hemit).
    destruct (first_emit_Ok _ _ _ _ Hemit) as (st & _ & Heq). rewrite Heq. by eexists.
  - apply list_elem_of_fmap in Hr as (raw & Heq & _). rewrite Heq. by eexists.
Qed.

(** X24. Where the conflict icon shows. In the partition of a successful
    pass over a constructed previous staging group, a resource of the
    conflict group shows the conflict icon unless it is missing or deleted,
    when it shows the icon of that status; no resource of the merge group
    shows the conflict icon; and during a merge the conflict icon shows in
    the conflict group and the untracked group only. *)
Theorem conflict_icon_groups (p : IGroupStatusesParams) (gs : IStatusGroups) :
  constructed (g_staging (statusGroups p)) ->
  groupStatuses p = Ok gs ->
  (forall r theme, r ∈ _resources (g_conflict gs) ->
     getIconPath r theme
     = Some match _status r with
            | MISSING => Missing
            | DELETED => Deleted
            | _ => Conflict
            end)
  /\ (forall r theme, r ∈ _resources (g_merge gs) -> getIconPath r theme <> Some Conflict)
  /\ (isMerge (repoStatus p) = true ->
      forall id r theme,
        r ∈ _resources (group_of gs id) -> getIconPath r theme = Some Conflict ->
        id = conflict \/ id = untracked).
Proof.
  intros Hs H. split_and!.
  - intros r theme Hr.
    destruct (groupStatuses_routed p gs conflict r Hs H Hr) as (staged & Hroute).
    symmetry in Hroute. apply route_conflict in Hroute as [_ Hms].
    unfold getIconPath. rewrite Hms. by destruct (_status r).
  - intros r theme Hr.
    destruct (groupStatuses_routed p gs merge r Hs H Hr) as (staged & Hroute).
    symmetry in Hroute. apply route_merge in Hroute as [_ Hms].
    unfold getIconPath. rewrite (bool_decide_false _ Hms). by destruct (_status r).
  - intros Hmerge id r theme Hr Hicon.
    destruct (groupStatuses_routed p gs id r Hs H Hr) as (staged & ->).
    rewrite Hmerge.
    assert (_mergeStatus r = UNRESOLVED) as ->.
    { unfold getIconPath in Hicon. case_bool_decide as Hms; [done|].
      cbn in Hicon. by destruct (_status r). }
    apply route_unresolved.
Qed.

End DecorationProofs.

(** ** Heads and bookmarks *)

Lemma foldl_app_bookmarks (heads : list Commit) (acc : list string) :
  foldl (fun prev curr => prev ++ bookmarks curr) acc heads
  = acc ++ concat (map bookmarks heads).
Proof.
  revert acc. induction heads as [|h heads IH]; intros acc; cbn.
  - by rewrite app_nil_r.
  - by rewrite IH, app_assoc.
Qed.

Lemma concat_filter_bookmarks (heads : list Commit) :
  concat (map bookmarks (filter (fun h => (0 < length (bookmarks h))%nat) heads))
  = concat (map bookmarks heads).
Proof.
  induction heads as [|h heads IH]; [done|]. rewrite filter_cons.
  case_decide as Hh; cbn; rewrite IH; [done|].
  destruct (bookmarks h); [done | cbn in Hh; lia].
Qed.

(** X25. The bookmark names of the heads. [getBookmarkNamesFromHeads]
    returns the bookmarks of all the heads, head after head: the filter it
    applies first drops nothing that would contribute. So a name is returned
    exactly when some head carries it. *)
Theorem getBookmarkNamesFromHeads_concat (allHeads : list Commit) :
  getBookmarkNamesFromHeads allHeads = concat (map bookmarks allHeads)
  /\ forall name,
       name ∈ getBookmarkNamesFromHeads allHeads
       <-> exists h, h ∈ allHeads /\ name ∈ bookmarks h.
Proof.
  assert (Heq : getBookmarkNamesFromHeads allHeads = concat (map bookmarks allHeads)).
  { unfold getBookmarkNamesFromHeads. cbv zeta.
    by rewrite foldl_app_bookmarks, concat_filter_bookmarks. }
  split; [done|]. intros name. rewrite Heq. clear Heq.
  induction allHeads as [|h heads IH]; cbn.
  - split; [by intros ?%elem_of_nil | by intros (h & ?%elem_of_nil & _)].
  - rewrite elem_of_app, IH. split.
    + intros [Hh|(h' & Hh' & Hn)].
      * exists h. split; [apply elem_of_cons; by left | done].
      * exists h'. split; [apply elem_of_cons; by right | done].
    + intros (h' & [->|Hh']%elem_of_cons & Hn); [by left | right; by exists h'].
Qed.

(** X26. Heads without a bookmark. [getHashesOfNonDistinctBookmarkHeads]
    never returns a single hash: it returns nothing when at most one head
    has no bookmark, and otherwise the hashes of all the heads without
    bookmark, in order. *)
Theorem getHashesOfNonDistinctBookmarkHeads_spec (allHeads : list Commit) :
  let bare := filter (fun h => bookmarks h = []) allHeads in
  length (getHashesOfNonDistinctBookmarkHeads allHeads) <> 1%nat
  /\ ((length bare <= 1)%nat -> getHashesOfNonDistinctBookmarkHeads allHeads = [])
  /\ ((1 < length bare)%nat -> getHashesOfNonDistinctBookmarkHeads allHeads = map hash bare).
Proof.
  cbv zeta. unfold getHashesOfNonDistinctBookmarkHeads. cbv zeta.
  assert (Hfilter : filter (fun h => length (bookmarks h) = 0%nat) allHeads
                    = filter (fun h => bookmarks h = []) allHeads).
  { apply list_filter_iff. intros h. by destruct (bookmarks h). }
  rewrite Hfilter.
  destruct (1 <? length _)%nat eqn:Hlen.
  - apply Nat.ltb_lt in Hlen. rewrite length_map. split_and!; [lia | lia | done].
  - apply Nat.ltb_ge in Hlen. split_and!; [done | done | lia].
Qed.

(** ** Committing *)

Section CommitProofs.

Variable relativePath : Uri -> string.

#[local] Abbreviation commit := (commit relativePath).

Lemma mapR_relativePath_valid (rs : list Resource) :
  Forall valid rs ->
  mapR (mapResourceToRepoRelativePath relativePath) rs
  = Ok (map (fun r => relativePath (effective r)) rs).
Proof.
  intros Hvalid. apply mapR_pure. eapply Forall_impl; [exact Hvalid|].
  intros r Hr. unfold mapResourceToRepoRelativePath.
  by rewrite (resourceUri_valid r Hr).
Qed.

Lemma commit_staged_changes (groups : IStatusGroups) :
  commit groups (Some STAGED_CHANGES)
  = (fileList ← mapR (mapResourceToRepoRelativePath relativePath)
                     (_resources (g_staging groups));
     Ok (false, fileList)).
Proof. reflexivity. Qed.

(** X27. What [commit] sends. With the scopes ALL and ALL_WITH_ADD_REMOVE,
    or without options, the file list is empty whatever the groups hold, and
    [addRemove] is set for ALL_WITH_ADD_REMOVE only. After resources have
    been staged on groups built by their constructors, a commit of the staged
    changes does not throw, and its file list has one path per resource of
    the staging group, among them the path of every resource just staged. *)
Theorem commit_fileList (groups staged : IStatusGroups) (resources : list Resource) :
  constructed (g_staging groups) ->
  constructed (g_working groups) ->
  stage_recombine groups resources = (staged, Ok tt) ->
  commit groups None = Ok (false, [])
  /\ commit groups (Some ALL) = Ok (false, [])
  /\ commit groups (Some ALL_WITH_ADD_REMOVE) = Ok (true, [])
  /\ commit staged (Some STAGED_CHANGES)
     = Ok (false, map (fun r => relativePath (effective r)) (_resources (g_staging staged)))
  /\ forall r u, r ∈ resources -> resourceUri r = Ok u ->
       relativePath u ∈ map (fun r => relativePath (effective r))
                            (_resources (g_staging staged)).
Proof.
  intros Hs Hw Hstage. split_and!; [done..| |].
  - assert (Hvalid : Forall valid resources).
    { unfold stage_recombine in Hstage.
      destruct (intersect (g_staging groups) resources) as [s|e] eqn:Hi; [|by inversion Hstage].
      by apply intersect_inv_valid in Hi. }
    destruct (stage_recombine_Ok groups resources Hs Hw Hvalid)
      as (s & w & _ & _ & Hcs & _ & Heq).
    rewrite Heq in Hstage. injection Hstage as <-.
    rewrite commit_staged_changes. cbn [g_staging set_working set_staging].
    by rewrite (mapR_relativePath_valid _ (constructed_valid _ Hcs)).
  - intros r u Hr Hu.
    assert (Hvalid : Forall valid resources).
    { unfold stage_recombine in Hstage.
      destruct (intersect (g_staging groups) resources) as [s|e] eqn:Hi; [|by inversion Hstage].
      by apply intersect_inv_valid in Hi. }
    destruct (stage_recombine_Ok groups resources Hs Hw Hvalid)
      as (s & w & Hi & _ & Hcs & _ & Heq).
    rewrite Heq in Hstage. injection Hstage as <-. cbn [g_staging set_working set_staging].
    assert (Hinc : includesUri s u = true).
    { apply (intersect_includesUri (g_staging groups) resources s u Hs Hvalid Hi).
      right. apply (located_iff u resources Hvalid). by exists r. }
    apply (constructed_includesUri s u Hcs) in Hinc.
    apply list_elem_of_fmap in Hinc as (r' & -> & Hr').
    apply list_elem_of_fmap. by exists r'.
Qed.

End CommitProofs.

(** * The object graph *)

(** ** Forgetting the owner objects commutes with the code *)

Lemma foldR_map {A B S} (g : A -> B) (body : S -> B -> result S) (s : S) (l : list A) :
  foldR body s (map g l) = foldR (fun s x => body s (g x)) s l.
Proof.
  revert s. induction l as [|x l IH]; intros s; [done|].
  cbn [foldR map]. destruct (body s (g x)); cbn; [apply IH | done].
Qed.

Lemma foldR_erase {A S S'} (e : S' -> S) (f : S -> A -> result S)
    (g : S' -> A -> result S') :
  (forall s x, f (e s) x = (s' ← g s x; Ok (e s'))) ->
  forall l s, foldR f (e s) l = (s' ← foldR g s l; Ok (e s')).
Proof.
  intros Hstep. induction l as [|x l IH]; intros s; [done|].
  cbn [foldR]. rewrite Hstep. destruct (g s x) as [s'|err]; cbn; [apply IH | done].
Qed.

Lemma foldR_invariant {A S} (P : S -> Prop) (body : S -> A -> result S) :
  (forall s x s', P s -> body s x = Ok s' -> P s') ->
  forall l s s', P s -> foldR body s l = Ok s' -> P s'.
Proof.
  intros Hstep. induction l as [|x l IH]; intros s s' Hs H.
  - cbn in H. by injection H as <-.
  - cbn [foldR] in H. ok_bind H as s1 Hs1. eauto.
Qed.

Lemma erase_indexResources (rs : list Objects.Resource) :
  indexResources (map erase_resource rs) = Objects.indexResources rs.
Proof. unfold indexResources. by rewrite foldR_map. Qed.

Lemma erase_new_ResourceGroup (id : ResourceGroupId) (rs : list Objects.Resource) :
  new_ResourceGroup id (map erase_resource rs)
  = (G ← Objects.new_ResourceGroup id rs; Ok (erase_group G)).
Proof.
  unfold new_ResourceGroup, Objects.new_ResourceGroup. rewrite erase_indexResources.
  by destruct (Objects.indexResources rs).
Qed.

Lemma erase_some_resourceUri (u : string) (rs : list Objects.Resource) :
  some_resourceUri u (map erase_resource rs) = Objects.some_resourceUri u rs.
Proof.
  induction rs as [|r rs IH]; [done|]. cbn [map some_resourceUri Objects.some_resourceUri].
  change (resourceUri (erase_resource r)) with (Objects.resourceUri r).
  destruct (Objects.resourceUri r) as [u'|e]; cbn; [|done]. by rewrite IH.
Qed.

Lemma erase_chooseResourcesAndGroup (sg : Objects.IStatusGroups) (repo : IRepoStatus)
    (u c : string) (ms : MergeStatus) (renamed : bool) :
  chooseResourcesAndGroup (erase_groups sg) repo u c ms renamed
  = (choice ← Objects.chooseResourcesAndGroup sg repo u c ms renamed;
     Ok (fst (fst choice), snd choice)).
Proof.
  unfold chooseResourcesAndGroup, Objects.chooseResourcesAndGroup.
  destruct (toStatus c renamed) as [st|e]; cbn; [|done].
  case_decide; [done|]. destruct (isMerge repo); [by case_decide|].
  rewrite erase_some_resourceUri.
  by destruct (Objects.some_resourceUri u _) as [[]|].
Qed.

(** The group [chooseResourcesAndGroup] returns is the previous group that
    goes with the accumulator. *)
Lemma chooseResourcesAndGroup_previous (sg : Objects.IStatusGroups) (repo : IRepoStatus)
    (u c : string) (ms : MergeStatus) (renamed : bool)
    (id : ResourceGroupId) (g : Objects.ResourceGroup) (st : Status) :
  Objects.chooseResourcesAndGroup sg repo u c ms renamed = Ok (id, g, st) ->
  g = Objects.group_of sg id.
Proof.
  unfold Objects.chooseResourcesAndGroup. intros H. ok_bind H as st' Hst.
  case_decide; [by injection H as <- <- _|].
  destruct (isMerge repo).
  - case_decide; by injection H as <- <- _.
  - ok_bind H as isStaged Hstaged. by destruct isStaged; injection H as <- <- _.
Qed.

Lemma erase_push (b : Objects.Buckets) (id : ResourceGroupId) (r : Objects.Resource) :
  erase_buckets (Objects.push b id r) = push (erase_buckets b) id (erase_resource r).
Proof. destruct id; unfold erase_buckets, push, Objects.push; cbn; by rewrite map_app. Qed.

Lemma elem_of_bucket_push (b : Objects.Buckets) (target id : ResourceGroupId)
    (r r' : Objects.Resource) :
  r' ∈ Objects.bucket (Objects.push b target r) id
  <-> r' ∈ Objects.bucket b id \/ (id = target /\ r' = r).
Proof.
  destruct target, id; cbn; rewrite ?elem_of_app, ?list_elem_of_singleton;
    split; intros Hx; try tauto; destruct Hx as [?|[? ?]]; auto; discriminate.
Qed.

Lemma Objects_new_ResourceGroup_Ok (id : ResourceGroupId) (rs : list Objects.Resource)
    (G : Objects.ResourceGroup) :
  Objects.new_ResourceGroup id rs = Ok G ->
  Objects._id G = id /\ Objects._resources G = rs.
Proof.
  unfold Objects.new_ResourceGroup. intros H. ok_bind H as idx Hidx.
  by injection H as <-.
Qed.

Section ObjectProofs.

Variable file_uri : string -> string -> Uri.
Variable existsSync : Uri -> bool.

Lemma erase_firstPass (p : Objects.IGroupStatusesParams) (st : Objects.Buckets * gmap string bool)
    (raw : IFileStatus) :
  Objects.typed (Objects.statusGroups p) ->
  firstPass file_uri (erase_params p) (erase_buckets (fst st), snd st) raw
  = (st' ← Objects.firstPass file_uri p st raw; Ok (erase_buckets (fst st'), snd st')).
Proof.
  intros Htyped. unfold firstPass, Objects.firstPass. cbn.
  rewrite erase_chooseResourcesAndGroup.
  destruct (Objects.chooseResourcesAndGroup _ _ _ _ _ _) as [[[id g] status]|e] eqn:Hc;
    cbn; [|done].
  apply chooseResourcesAndGroup_previous in Hc as ->.
  rewrite erase_push. unfold erase_resource. cbn. by rewrite (Htyped id).
Qed.

Lemma erase_secondPass (p : Objects.IGroupStatusesParams) (seen : gmap string bool)
    (b : Objects.Buckets) (raw : IFileStatus) :
  Objects.typed (Objects.statusGroups p) ->
  secondPass file_uri existsSync (erase_params p) seen (erase_buckets b) raw
  = (b' ← Objects.secondPass file_uri existsSync p seen b raw; Ok (erase_buckets b')).
Proof.
  intros Htyped. unfold secondPass, Objects.secondPass. cbn.
  case_bool_decide; [done|].
  rewrite erase_chooseResourcesAndGroup.
  destruct (Objects.chooseResourcesAndGroup _ _ _ _ _ _) as [[[id g] status]|e] eqn:Hc;
    cbn; [|done].
  apply chooseResourcesAndGroup_previous in Hc as ->.
  rewrite erase_push. unfold erase_resource. cbn. by rewrite (Htyped id).
Qed.

Lemma erase_new_groups (b : Objects.Buckets) :
  (c ← new_ResourceGroup conflict (conflictResources (erase_buckets b));
   m ← new_ResourceGroup merge (mergeResources (erase_buckets b));
   s ← new_ResourceGroup staging (stagingResources (erase_buckets b));
   w ← new_ResourceGroup working (workingDirectoryResources (erase_buckets b));
   u ← new_ResourceGroup untracked (untrackedResources (erase_buckets b));
   Ok (mkStatusGroups c s m w u))
  = (gs ← (c ← Objects.new_ResourceGroup conflict (Objects.conflictResources b);
           m ← Objects.new_ResourceGroup merge (Objects.mergeResources b);
           s ← Objects.new_ResourceGroup staging (Objects.stagingResources b);
           w ← Objects.new_ResourceGroup working (Objects.workingDirectoryResources b);
           u ← Objects.new_ResourceGroup untracked (Objects.untrackedResources b);
           Ok (Objects.mkStatusGroups c s m w u));
     Ok (erase_groups gs)).
Proof.
  change (conflictResources (erase_buckets b))
    with (map erase_resource (Objects.conflictResources b)).
  change (mergeResources (erase_buckets b))
    with (map erase_resource (Objects.mergeResources b)).
  change (stagingResources (erase_buckets b))
    with (map erase_resource (Objects.stagingResources b)).
  change (workingDirectoryResources (erase_buckets b))
    with (map erase_resource (Objects.workingDirectoryResources b)).
  change (untrackedResources (erase_buckets b))
    with (map erase_resource (Objects.untrackedResources b)).
  rewrite !erase_new_ResourceGroup.
  destruct (Objects.new_ResourceGroup conflict _); cbn [mbind result_bind]; [|done].
  destruct (Objects.new_ResourceGroup merge _); cbn [mbind result_bind]; [|done].
  destruct (Objects.new_ResourceGroup staging _); cbn [mbind result_bind]; [|done].
  destruct (Objects.new_ResourceGroup working _); cbn [mbind result_bind]; [|done].
  by destruct (Objects.new_ResourceGroup untracked _).
Qed.

(** Forgetting the owner objects turns a pass of [Objects.groupStatuses]
    into the pass of [groupStatuses] on the inputs with owners forgotten. *)
Lemma erase_groupStatuses (p : Objects.IGroupStatusesParams) :
  Objects.typed (Objects.statusGroups p) ->
  groupStatuses file_uri existsSync (erase_params p)
  = (gs ← Objects.groupStatuses file_uri existsSync p; Ok (erase_groups gs)).
Proof.
  intros Htyped. unfold groupStatuses, Objects.groupStatuses.
  change (emptyBuckets, ∅) with
    ((fun st : Objects.Buckets * gmap string bool => (erase_buckets (fst st), snd st))
       (Objects.emptyBuckets, ∅)).
  cbn [fileStatuses resolveStatuses erase_params].
  rewrite (foldR_erase
             (fun st : Objects.Buckets * gmap string bool => (erase_buckets (fst st), snd st))
             (firstPass file_uri (erase_params p)) (Objects.firstPass file_uri p));
    [|intros st raw; by apply erase_firstPass].
  destruct (foldR (Objects.firstPass file_uri p) _ _) as [[b seen]|e];
    cbn [mbind result_bind fst snd]; [|done].
  assert (Hsecond :
    match Objects.resolveStatuses p with
    | Some rs => foldR (secondPass file_uri existsSync (erase_params p) seen)
                       (erase_buckets b) rs
    | None => Ok (erase_buckets b)
    end
    = (b' ← match Objects.resolveStatuses p with
            | Some rs => foldR (Objects.secondPass file_uri existsSync p seen) b rs
            | None => Ok b
            end; Ok (erase_buckets b'))).
  { destruct (Objects.resolveStatuses p) as [rs|]; [|done].
    apply foldR_erase. intros b0 raw. by apply erase_secondPass. }
  rewrite Hsecond. clear Hsecond.
  destruct (match Objects.resolveStatuses p with Some _ => _ | None => _ end) as [b'|e];
    cbn [mbind result_bind]; [|done].
  apply erase_new_groups.
Qed.

End ObjectProofs.

(** ** Groups of the object graph *)

Lemma Objects_valid_is_Ok (r : Objects.Resource) :
  is_Ok (Objects.resourceUri r) <-> valid (erase_resource r).
Proof. symmetry. apply (valid_is_Ok (erase_resource r)). Qed.

Lemma Forall_valid_erase (rs : list Objects.Resource) :
  Forall valid (map erase_resource rs)
  <-> Forall (fun r => valid (erase_resource r)) rs.
Proof.
  induction rs as [|r rs IH]; cbn [map]; [by split; constructor|].
  rewrite !Forall_cons. by rewrite IH.
Qed.

Lemma Objects_Forall_valid (L : list Objects.Resource) :
  Forall (fun r => is_Ok (Objects.resourceUri r)) L
  <-> Forall valid (map erase_resource L).
Proof.
  rewrite Forall_valid_erase. apply Forall_proper; [|done].
  intros r. apply Objects_valid_is_Ok.
Qed.

Lemma Objects_resourceUri_valid (r : Objects.Resource) :
  valid (erase_resource r) -> Objects.resourceUri r = Ok (Objects.effective r).
Proof. apply (resourceUri_valid (erase_resource r)). Qed.

Lemma Objects_includes_valid (G : Objects.ResourceGroup) (r : Objects.Resource) :
  valid (erase_resource r) ->
  Objects.includes G r = Ok (Objects.includesUri G (Objects.effective r)).
Proof. intros H. unfold Objects.includes. by rewrite (Objects_resourceUri_valid r H). Qed.

Lemma map_effective_erase (rs : list Objects.Resource) :
  map effective (map erase_resource rs) = map Objects.effective rs.
Proof. by rewrite map_map. Qed.

Lemma Objects_new_ResourceGroup_valid (id : ResourceGroupId) (rs : list Objects.Resource) :
  Forall valid (map erase_resource rs) ->
  exists G, Objects.new_ResourceGroup id rs = Ok G
    /\ Objects._id G = id /\ Objects._resources G = rs
    /\ forall u, Objects.includesUri G u = true <-> u ∈ map Objects.effective rs.
Proof.
  intros Hv. destruct (indexResources_valid _ Hv) as (idx & H & Hidx).
  rewrite erase_indexResources in H.
  unfold Objects.new_ResourceGroup. rewrite H. cbn. eexists. split; [done|].
  split; [done|]. split; [done|]. intros u.
  unfold Objects.includesUri. cbn. rewrite bool_decide_eq_true, Hidx.
  by rewrite map_effective_erase.
Qed.

(** A constructed group of the object graph is a constructed group once the
    owners are forgotten. *)
Lemma erase_constructed (G : Objects.ResourceGroup) :
  Objects.constructed G -> constructed (erase_group G).
Proof.
  unfold Objects.constructed, constructed. intros H.
  cbn [_id _resources erase_group]. by rewrite erase_new_ResourceGroup, H.
Qed.

Lemma Objects_constructed_valid (G : Objects.ResourceGroup) :
  Objects.constructed G -> Forall valid (map erase_resource (Objects._resources G)).
Proof. intros H%erase_constructed. by apply constructed_valid in H. Qed.

Lemma Objects_constructed_includesUri (G : Objects.ResourceGroup) (u : Uri) :
  Objects.constructed G ->
  Objects.includesUri G u = true <-> u ∈ map Objects.effective (Objects._resources G).
Proof.
  intros H%erase_constructed. rewrite <- map_effective_erase.
  apply (constructed_includesUri (erase_group G) u H).
Qed.

Lemma elem_of_map_Objects_effective (r : Objects.Resource) (rs : list Objects.Resource) :
  r ∈ rs -> Objects.effective r ∈ map Objects.effective rs.
Proof. intros H. apply list_elem_of_fmap. eauto. Qed.

(** What [except] returns on resources whose location is defined. *)
Lemma Objects_except_valid (G : Objects.ResourceGroup) (L : list Objects.Resource) :
  Objects.constructed G -> Forall valid (map erase_resource L) ->
  exists E, Objects.except G L = Ok E
    /\ Objects._id E = Objects._id G
    /\ Objects._resources E
       = filter (fun r => Objects.effective r ∉ map Objects.effective L)
                (Objects._resources G)
    /\ forall u, Objects.includesUri E u = true
                 <-> u ∈ map Objects.effective (Objects._resources E).
Proof.
  intros HG HL. unfold Objects.except.
  destruct (indexResources_valid _ HL) as (ex & Hex & Hin).
  rewrite erase_indexResources in Hex. rewrite Hex. cbn [mbind result_bind].
  pose proof (Objects_constructed_valid G HG) as HvG.
  erewrite (filterM_pure _ (fun r => Objects.effective r ∉ map Objects.effective L));
    cycle 1.
  { apply Forall_valid_erase in HvG. eapply Forall_impl; [exact HvG|].
    intros r Hr. cbn in Hr. rewrite (Objects_resourceUri_valid r Hr).
    cbn [mbind result_bind]. f_equal.
    rewrite <- bool_decide_not. apply bool_decide_ext.
    by rewrite Hin, map_effective_erase. }
  cbn [mbind result_bind]. unfold Objects.newResourceGroup.
  destruct (Objects_new_ResourceGroup_valid (Objects._id G)
              (filter (fun r => Objects.effective r ∉ map Objects.effective L)
                      (Objects._resources G)))
    as (E & -> & Hid & Hrs & HinE).
  { apply Forall_valid_erase, Forall_filter. by apply Forall_valid_erase. }
  exists E. rewrite Hrs. done.
Qed.

(** What [intersect] returns on resources whose location is defined: every
    resource it builds references the receiver. *)
Lemma Objects_intersect_valid (G : Objects.ResourceGroup) (L : list Objects.Resource) :
  Objects.constructed G -> Forall valid (map erase_resource L) ->
  exists I, Objects.intersect G L = Ok I
    /\ Objects._id I = Objects._id G
    /\ Objects._resources I
       = Objects._resources G
           ++ map (fun r => Objects.mkResource G (Objects.effective r) (Objects._status r)
                                               (Objects._mergeStatus r) None)
                  (filter (fun r => Objects.includes G r = Ok false) L)
    /\ forall u, Objects.includesUri I u = true
                 <-> u ∈ map Objects.effective (Objects._resources I).
Proof.
  intros HG HL. unfold Objects.intersect.
  pose proof (proj1 (Forall_valid_erase L) HL) as HL'.
  erewrite (filterM_pure _ (fun r => Objects.includes G r = Ok false)); cycle 1.
  { eapply Forall_impl; [exact HL'|]. intros r Hr. cbn in Hr.
    rewrite (Objects_includes_valid G r Hr). cbn [mbind result_bind]. f_equal.
    destruct (Objects.includesUri G (Objects.effective r)); cbn;
      [by rewrite bool_decide_false | by rewrite bool_decide_true]. }
  cbn [mbind result_bind].
  erewrite (mapR_pure _ (fun r => Objects.mkResource G (Objects.effective r)
                                    (Objects._status r) (Objects._mergeStatus r) None));
    cycle 1.
  { apply Forall_filter. eapply Forall_impl; [exact HL'|]. intros r Hr. cbn in Hr.
    by rewrite (Objects_resourceUri_valid r Hr). }
  cbn [mbind result_bind]. unfold Objects.newResourceGroup.
  destruct (Objects_new_ResourceGroup_valid (Objects._id G)
              (Objects._resources G
                 ++ map (fun r => Objects.mkResource G (Objects.effective r)
                                    (Objects._status r) (Objects._mergeStatus r) None)
                        (filter (fun r => Objects.includes G r = Ok false) L)))
    as (I & -> & Hid & Hrs & HinI).
  { rewrite map_app. apply Forall_app. split; [by apply Objects_constructed_valid|].
    apply Forall_valid_erase, Forall_forall.
    by intros r' (r & -> & _)%list_elem_of_fmap. }
  exists I. rewrite Hrs. done.
Qed.

(** C5, amended. Group recombination laws, with the owner of a resource as
    an object. For a group [G] built by its constructor and a list [L] of
    resources whose effective location is defined: [G.except(L)] returns a
    group that includes no element of [L]; [G.intersect(L)] returns a group
    of the same kind whose resources are those of [G], unchanged and in
    place, followed by one new resource for each element of [L] whose
    location [G] does not include; the new resource references [G], the
    receiver, keeps status and merge status, sits at the effective location
    and has no rename source; the result includes every resource of [G] and
    every element of [L]; and whenever it holds a new resource the result is
    another group than [G], so the new resources are not owned by the group
    that holds them. *)
Theorem recombination_laws (G : Objects.ResourceGroup) (L : list Objects.Resource) :
  Objects.constructed G ->
  Forall (fun r => is_Ok (Objects.resourceUri r)) L ->
  (exists E, Objects.except G L = Ok E
     /\ forall r, r ∈ L -> Objects.includes E r = Ok false)
  /\ (exists I, Objects.intersect G L = Ok I
     /\ Objects._id I = Objects._id G
     /\ Objects._resources I =
          Objects._resources G
            ++ map (fun r => Objects.mkResource G (Objects.effective r) (Objects._status r)
                                                (Objects._mergeStatus r) None)
                   (filter (fun r => Objects.includes G r = Ok false) L)
     /\ (forall r, r ∈ Objects._resources G ->
           r ∈ Objects._resources I /\ Objects.includes I r = Ok true)
     /\ (forall r, r ∈ L -> Objects.includes I r = Ok true)
     /\ (forall r, r ∈ L -> Objects.includes G r = Ok false ->
           exists r', r' ∈ Objects._resources I
             /\ Objects._resourceGroup r' = G
             /\ Objects._resourceGroup r' <> I
             /\ Objects.resourceUri r' = Objects.resourceUri r
             /\ Objects._status r' = Objects._status r
             /\ Objects._mergeStatus r' = Objects._mergeStatus r
             /\ Objects._renameResourceUri r' = None)).
Proof.
  intros HG HL%Objects_Forall_valid.
  pose proof (proj1 (Forall_valid_erase L) HL) as HL'.
  assert (HvL : forall r, r ∈ L -> valid (erase_resource r)).
  { intros r Hr. by apply (proj1 (Forall_forall _ L) HL'). }
  split.
  - destruct (Objects_except_valid G L HG HL) as (E & HE & _ & Hrs & Hin).
    exists E. split; [done|]. intros r Hr.
    rewrite Objects_includes_valid by (by apply HvL). f_equal.
    apply not_true_is_false. rewrite Hin, Hrs.
    intros [r' [Heq [Hnot _]%list_elem_of_filter]]%list_elem_of_fmap.
    apply Hnot. rewrite <- Heq. by apply elem_of_map_Objects_effective.
  - destruct (Objects_intersect_valid G L HG HL) as (I & HI & Hid & Hrs & Hin).
    exists I. split; [done|]. split; [done|]. split; [done|].
    pose proof (proj1 (Forall_valid_erase _) (Objects_constructed_valid G HG)) as HvG.
    split; [|split].
    + intros r Hr. split; [rewrite Hrs; apply elem_of_app; by left|].
      assert (Hv : valid (erase_resource r))
        by (by apply (proj1 (Forall_forall _ (Objects._resources G)) HvG)).
      rewrite Objects_includes_valid by done. f_equal.
      apply Hin. rewrite Hrs, map_app. apply elem_of_app. left.
      by apply elem_of_map_Objects_effective.
    + intros r Hr. rewrite Objects_includes_valid by (by apply HvL). f_equal.
      apply Hin. rewrite Hrs, map_app. apply elem_of_app.
      destruct (Objects.includesUri G (Objects.effective r)) eqn:Hinc.
      * left. by apply Objects_constructed_includesUri.
      * right. apply list_elem_of_fmap.
        exists (Objects.mkResource G (Objects.effective r) (Objects._status r)
                                   (Objects._mergeStatus r) None).
        split; [done|]. apply list_elem_of_fmap. exists r. split; [done|].
        apply list_elem_of_filter. split; [|done].
        rewrite Objects_includes_valid by (by apply HvL). by rewrite Hinc.
    + intros r Hr Hnew.
      exists (Objects.mkResource G (Objects.effective r) (Objects._status r)
                                 (Objects._mergeStatus r) None).
      assert (Hr' : r ∈ filter (fun r => Objects.includes G r = Ok false) L)
        by (by apply list_elem_of_filter).
      split_and!; try done.
      * rewrite Hrs. apply elem_of_app. right. apply list_elem_of_fmap. by exists r.
      * cbn. intros ->. apply (f_equal (@length _)) in Hrs.
        rewrite length_app, length_map in Hrs.
        destruct (filter _ L); [by apply elem_of_nil in Hr' | cbn in Hrs; lia].
      * by rewrite (Objects_resourceUri_valid r (HvL r Hr)).
Qed.

(** ** The owners after a pass *)

Lemma erase_group_of (gs : Objects.IStatusGroups) (id : ResourceGroupId) :
  group_of (erase_groups gs) id = erase_group (Objects.group_of gs id).
Proof. by destruct id. Qed.

Lemma erase_all_resources (gs : Objects.IStatusGroups) :
  all_resources (erase_groups gs) = map erase_resource (Objects.all_resources gs).
Proof. unfold all_resources, Objects.all_resources. cbn. by rewrite !map_app. Qed.

Lemma elem_of_Objects_all_resources (gs : Objects.IStatusGroups) (r : Objects.Resource) :
  r ∈ Objects.all_resources gs
  <-> exists id, r ∈ Objects._resources (Objects.group_of gs id).
Proof.
  unfold Objects.all_resources. rewrite !elem_of_app. split.
  - intros [?|[?|[?|[?|?]]]];
      [by exists conflict | by exists merge | by exists staging | by exists working
       | by exists untracked].
  - intros [[] ?]; cbn in *; tauto.
Qed.

Section OwnerProofs.

Variable file_uri : string -> string -> Uri.
Variable existsSync : Uri -> bool.

Lemma firstPass_accumulated (p : Objects.IGroupStatusesParams)
    (st st' : Objects.Buckets * gmap string bool) (raw : IFileStatus) :
  accumulated p (fst st) -> Objects.firstPass file_uri p st raw = Ok st' ->
  accumulated p (fst st').
Proof.
  intros Hst H. unfold Objects.firstPass in H. cbv zeta in H.
  ok_bind H as choice Hc. destruct choice as [[target g] status].
  injection H as <-. cbn [fst]. intros id r [Hr|[-> ->]]%elem_of_bucket_push.
  - by apply Hst.
  - cbn. by apply chooseResourcesAndGroup_previous in Hc.
Qed.

Lemma secondPass_accumulated (p : Objects.IGroupStatusesParams) (seen : gmap string bool)
    (b b' : Objects.Buckets) (raw : IFileStatus) :
  accumulated p b -> Objects.secondPass file_uri existsSync p seen b raw = Ok b' ->
  accumulated p b'.
Proof.
  intros Hb H. unfold Objects.secondPass in H. cbv zeta in H.
  case_bool_decide; [by injection H as <-|].
  ok_bind H as choice Hc. destruct choice as [[target g] status].
  injection H as <-. intros id r [Hr|[-> ->]]%elem_of_bucket_push.
  - by apply Hb.
  - cbn. by apply chooseResourcesAndGroup_previous in Hc.
Qed.

(** Every resource a pass returns references the previous group of the kind
    of the group that holds it, and each returned group is of its kind. *)
Lemma Objects_groupStatuses_owner (p : Objects.IGroupStatusesParams)
    (gs : Objects.IStatusGroups) :
  Objects.groupStatuses file_uri existsSync p = Ok gs ->
  Objects.typed gs
  /\ forall id r, r ∈ Objects._resources (Objects.group_of gs id) ->
       Objects._resourceGroup r = Objects.group_of (Objects.statusGroups p) id.
Proof.
  unfold Objects.groupStatuses. intros H.
  ok_bind H as st Hst. ok_bind H as b Hb.
  assert (Hacc : accumulated p b).
  { assert (accumulated p Objects.emptyBuckets) as Hempty
      by (intros [] r Hr; by apply elem_of_nil in Hr).
    assert (accumulated p (fst st)) as Hfirst.
    { apply (foldR_invariant (fun st => accumulated p (fst st))
               (Objects.firstPass file_uri p)
               (fun s x s' => firstPass_accumulated p s s' x)
               (Objects.fileStatuses p) (Objects.emptyBuckets, ∅) st Hempty Hst). }
    destruct (Objects.resolveStatuses p) as [rs|]; [|by injection Hb as <-].
    by apply (foldR_invariant (accumulated p)
                (Objects.secondPass file_uri existsSync p (snd st))
                (fun s x s' => secondPass_accumulated p (snd st) s s' x)
                rs (fst st) b Hfirst Hb). }
  ok_bind H as c Hc. ok_bind H as m Hm. ok_bind H as s Hs.
  ok_bind H as w Hw. ok_bind H as u Hu. injection H as <-.
  apply Objects_new_ResourceGroup_Ok in Hc as [? Hc], Hm as [? Hm], Hs as [? Hs],
    Hw as [? Hw], Hu as [? Hu].
  split; [by intros []|].
  intros id r Hr. apply Hacc.
  destruct id; cbn in Hr |- *;
    [by rewrite <- Hc | by rewrite <- Hs | by rewrite <- Hm | by rewrite <- Hw
     | by rewrite <- Hu].
Qed.

(** The partition of a pass of [groupStatuses], and the rule that fills the
    untracked group. *)
Lemma groupStatuses_erased_partition (p : IGroupStatusesParams) (gs : IStatusGroups) :
  constructed (g_staging (statusGroups p)) ->
  groupStatuses file_uri existsSync p = Ok gs ->
  (forall id r, r ∈ _resources (group_of gs id) ->
     _resourceGroup r = id
     /\ (id = untracked <-> _status r = IGNORED \/ _status r = UNTRACKED))
  /\ length (all_resources gs)
     = (length (fileStatuses p) + length (missed file_uri p))%nat
  /\ map effective (all_resources gs) ≡ₚ processed_locations file_uri p
  /\ (NoDup (processed_locations file_uri p) ->
      forall u id1 id2,
        includesUri (group_of gs id1) u = true ->
        includesUri (group_of gs id2) u = true ->
        id1 = id2).
Proof.
  intros Hs H.
  destruct (groupStatuses_elem file_uri existsSync p gs Hs H) as (rs & Hrs & Hc & Hres & Hperm).
  split; [|split; [|split]].
  - intros id r.
    destruct (groupStatuses_elems file_uri existsSync p gs Hs H)
      as (rs' & Hrs' & _ & Hin & Hfrom).
    intros [Hid Hr]%Hin. subst id. split; [done|].
    rewrite (emitted_untracked file_uri existsSync p rs' r Hfrom Hr).
    unfold isDirtyStatus.
    destruct (_status r); split; intros Hx; try done; try (destruct Hx; discriminate); auto.
  - rewrite Hperm, length_app, length_map. by rewrite (mapR_Ok_length _ _ _ Hrs).
  - rewrite Hperm. by rewrite (effective_processed file_uri existsSync p rs Hrs).
  - intros Hnd u id1 id2 H1 H2.
    rewrite <- (effective_processed file_uri existsSync p rs Hrs) in Hnd.
    apply (constructed_includesUri _ _ (Hc id1)) in H1.
    apply (constructed_includesUri _ _ (Hc id2)) in H2.
    rewrite Hres in H1, H2.
    apply list_elem_of_fmap in H1 as (r1 & -> & [<- Hr1]%elem_of_owned_by).
    apply list_elem_of_fmap in H2 as (r2 & Heq & [<- Hr2]%elem_of_owned_by).
    by rewrite (NoDup_map_inj effective _ r1 r2 Hnd Hr1 Hr2 Heq).
Qed.

(** C2, amended. In a successful pass over previous groups of their kinds,
    the staging one built by its constructor, the five returned groups
    partition the resources built, one per processed record. Each returned
    group is of its kind, and each of its resources references the previous
    group of that kind, the object the pass was given, not the group that now
    holds it; a resource sits in the returned group of the kind of the group
    it references and in no other. The untracked group holds exactly the
    resources with status IGNORED or UNTRACKED. There are as many resources
    as raw status records plus resolution records not skipped, and their
    effective locations are, up to order, those of the processed records.
    Hence, when no two processed records share an effective location, no
    location is included in two groups. *)
Theorem groupStatuses_partition (p : Objects.IGroupStatusesParams)
    (gs : Objects.IStatusGroups) :
  Objects.typed (Objects.statusGroups p) ->
  Objects.constructed (Objects.g_staging (Objects.statusGroups p)) ->
  Objects.groupStatuses file_uri existsSync p = Ok gs ->
  Objects.typed gs
  /\ (forall id r, r ∈ Objects._resources (Objects.group_of gs id) ->
        Objects._resourceGroup r = Objects.group_of (Objects.statusGroups p) id)
  /\ (forall r, r ∈ Objects.all_resources gs ->
        forall id, r ∈ Objects._resources (Objects.group_of gs id)
                   <-> Objects._id (Objects._resourceGroup r) = id)
  /\ (forall r, r ∈ Objects.all_resources gs ->
        r ∈ Objects._resources (Objects.g_untracked gs)
        <-> Objects._status r = IGNORED \/ Objects._status r = UNTRACKED)
  /\ length (Objects.all_resources gs)
     = (length (Objects.fileStatuses p) + length (missed file_uri (erase_params p)))%nat
  /\ map Objects.effective (Objects.all_resources gs)
     ≡ₚ processed_locations file_uri (erase_params p)
  /\ (NoDup (processed_locations file_uri (erase_params p)) ->
      forall u id1 id2,
        Objects.includesUri (Objects.group_of gs id1) u = true ->
        Objects.includesUri (Objects.group_of gs id2) u = true ->
        id1 = id2).
Proof.
  intros Htyped Hs H.
  destruct (Objects_groupStatuses_owner p gs H) as [Hkind Hown].
  assert (He : groupStatuses file_uri existsSync (erase_params p) = Ok (erase_groups gs))
    by (by rewrite (erase_groupStatuses file_uri existsSync p Htyped), H).
  destruct (groupStatuses_erased_partition (erase_params p) (erase_groups gs)
              (erase_constructed _ Hs) He) as (Hrule & Hlen & Hperm & Hdisj).
  assert (Hin : forall id r, r ∈ Objects._resources (Objects.group_of gs id) ->
                  erase_resource r ∈ _resources (group_of (erase_groups gs) id)).
  { intros id r Hr. rewrite erase_group_of. apply list_elem_of_fmap. by exists r. }
  split; [done|]. split; [done|]. split; [|split; [|split; [|split]]].
  - intros r [id' Hr']%elem_of_Objects_all_resources id. split.
    + intros Hr. by rewrite (Hown id r Hr), (Htyped id).
    + intros <-. by rewrite (Hown id' r Hr'), (Htyped id').
  - intros r [id' Hr']%elem_of_Objects_all_resources. split.
    + intros Hr. by apply (proj2 (Hrule untracked _ (Hin untracked r Hr))).
    + intros Hst. destruct (Hrule id' _ (Hin id' r Hr')) as [_ [_ Hid]].
      by rewrite (Hid Hst) in Hr'.
  - by rewrite erase_all_resources, length_map in Hlen.
  - by rewrite erase_all_resources, map_effective_erase in Hperm.
  - intros Hnd u id1 id2 H1 H2. apply (Hdisj Hnd u); by rewrite erase_group_of.
Qed.

End OwnerProofs.

(** * Instances of the further properties *)

Lemma constructed_empty_group (id : ResourceGroupId) : constructed (empty_group id).
Proof. destruct id; vm_compute; reflexivity. Defined.

Lemma constructed_working_a : constructed working_a.
Proof. vm_compute. reflexivity. Defined.

Lemma working_resources_located :
  Forall (fun r => is_Ok (resourceUri r)) working_resources.
Proof. repeat constructor; eexists; reflexivity. Defined.

(** Instance of X1: looking up the staged [a.txt]. *)
Lemma getResource_includesUri_witness :
  exists found,
    getResource staged_a "file:///repo/a.txt" = Ok found
    /\ (is_Some found <-> includesUri staged_a "file:///repo/a.txt" = true).
Proof.
  destruct (getResource_includesUri staged_a "file:///repo/a.txt" constructed_staged_a)
    as (found & Hget & Hiff & _).
  exists found. split; [exact Hget | exact Hiff].
Defined.

(** Instance of X2: recombining the staging group twice with the same
    resources. *)
Lemma recombination_composes_witness :
  exists I E,
    intersect staged_a working_resources = Ok I
    /\ except staged_a working_resources = Ok E
    /\ intersect I working_resources = Ok I
    /\ except E working_resources = Ok E
    /\ except I working_resources = Ok E.
Proof.
  apply recombination_composes;
    [exact constructed_staged_a | exact working_resources_located].
Defined.

(** Instance of X3: the staging group holds one location, the resources two
    distinct ones. *)
Lemma recombination_keeps_distinct_witness :
  (forall E, except staged_a working_resources = Ok E ->
             NoDup (map effective (_resources E)))
  /\ (NoDup (map effective working_resources) ->
      forall I, intersect staged_a working_resources = Ok I ->
                NoDup (map effective (_resources I))).
Proof.
  apply recombination_keeps_distinct;
    [exact constructed_staged_a | exact working_resources_located |].
  apply (bool_decide_unpack _). vm_compute. exact I.
Defined.

(** Instance of X4: staging [a.txt] and the renamed [b.txt]. *)
Lemma stage_recombine_membership_witness :
  exists groups',
    stage_recombine groups_staged_a working_resources = (groups', Ok tt)
    /\ g_untracked groups' = g_untracked groups_staged_a
    /\ forall r, r ∈ working_resources ->
         includes (g_staging groups') r = Ok true /\ includes (g_working groups') r = Ok false.
Proof.
  destruct (stage_recombine_membership groups_staged_a working_resources)
    as (groups' & Hstage & _ & _ & Hu & _ & _ & _ & _ & Hin & _).
  - exact constructed_staged_a.
  - exact (constructed_empty_group working).
  - exact working_resources_located.
  - exists groups'. split; [exact Hstage|]. split; [exact Hu | exact Hin].
Defined.

(** Instance of X5: staging or unstaging a resource whose location throws
    leaves the groups alone. *)
Lemma stage_unstage_atomic_witness :
  (forall groups' e,
     stage_recombine groups_staged_a erroring_resources = (groups', Throw e) ->
     groups' = groups_staged_a)
  /\ (forall groups' e,
        unstage groups_staged_a erroring_resources = (groups', Throw e) ->
        groups' = groups_staged_a).
Proof.
  apply (stage_unstage_atomic groups_staged_a erroring_resources).
  exact (constructed_empty_group working).
Defined.


(** Instance of X7: staging [a.txt] from the working group and unstaging it
    again. *)
Lemma stage_then_unstage_witness :
  exists staged unstaged,
    stage_recombine groups_working_a (_resources working_a) = (staged, Ok tt)
    /\ unstage staged (_resources working_a) = (unstaged, Ok tt)
    /\ g_staging unstaged = g_staging groups_working_a
    /\ forall u, includesUri (g_working unstaged) u = includesUri (g_working groups_working_a) u.
Proof.
  apply stage_then_unstage.
  - exact (constructed_empty_group staging).
  - exact constructed_working_a.
  - discriminate.
  - intros r Hr. apply list_elem_of_singleton in Hr. subst r. vm_compute. split; reflexivity.
Defined.

(** Instance of X8: the staged [a.txt] is found. *)
Lemma findTrackedResourceByUri_spec_witness :
  exists found,
    findTrackedResourceByUri groups_staged_a "file:///repo/a.txt" = Ok found
    /\ forall r, found = Some r ->
         resourceUri r = Ok "file:///repo/a.txt"
         /\ (r ∈ _resources (g_working groups_staged_a)
             \/ r ∈ _resources (g_staging groups_staged_a)
             \/ r ∈ _resources (g_merge groups_staged_a)
             \/ r ∈ _resources (g_conflict groups_staged_a)).
Proof.
  destruct (findTrackedResourceByUri_spec groups_staged_a "file:///repo/a.txt")
    as (found & Hfind & _ & Hsome & _).
  - exact (constructed_empty_group working).
  - exact constructed_staged_a.
  - exact (constructed_empty_group merge).
  - exact (constructed_empty_group conflict).
  - exists found. split; [exact Hfind | exact Hsome].
Defined.

(** Instance of X9: rolling back a commit of [a.txt] while [a.txt] is
    staged. *)
Lemma rollback_restage_arguments_witness :
  (exists args,
     rollback_restage posix_file_uri "/repo" groups_staged_a false rollback_of_a
                      (Some rollback_of_a) = Ok (Some args)
     /\ forall r, r ∈ args <->
          exists f, f ∈ [mkFileStatus "M" "a.txt" None]
            /\ findTrackedResourceByUri groups_staged_a (posix_file_uri "/repo" (path f))
               = Ok (Some r))
  /\ rollback_restage posix_file_uri "/repo" groups_staged_a true rollback_of_a
                      (Some rollback_of_a) = Ok None.
Proof.
  destruct (rollback_restage_arguments posix_file_uri "/repo" groups_staged_a rollback_of_a
              rollback_of_a [mkFileStatus "M" "a.txt" None])
    as [(args & Hargs & Hin & _) Hdry].
  - exact (constructed_empty_group working).
  - exact constructed_staged_a.
  - exact (constructed_empty_group merge).
  - exact (constructed_empty_group conflict).
  - reflexivity.
  - reflexivity.
  - discriminate.
  - discriminate.
  - split; [|exact Hdry]. exists args. split; [exact Hargs | exact Hin].
Defined.

(** Instance of X10: discarding a modified and a renamed file reverts both
    and forgets nothing. *)
Lemma clean_calls_witness :
  clean posix_relativePath working_resources = Ok [CallRevert ["a.txt"; "old.txt"]].
Proof.
  destruct (clean_calls posix_relativePath working_resources) as [Hok _].
  rewrite Hok.
  - vm_compute. reflexivity.
  - repeat constructor; intros _; eexists; reflexivity.
Defined.

(** Instance of X11: the mid-merge pass returns a partition. *)
Lemma groupStatuses_outcome_witness :
  is_Ok (groupStatuses posix_file_uri only_c_exists merge_params).
Proof.
  destruct (groupStatuses_outcome posix_file_uri only_c_exists merge_params
              constructed_staged_a) as (Hok & _).
  apply Hok. split.
  - repeat constructor; apply (bool_decide_unpack _); vm_compute; exact I.
  - repeat constructor; discriminate.
Defined.

(** Instance of X12: the unknown [n.txt] of the mid-merge pass has no dirty
    status, and the repository is not clean. *)
Lemma groupStatuses_isClean_witness :
  exists gs,
    groupStatuses posix_file_uri only_c_exists merge_params = Ok gs
    /\ (forall id r, r ∈ _resources (group_of gs id) ->
          isDirtyStatus r = false <-> id = untracked)
    /\ (isClean gs = true <->
        Forall (fun raw => status raw = "?" \/ status raw = "I") (fileStatuses merge_params)
        /\ missed posix_file_uri merge_params = []).
Proof.
  destruct (groupStatuses posix_file_uri only_c_exists merge_params) as [gs|e] eqn:Hg;
    [|vm_compute in Hg; discriminate].
  exists gs. split; [reflexivity|].
  exact (groupStatuses_isClean posix_file_uri only_c_exists merge_params gs
           constructed_staged_a Hg).
Defined.


(** Instance of X14: [a.txt], staged from the working group, is still staged
    after the refresh. *)
Lemma staged_files_stay_staged_witness :
  exists gs,
    groupStatuses posix_file_uri only_c_exists refresh_after_stage_params = Ok gs
    /\ mkResource staging "file:///repo/a.txt" MODIFIED NONE None ∈ _resources (g_staging gs).
Proof.
  destruct (groupStatuses posix_file_uri only_c_exists refresh_after_stage_params)
    as [gs|e] eqn:Hg; [|vm_compute in Hg; discriminate].
  exists gs. split; [reflexivity|].
  destruct (staged_files_stay_staged posix_file_uri only_c_exists groups_working_a
              groups_after_stage (_resources working_a) refresh_after_stage_params gs
              (constructed_empty_group staging) constructed_working_a
              eq_refl eq_refl eq_refl Hg
              (mkFileStatus "M" "a.txt" None)
              (mkResource working "file:///repo/a.txt" MODIFIED NONE None))
    as (st & Hst & Hin).
  - apply list_elem_of_singleton. reflexivity.
  - apply list_elem_of_singleton. reflexivity.
  - reflexivity.
  - discriminate.
  - discriminate.
  - vm_compute in Hst. injection Hst as <-. exact Hin.
Defined.

(** Instance of X15: the order of the mid-merge pass. *)
Lemma groupStatuses_keeps_order_witness :
  exists gs,
    groupStatuses posix_file_uri only_c_exists merge_params = Ok gs
    /\ forall id,
         map original (_resources (group_of gs id))
         `sublist_of` ["file:///repo/a.txt"; "file:///repo/n.txt"; "file:///repo/c.txt"].
Proof.
  destruct (groupStatuses posix_file_uri only_c_exists merge_params) as [gs|e] eqn:Hg;
    [|vm_compute in Hg; discriminate].
  exists gs. split; [reflexivity|].
  exact (groupStatuses_keeps_order posix_file_uri only_c_exists merge_params gs
           constructed_staged_a Hg).
Defined.

(** Instance of X16: with [Status] running the tracker is not idle. *)
Lemma isIdle_iff_nothing_running_witness :
  isIdle status_running = true <-> forall op, isRunning status_running op = false.
Proof.
  apply isIdle_iff_nothing_running. apply reachable_start, reachable_new.
Defined.

(** Instance of X17: [Stage] starts [AddRemove] while [Status] is running. *)
Lemma tracker_overlap_witness :
  isRunning (end_ (start (start status_running Operation.Stage) Operation.AddRemove)
                  Operation.Stage) Operation.AddRemove = true
  /\ end_ (end_ (start (start status_running Operation.Stage) Operation.AddRemove)
                Operation.AddRemove) Operation.Stage = status_running.
Proof.
  destruct (tracker_overlap status_running Operation.Stage Operation.AddRemove)
    as (Hb & _ & _ & Hback).
  - apply reachable_start, reachable_new.
  - discriminate.
  - reflexivity.
  - reflexivity.
  - split; [exact Hb | exact Hback].
Defined.

(** Instance of X18: a lock that is gone at the fourth query. *)
Lemma whenUnlocked_stops_when_unlocked_witness :
  length (timeouts (whenUnlocked locked_thrice)) = 3%nat
  /\ queries (whenUnlocked locked_thrice) = [true; true; true; false].
Proof.
  apply (whenUnlocked_stops_when_unlocked locked_thrice 3).
  - lia.
  - intros k Hk. unfold locked_thrice. apply Nat.ltb_lt. exact Hk.
  - reflexivity.
Defined.

(** Instance of X20: a line of [hg annotate -u -c]. *)
Lemma match_line_sound_witness :
  exists text,
    "bob 1a2b: x = 1" = "bob " +:+ "1a2b" +:+ String ":" text
    /\ "bob " <> EmptyString
    /\ "1a2b" <> EmptyString
    /\ Forall (fun c => is_word_char c = true) (String.list_ascii_of_string "1a2b")
    /\ Forall (fun c => is_line_break c = false) (String.list_ascii_of_string "bob ").
Proof. apply match_line_sound. vm_compute. reflexivity. Defined.

(** Instance of X21: the same line, read back. *)
Lemma match_line_round_trip_witness :
  match_line (("bob" +:+ String " " EmptyString) +:+ "1a2b" +:+ String ":" " x = 1")
  = Some ("bob" +:+ String " " EmptyString, "1a2b").
Proof.
  apply match_line_round_trip.
  - reflexivity.
  - repeat constructor; discriminate.
  - reflexivity.
  - discriminate.
  - discriminate.
  - repeat constructor.
Defined.

(** A user part that holds U+2028 (the bytes 226 128 168) is not matched:
    [.] refuses the line separator. *)
Example match_line_line_separator :
  match_line ("bob" +:+ String "226" (String "128" (String "168" " 1a2b: x = 1"))) = None.
Proof. vm_compute. reflexivity. Qed.

(** Instance of X23: the entry numbered 1 comes from the third line of the
    output, the second being empty. *)
Lemma blame_entry_source_witness :
  exists k l,
    split_lines blame_output !! k = Some l
    /\ match_line l = Some ("amy ", "3c4d")
    /\ length (omap match_line (take k (split_lines blame_output))) = 1%nat
    /\ (1 <= k)%nat.
Proof.
  destruct (blame_entry_source blame_output 1 (mkBlameLineInfo 1 "amy " "3c4d"))
    as (k & l & Hk & Hl & _ & Hlen & Hle).
  - vm_compute. reflexivity.
  - exists k, l. split; [exact Hk|]. split; [exact Hl|]. split; [exact Hlen | exact Hle].
Defined.

(** Instance of X24: the unresolved [c.txt] of the mid-merge pass shows the
    conflict icon. *)
Lemma conflict_icon_groups_witness :
  exists gs,
    groupStatuses posix_file_uri only_c_exists merge_params = Ok gs
    /\ (forall r theme, r ∈ _resources (g_conflict gs) ->
          getIconPath r theme
          = Some match _status r with
                 | MISSING => Missing
                 | DELETED => Deleted
                 | _ => Conflict
                 end)
    /\ (forall r theme, r ∈ _resources (g_merge gs) -> getIconPath r theme <> Some Conflict).
Proof.
  destruct (groupStatuses posix_file_uri only_c_exists merge_params) as [gs|e] eqn:Hg;
    [|vm_compute in Hg; discriminate].
  exists gs. split; [reflexivity|].
  destruct (conflict_icon_groups posix_file_uri only_c_exists merge_params gs
              constructed_staged_a Hg) as (Hc & Hm & _).
  split; [exact Hc | exact Hm].
Defined.

(** Instance of X26: two of the three heads have no bookmark. *)
Lemma getHashesOfNonDistinctBookmarkHeads_spec_witness :
  getHashesOfNonDistinctBookmarkHeads three_heads = ["aaa"; "ccc"].
Proof.
  destruct (getHashesOfNonDistinctBookmarkHeads_spec three_heads) as (_ & _ & Hmany).
  rewrite Hmany.
  - vm_compute. reflexivity.
  - vm_compute. lia.
Defined.

(** Instance of X27: committing the staged changes after [a.txt] has been
    staged. *)
Lemma commit_fileList_witness :
  commit posix_relativePath groups_after_stage (Some STAGED_CHANGES) = Ok (false, ["a.txt"])
  /\ commit posix_relativePath groups_working_a (Some ALL_WITH_ADD_REMOVE) = Ok (true, []).
Proof.
  destruct (commit_fileList posix_relativePath groups_working_a groups_after_stage
              (_resources working_a) (constructed_empty_group staging)
              constructed_working_a eq_refl)
    as (_ & _ & Haddremove & Hstaged & _).
  split; [|exact Haddremove]. rewrite Hstaged. vm_compute. reflexivity.
Defined.

(** * Instances on the object graph *)

Lemma constructed_staged_a_object : Objects.constructed staged_a_object.
Proof. vm_compute. reflexivity. Defined.

Lemma typed_object_groups_staged_a : Objects.typed object_groups_staged_a.
Proof. intros []; reflexivity. Defined.

Lemma typed_empty_objects : Objects.typed Objects.createEmptyStatusGroups.
Proof. intros []; reflexivity. Defined.

(** C5 as stated fails on the owner. Staging [a.txt] (already staged) and
    the renamed [b.txt]: the resource [intersect] builds for [b.txt]
    references the receiver, the staging group as it was, and not the group
    [intersect] returns, which is the one that holds it. *)
Lemma recombination_laws_counterexample :
  exists I r',
    Objects.intersect staged_a_object working_resource_objects = Ok I
    /\ r' ∈ Objects._resources I
    /\ (r' ∉ Objects._resources staged_a_object)
    /\ Objects._resourceGroup r' = staged_a_object
    /\ Objects._resourceGroup r' <> I.
Proof.
  eexists _, (Objects.mkResource staged_a_object "file:///repo/old.txt" RENAMED NONE None).
  split; [vm_compute; reflexivity|]. split; [|split; [|split]].
  - apply elem_of_cons. right. apply elem_of_cons. left. reflexivity.
  - intros Hin. apply list_elem_of_singleton in Hin. discriminate.
  - reflexivity.
  - intros Heq. apply (f_equal (fun G => length (Objects._resources G))) in Heq.
    vm_compute in Heq. discriminate.
Qed.

(** Instance of C5, amended: the same call. The resource of [a.txt] stays
    as it is, with the owner it had; the new resource sits at the rename
    source of [b.txt] and references the receiver. *)
Lemma recombination_laws_witness :
  (exists E, Objects.except staged_a_object working_resource_objects = Ok E
     /\ forall r, r ∈ working_resource_objects -> Objects.includes E r = Ok false)
  /\ (exists I, Objects.intersect staged_a_object working_resource_objects = Ok I
        /\ Objects._resources I =
             [Objects.mkResource (Objects.empty_group staging) "file:///repo/a.txt"
                                 MODIFIED NONE None;
              Objects.mkResource staged_a_object "file:///repo/old.txt" RENAMED NONE None]
        /\ forall r, r ∈ working_resource_objects -> Objects.includes I r = Ok true).
Proof.
  destruct (recombination_laws staged_a_object working_resource_objects) as [HE HI].
  - exact constructed_staged_a_object.
  - repeat constructor; eexists; reflexivity.
  - split; [exact HE|].
    destruct HI as (I & HI & _ & Hrs & _ & HL & _).
    exists I. split; [exact HI|]. split; [|exact HL].
    rewrite Hrs. reflexivity.
Defined.

(** C2 as stated fails. After [hg mv a.txt b.txt] with [a.txt] staged, the
    removed [a.txt] goes back to staging while the added [b.txt], whose
    effective location is its rename source [a.txt], goes to working: both
    groups include the location of [a.txt]. And a resolution list that names
    [c.txt] twice, unresolved then resolved, puts it in conflict and in
    merge. *)
Lemma groupStatuses_partition_counterexample :
  (exists gs,
     Objects.groupStatuses posix_file_uri only_c_exists rename_params_objects = Ok gs
     /\ Objects.includesUri (Objects.g_staging gs) "file:///repo/a.txt" = true
     /\ Objects.includesUri (Objects.g_working gs) "file:///repo/a.txt" = true)
  /\ (exists gs,
        Objects.groupStatuses posix_file_uri only_c_exists duplicate_resolve_params_objects
        = Ok gs
        /\ Objects.includesUri (Objects.g_conflict gs) "file:///repo/c.txt" = true
        /\ Objects.includesUri (Objects.g_merge gs) "file:///repo/c.txt" = true
        /\ map Objects.original (Objects._resources (Objects.g_conflict gs))
           = ["file:///repo/c.txt"]
        /\ map Objects.original (Objects._resources (Objects.g_merge gs))
           = ["file:///repo/c.txt"]).
Proof.
  split.
  - destruct (Objects.groupStatuses posix_file_uri only_c_exists rename_params_objects)
      as [gs|e] eqn:Hg; vm_compute in Hg; [|discriminate].
    injection Hg as <-. eexists. split; [reflexivity|]. by vm_compute.
  - destruct (Objects.groupStatuses posix_file_uri only_c_exists
                duplicate_resolve_params_objects)
      as [gs|e] eqn:Hg; vm_compute in Hg; [|discriminate].
    injection Hg as <-. eexists. split; [reflexivity|]. by vm_compute.
Qed.

(** Instance of C2, amended: the mid-merge pass processes three records at
    three locations; every resource references the group the pass was given
    for its kind, and no location is included in two groups. *)
Lemma groupStatuses_partition_witness :
  exists gs,
    Objects.groupStatuses posix_file_uri only_c_exists merge_params_objects = Ok gs
    /\ length (Objects.all_resources gs) = 3%nat
    /\ (forall id r, r ∈ Objects._resources (Objects.group_of gs id) ->
          Objects._resourceGroup r = Objects.group_of object_groups_staged_a id)
    /\ (forall r, r ∈ Objects.all_resources gs ->
          r ∈ Objects._resources (Objects.g_untracked gs)
          <-> Objects._status r = IGNORED \/ Objects._status r = UNTRACKED)
    /\ forall u id1 id2,
         Objects.includesUri (Objects.group_of gs id1) u = true ->
         Objects.includesUri (Objects.group_of gs id2) u = true ->
         id1 = id2.
Proof.
  destruct (Objects.groupStatuses posix_file_uri only_c_exists merge_params_objects)
    as [gs|e] eqn:Hg; [|vm_compute in Hg; discriminate].
  exists gs. split; [reflexivity|].
  destruct (groupStatuses_partition posix_file_uri only_c_exists merge_params_objects gs
              typed_object_groups_staged_a constructed_staged_a_object Hg)
    as (_ & Hown & _ & Hrule & Hlen & _ & Hdisj).
  split; [exact Hlen|]. split; [exact Hown|]. split; [exact Hrule|]. apply Hdisj.
  apply (bool_decide_unpack _). vm_compute. exact I.
Defined.
